(** * Bidirectional path search (networkx/algorithms/bidirectional_path_search.py)

    A shallow embedding of the three bidirectional searches of the module
    ([bidirectional_has_path], [bidirectional_all_shortest_paths],
    [bidirectional_all_simple_paths]) together with their correctness
    statements.

    Conventions of the embedding:
    - nodes are natural numbers, a Python tuple of nodes is a [list node];
      what a caller passes as source or target is a [value], an integer or
      a tuple;
    - a Python [set] is a duplicate-free list in insertion order
      ([ListSet.set_add] appends a new element at the end), a Python [dict]
      is an association list in insertion order; where the order in which a
      set is iterated matters, [sp_loop_in_order] takes it as a parameter;
    - a [for] loop is a [fold_left] over the iterated list, its mutable
      variables are the accumulator;
    - a generator is modelled by what consuming it produces: the list of
      yielded values, in order, and the way the iteration ends;
    - a [while] loop is driven by a fuel argument; the theorems show that a
      fuel proportional to the number of nodes is enough. *)

From Stdlib Require Import List Arith Bool Lia ZArith ListSet Permutation.
Import ListNotations.

(* ================================================================= *)
(** ** Data model *)

Definition node := nat.
Definition path := list node.

Definition path_eq_dec : forall p q : path, {p = q} + {p <> q} :=
  list_eq_dec Nat.eq_dec.

(** [x in s] for a set or tuple of nodes. *)
Definition mem (x : node) (s : list node) : bool := set_mem Nat.eq_dec x s.

(** [s.add(x)] on a set of nodes and on a set of paths. *)
Definition add_node (x : node) (s : list node) : list node :=
  set_add Nat.eq_dec x s.
Definition add_path (p : path) (s : list path) : list path :=
  set_add path_eq_dec p s.

(** [s.update(t)]. *)
Definition update (s t : list node) : list node := set_union Nat.eq_dec s t.

(** Truth value of a container: non-empty. *)
Definition truthy {A} (l : list A) : bool :=
  match l with [] => false | _ :: _ => true end.

(** [not set(path_t).intersection(path_s)]. *)
Definition disjointb (path_t path_s : path) : bool :=
  negb (existsb (fun x => mem x path_s) path_t).

(** [p[-1]]; every path handled by the engines is non-empty. *)
Definition last_node (p : path) : node := last p 0.

(** The two-slot lists [tree], [leaves] and [nodes], indexed by [modus]. *)
Definition sel {A} (two : A * A) (modus : bool) : A :=
  if modus then snd two else fst two.
Definition upd {A} (two : A * A) (modus : bool) (x : A) : A * A :=
  if modus then (fst two, x) else (x, snd two).

(** The path handed to the caller at a meeting:
    [path_t + reversed(path_s)] when the target side was extended,
    [path_s + reversed(path_t)] otherwise. *)
Definition stitch (modus : bool) (path_s path_t : path) : path :=
  if modus then path_t ++ rev path_s else path_s ++ rev path_t.

(** Dictionaries from leaf to set of paths. *)
Definition dict := list (node * list path).

Fixpoint dict_get (k : node) (d : dict) : option (list path) :=
  match d with
  | [] => None
  | (k', ps) :: d' => if Nat.eqb k k' then Some ps else dict_get k d'
  end.

(** [try: d[k].add(p)  except: d[k] = {p}]. *)
Fixpoint dict_add (k : node) (p : path) (d : dict) : dict :=
  match d with
  | [] => [(k, [p])]
  | (k', ps) :: d' =>
      if Nat.eqb k k' then (k', add_path p ps) :: d'
      else (k', ps) :: dict_add k p d'
  end.

(** What a caller can pass as [source] or [target]. The nodes of the graphs
    of this development are integers; a tuple is a value a caller can pass
    as well (Python accepts any hashable value as a node). *)
Unset Elimination Schemes.
Inductive value : Type :=
| VInt (n : node)
| VTuple (items : list value).
Set Elimination Schemes.

(** Exceptions raised by the module. [NetworkXError] is the error of a
    missing end point (the spec's NodeNotFound), it carries the value its
    message shows. [TypeError] is the error Python raises when the message
    cannot be built. *)
Inductive exn : Type :=
| NetworkXError (shown : value)
| NetworkXNoPath (source target : node)
| TypeError.

Inductive outcome (A : Type) : Type :=
| Return (a : A)
| Raise (e : exn)
| OutOfFuel.
Arguments Return {A} a.
Arguments Raise {A} e.
Arguments OutOfFuel {A}.

(** ['source node %s not in graph' % v]: a tuple on the right of [%] is the
    list of the values to format, and the message has one [%s]; any other
    value is the one value to format. The result is the value the message
    shows; [None] is the TypeError of a number of values other than one. *)
Definition percent_s (v : value) : option value :=
  match v with
  | VInt _ => Some v
  | VTuple [x] => Some x
  | VTuple _ => None
  end.

(** [raise nx.NetworkXError('source node %s not in graph' % v)]: the message
    is built before the exception. *)
Definition raise_not_in_graph {A} (v : value) : outcome A :=
  match percent_s v with
  | Some shown => Raise (NetworkXError shown)
  | None => Raise TypeError
  end.

(** A generator, seen through its consumption: the values it yields and the
    way the iteration ends ([Return tt] is StopIteration). An exception of
    [ending] is met by the consumer only after the last element of
    [yielded]. *)
Record generator : Type := mkGen {
  yielded : list path;
  ending : outcome unit
}.

Definition yield_then (ps : list path) (g : generator) : generator :=
  {| yielded := ps ++ yielded g; ending := ending g |}.

(** Modelled from the spec: the Graph collaborator. The graph classes are not
    part of the module; section 6 of the spec lists what the searches ask of
    a graph: membership, the two kind flags, successors and predecessors
    (directed simple graphs), the neighbours [G[n]] (undirected simple
    graphs) and the incident edges [G.edges(n)] (multigraphs, one pair per
    parallel edge, the node itself first). *)
Record Graph : Type := mkGraph {
  node_list : list node;
  is_directed : bool;
  is_multigraph : bool;
  getitem : node -> list node;
  successors : node -> list node;
  predecessors : node -> list node;
  edges : node -> list (node * node)
}.

Definition contains (G : Graph) (n : node) : bool := mem n (node_list G).
Definition len (G : Graph) : nat := length (node_list G).

(* ================================================================= *)
(** ** Neighbor resolution *)

(** Simple graphs:
    [neighbors = lambda modus, node: iter(G[node])], replaced for a directed
    graph by [G.predecessors(node) if modus else G.successors(node)]. *)
Definition neighbors_simple (G : Graph) (modus : bool) (n : node) : list node :=
  if is_directed G then
    if modus then predecessors G n else successors G n
  else getitem G n.

(** Multigraphs: [[v for u, v in G.edges(node)]], whatever [modus] is. *)
Definition neighbors_multi (G : Graph) (modus : bool) (n : node) : list node :=
  map snd (edges G n).

(* ================================================================= *)
(** ** Reachability engine *)

Section HasPath.

Variable neighbors : bool -> node -> list node.

(** [for s in neighbors(modus, leave)]; [None] is [return True]. *)
Fixpoint scan_neighbors (nodes_s leaves_t : list node) (ss : list node)
    (temp : list node) : option (list node) :=
  match ss with
  | [] => Some temp
  | s :: ss' =>
      if negb (mem s nodes_s) then
        if mem s leaves_t then None
        else scan_neighbors nodes_s leaves_t ss' (add_node s temp)
      else scan_neighbors nodes_s leaves_t ss' temp
  end.

(** [for leave in leaves_s]. *)
Fixpoint scan_leaves (modus : bool) (nodes_s leaves_t : list node)
    (ls : list node) (temp : list node) : option (list node) :=
  match ls with
  | [] => Some temp
  | leave :: ls' =>
      match scan_neighbors nodes_s leaves_t (neighbors modus leave) temp with
      | None => None
      | Some temp' => scan_leaves modus nodes_s leaves_t ls' temp'
      end
  end.

(** [while leaves[0] and leaves[1]: ...; return False]. *)
Fixpoint has_path_loop (fuel : nat) (leaves nodes : list node * list node)
    : outcome bool :=
  match fuel with
  | 0 => OutOfFuel
  | S fuel' =>
      if truthy (sel leaves false) && truthy (sel leaves true) then
        let modus := length (sel leaves true) <? length (sel leaves false) in
        let nodes_s := sel nodes modus in
        let leaves_t := sel leaves (negb modus) in
        let leaves_s := sel leaves modus in
        match scan_leaves modus nodes_s leaves_t leaves_s [] with
        | None => Return true
        | Some temp =>
            has_path_loop fuel' (upd leaves modus temp)
              (upd nodes modus (update (sel nodes modus) temp))
        end
      else Return false
  end.

Definition has_path_engine (fuel : nat) (source target : node) : outcome bool :=
  has_path_loop fuel ([source], [target]) ([source], [target]).

End HasPath.

Definition _bidirectional_has_path (fuel : nat) (G : Graph)
    (source target : node) : outcome bool :=
  has_path_engine (neighbors_simple G) fuel source target.

Definition _bidirectional_has_path_multi (fuel : nat) (G : Graph)
    (source target : node) : outcome bool :=
  has_path_engine (neighbors_multi G) fuel source target.

Definition bidirectional_has_path (fuel : nat) (G : Graph)
    (source target : node) : outcome bool :=
  if negb (contains G source) then raise_not_in_graph (VInt source)
  else if negb (contains G target) then raise_not_in_graph (VInt target)
  else if is_multigraph G then _bidirectional_has_path_multi fuel G source target
  else _bidirectional_has_path fuel G source target.

(* ================================================================= *)
(** ** All-simple-paths engine *)

Section SimplePaths.

Variable neighbors : bool -> node -> list node.

(** [for path_t in tree_target[s]: if not set(path_t).intersection(path_s):
    yield ...]. *)
Definition join_paths (modus : bool) (path_s : path) (out : list path)
    (path_t : path) : list path :=
  if disjointb path_t path_s then out ++ [stitch modus path_s path_t] else out.

(** Body of [for path_s in paths]. *)
Definition visit_path (modus : bool) (tree_target : dict) (s : node)
    (st : list path * dict) (path_s : path) : list path * dict :=
  if negb (mem s path_s) then
    (match dict_get s tree_target with
     | Some paths_t => fold_left (join_paths modus path_s) paths_t (fst st)
     | None => fst st
     end,
     dict_add s (path_s ++ [s]) (snd st))
  else st.

(** Body of [for s in neighbors(modus, leave)]. *)
Definition visit_neighbor (modus : bool) (tree_target : dict)
    (paths : list path) (st : list path * dict) (s : node) : list path * dict :=
  fold_left (visit_path modus tree_target s) paths st.

(** Body of [for leave, paths in tree_source.items()]. *)
Definition visit_leaf (modus : bool) (tree_target : dict)
    (st : list path * dict) (item : node * list path) : list path * dict :=
  fold_left (visit_neighbor modus tree_target (snd item))
            (neighbors modus (fst item)) st.

(** One iteration of [for _ in range(cutoff)]: the paths it yields and the
    trees it leaves. *)
Definition simple_round (tree : dict * dict) : list path * (dict * dict) :=
  let modus := length (sel tree true) <? length (sel tree false) in
  let tree_source := sel tree modus in
  let tree_target := sel tree (negb modus) in
  let st := fold_left (visit_leaf modus tree_target) tree_source ([], []) in
  (fst st, upd tree modus (snd st)).

Fixpoint simple_rounds (rounds : nat) (tree : dict * dict) : list path :=
  match rounds with
  | 0 => []
  | S rounds' =>
      let r := simple_round tree in
      fst r ++ simple_rounds rounds' (snd r)
  end.

Definition simple_paths_engine (source target : node) (cutoff : Z)
    : generator :=
  if (cutoff <? 1)%Z then {| yielded := []; ending := Return tt |}
  else {| yielded := simple_rounds (Z.to_nat cutoff)
                       ([(source, [[source]])], [(target, [[target]])]);
          ending := Return tt |}.

End SimplePaths.

Definition _bidirectional_all_simple_paths (G : Graph) (source target : node)
    (cutoff : Z) : generator :=
  simple_paths_engine (neighbors_simple G) source target cutoff.

Definition _bidirectional_all_simple_paths_multi (G : Graph)
    (source target : node) (cutoff : Z) : generator :=
  simple_paths_engine (neighbors_multi G) source target cutoff.

Definition bidirectional_all_simple_paths (G : Graph) (source target : node)
    (cutoff : option Z) : outcome generator :=
  if negb (contains G source) then raise_not_in_graph (VInt source)
  else if negb (contains G target) then raise_not_in_graph (VInt target)
  else
    let cutoff := match cutoff with
                  | None => (Z.of_nat (len G) - 1)%Z
                  | Some c => c
                  end in
    if is_multigraph G then
      Return (_bidirectional_all_simple_paths_multi G source target cutoff)
    else Return (_bidirectional_all_simple_paths G source target cutoff).

(* ================================================================= *)
(** ** All-shortest-paths engine *)

(** The variables a round of the search writes: [found], the paths yielded
    so far in the round, [nodes_source] and [temp_tree]. *)
Record sp_state : Type := mkSp {
  sp_found : bool;
  sp_out : list path;
  sp_nodes_source : list node;
  sp_temp_tree : list path
}.

(** Body of [for path_t in tree_target]: [if s == path_t[-1]: if not
    set(path_t).intersection(path_s): found = 1; yield ...]. *)
Definition sp_meet (modus : bool) (path_s : path) (s : node)
    (fo : bool * list path) (path_t : path) : bool * list path :=
  if Nat.eqb s (last_node path_t) then
    if disjointb path_t path_s then
      (true, snd fo ++ [stitch modus path_s path_t])
    else fo
  else fo.

(** Simple graphs: body of [for s in neighbors(modus, path_s[-1])]. *)
Definition sp_visit_neighbor (modus : bool) (tree_target : list path)
    (nodes_target : list node) (path_s : path) (st : sp_state) (s : node)
    : sp_state :=
  if negb (mem s path_s) then
    let fo := if mem s nodes_target
              then fold_left (sp_meet modus path_s s) tree_target
                             (sp_found st, sp_out st)
              else (sp_found st, sp_out st) in
    {| sp_found := fst fo;
       sp_out := snd fo;
       sp_nodes_source := add_node s (sp_nodes_source st);
       sp_temp_tree := add_path (path_s ++ [s]) (sp_temp_tree st) |}
  else st.

(** Multigraphs: body of [for s in [v for u, v in G.edges([path_s[-1]])]];
    [temp_tree] is a list, there is no [nodes]. *)
Definition sp_visit_neighbor_multi (modus : bool) (tree_target : list path)
    (path_s : path) (st : sp_state) (s : node) : sp_state :=
  if negb (mem s path_s) then
    let fo := fold_left (sp_meet modus path_s s) tree_target
                        (sp_found st, sp_out st) in
    {| sp_found := fst fo;
       sp_out := snd fo;
       sp_nodes_source := sp_nodes_source st;
       sp_temp_tree := sp_temp_tree st ++ [path_s ++ [s]] |}
  else st.

Section ShortestPaths.

Variable neighbors : bool -> node -> list node.
Variables source target : node.

(** Body of [for path_s in tree_source]. *)
Definition sp_visit_path (modus : bool) (tree_target : list path)
    (nodes_target : list node) (st : sp_state) (path_s : path) : sp_state :=
  fold_left (sp_visit_neighbor modus tree_target nodes_target path_s)
            (neighbors modus (last_node path_s)) st.

Definition sp_visit_path_multi (modus : bool) (tree_target : list path)
    (st : sp_state) (path_s : path) : sp_state :=
  fold_left (sp_visit_neighbor_multi modus tree_target path_s)
            (neighbors modus (last_node path_s)) st.

(** One pass through the body of the [while] loop. *)
Definition sp_round (found0 : bool) (tree : list path * list path)
    (nodes : list node * list node) : sp_state :=
  let modus := length (sel tree true) <? length (sel tree false) in
  let tree_source := sel tree modus in
  let tree_target := sel tree (negb modus) in
  let nodes_source := sel nodes modus in
  let nodes_target := sel nodes (negb modus) in
  fold_left (sp_visit_path modus tree_target nodes_target) tree_source
    {| sp_found := found0; sp_out := [];
       sp_nodes_source := nodes_source; sp_temp_tree := [] |}.

Definition sp_round_multi (found0 : bool) (tree : list path * list path)
    : sp_state :=
  let modus := length (sel tree true) <? length (sel tree false) in
  let tree_source := sel tree modus in
  let tree_target := sel tree (negb modus) in
  fold_left (sp_visit_path_multi modus tree_target) tree_source
    {| sp_found := found0; sp_out := [];
       sp_nodes_source := []; sp_temp_tree := [] |}.

(** [while not found and tree[0] and tree[1]: ...] followed by
    [if not found: raise NetworkXNoPath]. *)
Fixpoint sp_loop (fuel : nat) (found0 : bool) (tree : list path * list path)
    (nodes : list node * list node) : generator :=
  match fuel with
  | 0 => {| yielded := []; ending := OutOfFuel |}
  | S fuel' =>
      if negb found0 && truthy (sel tree false) && truthy (sel tree true) then
        let modus := length (sel tree true) <? length (sel tree false) in
        let st := sp_round found0 tree nodes in
        yield_then (sp_out st)
          (sp_loop fuel' (sp_found st) (upd tree modus (sp_temp_tree st))
                   (upd nodes modus (sp_nodes_source st)))
      else if negb found0 then
        {| yielded := []; ending := Raise (NetworkXNoPath source target) |}
      else {| yielded := []; ending := Return tt |}
  end.

Fixpoint sp_loop_multi (fuel : nat) (found0 : bool)
    (tree : list path * list path) : generator :=
  match fuel with
  | 0 => {| yielded := []; ending := OutOfFuel |}
  | S fuel' =>
      if negb found0 && truthy (sel tree false) && truthy (sel tree true) then
        let modus := length (sel tree true) <? length (sel tree false) in
        let st := sp_round_multi found0 tree in
        yield_then (sp_out st)
          (sp_loop_multi fuel' (sp_found st) (upd tree modus (sp_temp_tree st)))
      else if negb found0 then
        {| yielded := []; ending := Raise (NetworkXNoPath source target) |}
      else {| yielded := []; ending := Return tt |}
  end.

End ShortestPaths.

(** Simple graphs: [tree] holds two sets of paths, [nodes] two sets of
    nodes. *)
Definition _bidirectional_all_shortest_paths (fuel : nat) (G : Graph)
    (source target : node) : generator :=
  sp_loop (neighbors_simple G) source target fuel false
          ([[source]], [[target]]) ([source], [target]).

(** Multigraphs: [tree] holds two lists of paths. *)
Definition _bidirectional_all_shortest_paths_multi (fuel : nat) (G : Graph)
    (source target : node) : generator :=
  sp_loop_multi (neighbors_multi G) source target fuel false
                ([[source]], [[target]]).

Definition bidirectional_all_shortest_paths (fuel : nat) (G : Graph)
    (source target : node) : outcome generator :=
  if negb (contains G source) then raise_not_in_graph (VInt source)
  else if negb (contains G target) then raise_not_in_graph (VInt target)
  else if is_multigraph G then
    Return (_bidirectional_all_shortest_paths_multi fuel G source target)
  else Return (_bidirectional_all_shortest_paths fuel G source target).

(* ================================================================= *)
(** ** All-shortest-paths engine, whatever the order of a set *)

(** The simple-graph variant keeps each frontier in a set of tuples. In
    which order [for path_s in tree_source] and [for path_t in tree_target]
    go through such a set is decided by the hashes of its elements, not by
    the code; [sp_loop] above takes the order of insertion. Here [order]
    gives the order of iteration from the set as the model holds it; it
    lists every element once, so the sizes, hence [modus], are those of the
    sets. *)
Section ShortestPathsInOrder.

Variable order : list path -> list path.
Variable neighbors : bool -> node -> list node.
Variables source target : node.

Fixpoint sp_loop_in_order (fuel : nat) (found0 : bool)
    (tree : list path * list path) (nodes : list node * list node)
    : generator :=
  match fuel with
  | 0 => {| yielded := []; ending := OutOfFuel |}
  | S fuel' =>
      if negb found0 && truthy (sel tree false) && truthy (sel tree true) then
        let modus := length (sel tree true) <? length (sel tree false) in
        let st := sp_round neighbors found0
                           (order (fst tree), order (snd tree)) nodes in
        yield_then (sp_out st)
          (sp_loop_in_order fuel' (sp_found st)
             (upd tree modus (sp_temp_tree st))
             (upd nodes modus (sp_nodes_source st)))
      else if negb found0 then
        {| yielded := []; ending := Raise (NetworkXNoPath source target) |}
      else {| yielded := []; ending := Return tt |}
  end.

End ShortestPathsInOrder.





(* ================================================================= *)
(** ** Calls with arbitrary arguments *)

(** [v in G]: the nodes of a graph are integers here, no tuple is among
    them. *)
Definition value_in (G : Graph) (v : value) : bool :=
  match v with
  | VInt n => contains G n
  | VTuple _ => false
  end.

(** A public function called with arbitrary values. Each of the three
    functions starts with
    [if source not in G: raise nx.NetworkXError('source node %s not in graph' % source)]
    and the same for [target]. Values that pass both tests are integers, and
    [run] is the function on integers as modelled above (the last branch is
    not reached). *)
Definition with_arguments {A} (G : Graph) (run : node -> node -> outcome A)
    (source target : value) : outcome A :=
  if negb (value_in G source) then raise_not_in_graph source
  else if negb (value_in G target) then raise_not_in_graph target
  else match source, target with
       | VInt s, VInt t => run s t
       | _, _ => Raise TypeError
       end.

(* ================================================================= *)
(** ** Concrete graphs *)

(** Graphs given by a node list and an edge list, in the four kinds of the
    library; they serve the examples below. The adjacency of a simple graph
    keeps one entry per neighbour, a multigraph reports one pair per parallel
    edge; a directed multigraph reports its outgoing edges. *)
Definition out_of (es : list (node * node)) (u : node) : list node :=
  map snd (filter (fun e => Nat.eqb (fst e) u) es).

Definition in_of (es : list (node * node)) (v : node) : list node :=
  map fst (filter (fun e => Nat.eqb (snd e) v) es).

Definition both_of (es : list (node * node)) (u : node) : list node :=
  flat_map (fun e =>
    (if Nat.eqb (fst e) u then [snd e] else []) ++
    (if Nat.eqb (snd e) u && negb (Nat.eqb (fst e) u) then [fst e] else []))
    es.

Definition simple_graph (ns : list node) (es : list (node * node)) : Graph :=
  let adj := fun u => nodup Nat.eq_dec (both_of es u) in
  mkGraph ns false false adj adj adj (fun u => map (pair u) (adj u)).

Definition di_graph (ns : list node) (es : list (node * node)) : Graph :=
  let succ := fun u => nodup Nat.eq_dec (out_of es u) in
  let pred := fun u => nodup Nat.eq_dec (in_of es u) in
  mkGraph ns true false succ succ pred (fun u => map (pair u) (succ u)).

Definition multi_graph (ns : list node) (es : list (node * node)) : Graph :=
  let adj := fun u => nodup Nat.eq_dec (both_of es u) in
  mkGraph ns false true adj adj adj (fun u => map (pair u) (both_of es u)).

Definition multi_di_graph (ns : list node) (es : list (node * node)) : Graph :=
  let succ := fun u => nodup Nat.eq_dec (out_of es u) in
  let pred := fun u => nodup Nat.eq_dec (in_of es u) in
  mkGraph ns true true succ succ pred (fun u => map (pair u) (out_of es u)).

(** Every edge joins two listed nodes. *)
Definition endpoints_in (ns : list node) (es : list (node * node)) : Prop :=
  forall u v, In (u, v) es -> In u ns /\ In v ns.

(** The complete graph on four nodes of the docstrings. *)
Definition K4 : Graph :=
  simple_graph [0; 1; 2; 3] [(0,1); (0,2); (0,3); (1,2); (1,3); (2,3)].

(** The same nodes and edges as a multigraph without parallel edges. *)
Definition K4_multi : Graph :=
  multi_graph [0; 1; 2; 3] [(0,1); (0,2); (0,3); (1,2); (1,3); (2,3)].

(** Two nodes joined by one edge. *)
Definition line2 : Graph := simple_graph [0; 1] [(0,1)].

(** Two nodes joined by two parallel edges. *)
Definition double_edge : Graph := multi_graph [0; 1] [(0,1); (0,1)].

(** Edges 0->2, 0->3 and 1->2: node 1 cannot be reached from node 0. The
    same nodes and edges as a directed multigraph and as a directed simple
    graph. *)
Definition fork_edges : list (node * node) := [(0,2); (0,3); (1,2)].
Definition multi_fork : Graph := multi_di_graph [0; 1; 2; 3] fork_edges.

(** A directed multigraph in which node 1 is reached from node 0 along
    0->3, 3->4, 4->1 only, and 0->2, 1->2 meet at node 2. *)
Definition multi_detour : Graph :=
  multi_di_graph [0; 1; 2; 3; 4] [(0,2); (1,2); (0,3); (3,4); (4,1)].


(** Node 0 on its own next to the edge between 1 and 2. *)
Definition lonely_and_edge : Graph := simple_graph [0; 1; 2] [(1,2)].

(** A triangle 0, 1, 2 and, apart from it, a star centred at 9. *)
Definition triangle_and_star : Graph :=
  simple_graph [0; 1; 2; 5; 6; 7; 9]
               [(0,1); (0,2); (1,2); (9,5); (9,6); (9,7)].

(* ================================================================= *)
(** ** Reference notions *)

(** The graph kind selects the variant of each engine, hence the resolver. *)
Definition neighbors_of (G : Graph) : bool -> node -> list node :=
  if is_multigraph G then neighbors_multi G else neighbors_simple G.

(** [edge G u v]: the graph has an edge from [u] to [v]. *)
Definition edge (G : Graph) (u v : node) : Prop :=
  In v (neighbors_of G false u).

(** Consecutive elements of [p] are related by [R]. *)
Fixpoint chain (R : node -> node -> Prop) (p : path) : Prop :=
  match p with
  | [] => True
  | x :: q =>
      match q with
      | [] => True
      | y :: _ => R x y /\ chain R q
      end
  end.

(** [p] is a path of [G] from [s] to [t]; its length in edges is
    [length p - 1], the one-node sequence [[s]] is the path of length 0. *)
Definition is_path (G : Graph) (s t : node) (p : path) : Prop :=
  hd_error p = Some s /\ last_node p = t /\ chain (edge G) p.

Definition reachable (G : Graph) (s t : node) : Prop :=
  exists p, is_path G s t p.

Definition simple_path (G : Graph) (s t : node) (p : path) : Prop :=
  is_path G s t p /\ NoDup p.

Definition shortest_path (G : Graph) (s t : node) (p : path) : Prop :=
  is_path G s t p /\ forall q, is_path G s t q -> length p <= length q.

(** What the searches may assume of a graph: its nodes are listed once,
    every reported neighbour is a node, a simple graph reports each neighbour
    once, and, except in a directed multigraph, the resolver used on the
    target side ([modus] true) walks the edges backwards. For a directed
    multigraph nothing of the kind is asked: its resolver ignores [modus]. *)
Record wf_graph (G : Graph) : Prop := mkWf {
  wf_nodup : NoDup (node_list G);
  wf_closed : forall modus u v,
      In v (neighbors_of G modus u) -> In v (node_list G);
  wf_keys : is_multigraph G = false ->
      forall modus u, NoDup (neighbors_of G modus u);
  wf_backward : is_multigraph G && is_directed G = false ->
      forall u v, In u (neighbors_of G true v) <-> In v (neighbors_of G false u)
}.

Arguments wf_nodup {G} _.
Arguments wf_closed {G} _.
Arguments wf_keys {G} _.
Arguments wf_backward {G} _.

(** A multigraph [Gm] whose parallel edges are collapsed, next to the simple
    graph [Gs] with the same nodes and edges. *)
Record collapsed (Gm Gs : Graph) : Prop := mkCollapsed {
  col_multi : is_multigraph Gm = true;
  col_simple : is_multigraph Gs = false;
  col_directed : is_directed Gm = is_directed Gs;
  col_nodes : node_list Gm = node_list Gs;
  col_edges : forall u, map snd (edges Gm u) = neighbors_simple Gs false u
}.

Arguments col_multi {Gm Gs} _.
Arguments col_simple {Gm Gs} _.
Arguments col_directed {Gm Gs} _.
Arguments col_nodes {Gm Gs} _.
Arguments col_edges {Gm Gs} _.

(** Fuel that lets the [while] loops of the reachability and shortest-path
    engines run to their end on a graph with [len G] nodes. *)
Definition enough_fuel (G : Graph) (fuel : nat) : Prop := 2 * len G + 2 <= fuel.

(** Paths sorted by non-decreasing length. *)
Fixpoint by_length (ps : list path) : Prop :=
  match ps with
  | [] => True
  | p :: qs => (forall q, In q qs -> length p <= length q) /\ by_length qs
  end.

(* ================================================================= *)
(** ** Notions used by the proofs *)

(** The paths held by a dictionary. *)
Definition In_dict (p : path) (d : dict) : Prop :=
  exists k ps, In (k, ps) d /\ In p ps.

(** Keys are distinct and every path is filed under its last node. *)
Definition wf_dict (d : dict) : Prop :=
  NoDup (map fst d) /\
  forall k ps p, In (k, ps) d -> In p ps -> last_node p = k.

(** One step along a neighbor resolver. *)
Definition steps (nbrs : node -> list node) (u v : node) : Prop :=
  In v (nbrs u).

(** Self-avoiding walks of [d] steps from [anchor] along [nbrs]: what a side
    of the path-retaining engines holds after [d] expansions. *)
Definition swalk (nbrs : node -> list node) (anchor : node) (d : nat)
    (p : path) : Prop :=
  hd_error p = Some anchor /\ chain (steps nbrs) p /\ NoDup p /\
  length p = S d.

Section MeetingNotions.

Variable neighbors : bool -> node -> list node.
Variables source target : node.

(** The node a side starts from: side 0 (false) is the source side. *)
Definition anchor (side : bool) : node := if side then target else source.

(** A meeting found while side [modus] is extended, the source side being
    [d0] steps deep and the target side [d1]: a partial path of the extended
    side, a neighbour [s] of its leaf outside it, and a partial path of the
    other side that ends in [s] and shares no node with the first. *)
Definition meeting (modus : bool) (d0 d1 : nat) (q : path) : Prop :=
  exists path_s s path_t,
    swalk (neighbors modus) (anchor modus) (sel (d0, d1) modus) path_s /\
    In s (neighbors modus (last_node path_s)) /\
    ~ In s path_s /\
    swalk (neighbors (negb modus)) (anchor (negb modus))
          (sel (d0, d1) (negb modus)) path_t /\
    last_node path_t = s /\
    (forall x, In x path_t -> ~ In x path_s) /\
    q = stitch modus path_s path_t.

(** A sequence of [L + 1] distinct nodes from [source] to [target]. *)
Definition shape (L : nat) (q : path) : Prop :=
  hd_error q = Some source /\ last_node q = target /\ NoDup q /\
  length q = S L.

(** A simple path of [L] edges along the source-side resolver. *)
Definition spath (L : nat) (q : path) : Prop :=
  shape L q /\ chain (steps (neighbors false)) q.

End MeetingNotions.

(** The paths yielded for one neighbour [s] and one partial path [path_s]
    of the all-simple-paths engine, as a comprehension. *)
Definition joined (modus : bool) (tree_target : dict) (s : node)
    (path_s : path) : list path :=
  if negb (mem s path_s) then
    match dict_get s tree_target with
    | Some paths_t =>
        flat_map (fun path_t =>
                    if disjointb path_t path_s
                    then [stitch modus path_s path_t] else []) paths_t
    | None => []
    end
  else [].

(** Invariant of the all-simple-paths engine: each side holds, filed by
    leaf, exactly the self-avoiding walks of its depth. *)
Definition tree_inv (neighbors : bool -> node -> list node)
    (source target : node) (tree : dict * dict) (d0 d1 : nat) : Prop :=
  forall side,
    wf_dict (sel tree side) /\
    forall p, In_dict p (sel tree side) <->
              swalk (neighbors side) (anchor source target side)
                    (sel (d0, d1) side) p.

(** The paths yielded for one partial path [path_s] and one neighbour [s]
    of the all-shortest-paths engine, as a comprehension. *)
Definition sp_joined (modus : bool) (tree_target : list path) (path_s : path)
    (s : node) : list path :=
  flat_map (fun path_t =>
              if Nat.eqb s (last_node path_t) then
                if disjointb path_t path_s
                then [stitch modus path_s path_t] else []
              else []) tree_target.

(** Invariant of the all-shortest-paths engine: each side holds exactly the
    self-avoiding walks of its depth. *)
Definition sp_inv (neighbors : bool -> node -> list node)
    (source target : node) (tree : list path * list path) (d0 d1 : nat)
    : Prop :=
  forall side p,
    In p (sel tree side) <->
    swalk (neighbors side) (anchor source target side) (sel (d0, d1) side) p.

(** Every leaf of a side has been recorded in the side's [nodes]. *)
Definition leaves_seen (tree : list path * list path)
    (nodes : list node * list node) : Prop :=
  forall side p, In p (sel tree side) -> In (last_node p) (sel nodes side).

(** What the all-shortest-paths loop produces when the sides are [D] steps
    deep together and no meeting has been found: the paths of the first
    non-empty level of [Spec] above [D], or NetworkXNoPath when every level
    is empty. *)
Definition sp_result (source target : node) (Spec : nat -> path -> Prop)
    (D : nat) (g : generator) : Prop :=
  (exists L, D < L /\
     (forall L' q, D < L' -> L' < L -> ~ Spec L' q) /\
     (forall q, In q (yielded g) <-> Spec L q) /\
     yielded g <> [] /\ ending g = Return tt)
  \/
  ((forall L' q, D < L' -> ~ Spec L' q) /\
   yielded g = [] /\ ending g = Raise (NetworkXNoPath source target)).

(** What the two variants yield for [path_s] and [s]: the simple-graph
    variant looks for a meeting only when [s] is in [nodes_target]. *)
Definition sp_emit (modus : bool) (tree_target : list path)
    (nodes_target : list node) (path_s : path) (s : node) : list path :=
  if negb (mem s path_s) then
    if mem s nodes_target then sp_joined modus tree_target path_s s else []
  else [].

Definition sp_emit_multi (modus : bool) (tree_target : list path)
    (path_s : path) (s : node) : list path :=
  if negb (mem s path_s) then sp_joined modus tree_target path_s s else [].

(** A walk along a resolver from [a] to [x], of any length. *)
Definition walk_to (nbrs : node -> list node) (a x : node) : Prop :=
  exists p, hd_error p = Some a /\ last_node p = x /\ chain (steps nbrs) p.

(** Invariant of the reachability engine. Each side's [nodes] holds its
    leaves, consists of nodes of the graph reached from the side's anchor,
    and is closed under the side's resolver except at the leaves; the two
    sides have met nowhere. *)
Record hp_inv (neighbors : bool -> node -> list node) (source target : node)
    (V : list node) (leaves nodes : list node * list node) : Prop := mkHpInv {
  hp_leaves : forall side, incl (sel leaves side) (sel nodes side);
  hp_nodes : forall side, incl (sel nodes side) V;
  hp_nodup : forall side, NoDup (sel nodes side);
  hp_conn : forall side x, In x (sel nodes side) ->
      walk_to (neighbors side) (anchor source target side) x;
  hp_disj : forall x, In x (sel nodes false) -> ~ In x (sel nodes true);
  hp_closed : forall side x y,
      In x (sel nodes side) -> ~ In x (sel leaves side) ->
      In y (neighbors side x) -> In y (sel nodes side);
  hp_anchor : forall side, In (anchor source target side) (sel nodes side)
}.

Arguments hp_leaves {neighbors source target V leaves nodes} _.
Arguments hp_nodes {neighbors source target V leaves nodes} _.
Arguments hp_nodup {neighbors source target V leaves nodes} _.
Arguments hp_conn {neighbors source target V leaves nodes} _.
Arguments hp_disj {neighbors source target V leaves nodes} _.
Arguments hp_closed {neighbors source target V leaves nodes} _.
Arguments hp_anchor {neighbors source target V leaves nodes} _.

(** The trees and the seen sets of the all-shortest-paths engine (simple
    graphs) after [k] rounds in which no meeting was found. *)
Fixpoint sp_after (neighbors : bool -> node -> list node) (k : nat)
    (tree : list path * list path) (nodes : list node * list node)
    : (list path * list path) * (list node * list node) :=
  match k with
  | 0 => (tree, nodes)
  | S k' =>
      let modus := length (sel tree true) <? length (sel tree false) in
      let st := sp_round neighbors false tree nodes in
      sp_after neighbors k' (upd tree modus (sp_temp_tree st))
               (upd nodes modus (sp_nodes_source st))
  end.

Fixpoint sp_after_multi (neighbors : bool -> node -> list node) (k : nat)
    (tree : list path * list path) : list path * list path :=
  match k with
  | 0 => tree
  | S k' =>
      let modus := length (sel tree true) <? length (sel tree false) in
      let st := sp_round_multi neighbors false tree in
      sp_after_multi neighbors k' (upd tree modus (sp_temp_tree st))
  end.

(** The two frontiers of [bidirectional_all_shortest_paths] after [k] rounds
    without a meeting. *)
Definition frontiers_after (G : Graph) (source target : node) (k : nat)
    : list path * list path :=
  if is_multigraph G then
    sp_after_multi (neighbors_multi G) k ([[source]], [[target]])
  else
    fst (sp_after (neighbors_simple G) k ([[source]], [[target]])
                  ([source], [target])).

(** The paths yielded in round [k] of [bidirectional_all_shortest_paths],
    rounds counted from 0, when no round before it found a meeting. *)
Definition round_yields (G : Graph) (source target : node) (k : nat)
    : list path :=
  if is_multigraph G then
    sp_out (sp_round_multi (neighbors_multi G) false
              (sp_after_multi (neighbors_multi G) k ([[source]], [[target]])))
  else
    let state := sp_after (neighbors_simple G) k ([[source]], [[target]])
                          ([source], [target]) in
    sp_out (sp_round (neighbors_simple G) false (fst state) (snd state)).

(** One pass through the body of the [while] loop of the reachability
    engine, from the frontiers and the seen sets it starts with to those it
    leaves; [None] when the loop does not make the pass
    ([leaves[0] and leaves[1]] fails) or returns [True] in it. *)
Definition hp_next (neighbors : bool -> node -> list node)
    (state : (list node * list node) * (list node * list node))
    : option ((list node * list node) * (list node * list node)) :=
  let leaves := fst state in
  let nodes := snd state in
  if truthy (sel leaves false) && truthy (sel leaves true) then
    let modus := length (sel leaves true) <? length (sel leaves false) in
    match scan_leaves neighbors modus (sel nodes modus)
                      (sel leaves (negb modus)) (sel leaves modus) [] with
    | None => None
    | Some temp =>
        Some (upd leaves modus temp,
              upd nodes modus (update (sel nodes modus) temp))
    end
  else None.

(** The frontiers and the seen sets of the reachability engine after [k]
    passes; [None] when the loop has returned before. *)
Fixpoint hp_after (neighbors : bool -> node -> list node) (k : nat)
    (state : (list node * list node) * (list node * list node))
    : option ((list node * list node) * (list node * list node)) :=
  match k with
  | 0 => Some state
  | S k' =>
      match hp_next neighbors state with
      | None => None
      | Some state' => hp_after neighbors k' state'
      end
  end.

(** Tactics for the side conditions of concrete graphs: a list without
    repetition, and edges between listed nodes. *)
Ltac nodup_tac := repeat constructor; simpl; intuition discriminate.

Ltac endpoints_tac :=
  let u := fresh "u" in let v := fresh "v" in let H := fresh "H" in
  intros u v H; simpl in H;
  repeat (destruct H as [H|H];
          [injection H as <- <-; split; simpl; intuition|]);
  destruct H.

(** The two trees of the all-simple-paths engine after [k] passes through
    the body of its [for] loop. *)
Fixpoint simple_after (neighbors : bool -> node -> list node) (k : nat)
    (tree : dict * dict) : dict * dict :=
  match k with
  | 0 => tree
  | S k' => simple_after neighbors k' (snd (simple_round neighbors tree))
  end.

(** No set of paths of the dictionary holds a path twice. *)
Definition sets_nodup (d : dict) : Prop :=
  forall k ps, In (k, ps) d -> NoDup ps.

(** What the reachability engine keeps on every graph, whatever its kind:
    each side's [nodes] holds its leaves and consists, without repetition,
    of nodes of the graph that a walk along the side's resolver reaches from
    the side's anchor. *)
Record hp_weak (neighbors : bool -> node -> list node) (source target : node)
    (V : list node) (leaves nodes : list node * list node) : Prop := mkHpWeak {
  hw_leaves : forall side, incl (sel leaves side) (sel nodes side);
  hw_nodes : forall side, incl (sel nodes side) V;
  hw_nodup : forall side, NoDup (sel nodes side);
  hw_conn : forall side x, In x (sel nodes side) ->
      walk_to (neighbors side) (anchor source target side) x
}.

Arguments hw_leaves {neighbors source target V leaves nodes} _.
Arguments hw_nodes {neighbors source target V leaves nodes} _.
Arguments hw_nodup {neighbors source target V leaves nodes} _.
Arguments hw_conn {neighbors source target V leaves nodes} _.

(* ================================================================= *)
(** * Properties *)

(** ** Sets and two-slot lists *)

Lemma mem_In (x : node) (l : list node) : mem x l = true <-> In x l.
Proof.
  unfold mem; split; intro H.
  - now apply set_mem_correct1 in H.
  - now apply set_mem_correct2.
Qed.

Lemma mem_not_In (x : node) (l : list node) : mem x l = false <-> ~ In x l.
Proof.
  rewrite <- mem_In. destruct (mem x l); split; congruence.
Qed.

Lemma add_node_In (x y : node) (l : list node) :
  In y (add_node x l) <-> y = x \/ In y l.
Proof. unfold add_node. apply set_add_iff. Qed.

Lemma add_path_In (p q : path) (l : list path) :
  In q (add_path p l) <-> q = p \/ In q l.
Proof. unfold add_path. apply set_add_iff. Qed.

Lemma add_path_NoDup (p : path) (l : list path) :
  NoDup l -> NoDup (add_path p l).
Proof. unfold add_path. apply set_add_nodup. Qed.

Lemma add_path_fresh (p : path) (l : list path) :
  ~ In p l -> add_path p l = l ++ [p].
Proof.
  unfold add_path. induction l as [|a l IH]; simpl; intro H; [reflexivity|].
  destruct (path_eq_dec p a) as [->|_]; [tauto|].
  rewrite IH; tauto.
Qed.

Lemma update_In (x : node) (s t : list node) :
  In x (update s t) <-> In x s \/ In x t.
Proof. unfold update. apply set_union_iff. Qed.

Lemma update_NoDup (s t : list node) :
  NoDup s -> NoDup t -> NoDup (update s t).
Proof. unfold update. apply set_union_nodup. Qed.

Lemma truthy_false {A} (l : list A) : truthy l = false <-> l = [].
Proof. destruct l; simpl; split; congruence. Qed.

Lemma disjointb_true (path_t path_s : path) :
  disjointb path_t path_s = true <->
  (forall x, In x path_t -> ~ In x path_s).
Proof.
  unfold disjointb. rewrite negb_true_iff. split.
  - intros H x Hx Hs.
    assert (E : existsb (fun y => mem y path_s) path_t = true)
      by (apply existsb_exists; exists x; split; [assumption | now apply mem_In]).
    congruence.
  - intro H. destruct (existsb _ path_t) eqn:E; [|reflexivity].
    apply existsb_exists in E. destruct E as [x [Hx Hm]].
    apply mem_In in Hm. elim (H x Hx Hm).
Qed.

Lemma sel_upd_same {A} (two : A * A) (m : bool) (x : A) :
  sel (upd two m x) m = x.
Proof. destruct m; reflexivity. Qed.

Lemma sel_upd_other {A} (two : A * A) (m : bool) (x : A) :
  sel (upd two m x) (negb m) = sel two (negb m).
Proof. destruct m; reflexivity. Qed.

(** ** Loops as folds *)

Section Folds.

Context {S X : Type} (body : S -> X -> S).

Lemma fold_left_preserve (I : S -> Prop) (l : list X) :
  (forall st x, In x l -> I st -> I (body st x)) ->
  forall st, I st -> I (fold_left body l st).
Proof.
  induction l as [|x l IH]; simpl; intros Hb st Hst; [assumption|].
  apply IH; [intros; apply Hb; auto | apply Hb; auto].
Qed.

(** A loop that only appends to its output. *)
Lemma fold_left_out {A} (o : S -> list A) (f : X -> list A) :
  (forall st x, o (body st x) = o st ++ f x) ->
  forall l st, o (fold_left body l st) = o st ++ flat_map f l.
Proof.
  intros Hb l. induction l as [|x l IH]; simpl; intro st.
  - now rewrite app_nil_r.
  - rewrite IH, Hb, <- app_assoc. reflexivity.
Qed.

(** A loop that only adds to a collection. *)
Lemma fold_left_mem {A} (proj : S -> A -> Prop) (Q : X -> A -> Prop)
    (l : list X) :
  (forall st x a, In x l -> (proj (body st x) a <-> proj st a \/ Q x a)) ->
  forall st a,
    proj (fold_left body l st) a <-> proj st a \/ exists x, In x l /\ Q x a.
Proof.
  induction l as [|x l IH]; simpl; intros Hb st a.
  - split; [tauto | intros [H|[x [[] _]]]; assumption].
  - rewrite IH by (intros; apply Hb; auto).
    rewrite Hb by auto. split.
    + intros [[H|H]|[y [Hy HQ]]]; eauto.
    + intros [H|[y [[<-|Hy] HQ]]]; eauto.
Qed.

End Folds.

(** ** Dictionaries *)

Lemma dict_get_In (k : node) (d : dict) (ps : list path) :
  dict_get k d = Some ps -> In (k, ps) d.
Proof.
  induction d as [|[k' qs] d IH]; simpl; [discriminate|].
  destruct (Nat.eqb_spec k k') as [->|Hk].
  - intros [= ->]. now left.
  - intro H. right. auto.
Qed.

Lemma In_dict_get (p : path) (d : dict) :
  wf_dict d -> In_dict p d ->
  exists ps, dict_get (last_node p) d = Some ps /\ In p ps.
Proof.
  intros [Hnd Hlast] [k [ps [Hin Hp]]].
  assert (Hk := Hlast _ _ _ Hin Hp). subst k.
  exists ps. split; [|assumption].
  clear Hlast Hp. induction d as [|[k' qs] d IH]; simpl in *; [tauto|].
  inversion Hnd as [|? ? Hnotin Hnd']; subst.
  destruct Hin as [[= -> ->]|Hin].
  - now rewrite Nat.eqb_refl.
  - destruct (Nat.eqb_spec (last_node p) k') as [E|_]; [|auto].
    elim Hnotin. rewrite <- E.
    change (last_node p) with (fst (last_node p, ps)). now apply in_map.
Qed.

Lemma dict_add_keys (k : node) (p : path) (d : dict) (x : node) :
  In x (map fst (dict_add k p d)) <-> x = k \/ In x (map fst d).
Proof.
  induction d as [|[k' qs] d IH]; simpl.
  - intuition.
  - destruct (Nat.eqb_spec k k') as [->|Hk]; simpl.
    + intuition.
    + rewrite IH. intuition.
Qed.

Lemma In_dict_add (k : node) (p q : path) (d : dict) :
  In_dict q (dict_add k p d) <-> In_dict q d \/ q = p.
Proof.
  unfold In_dict. induction d as [|[k' qs] d IH]; simpl.
  - split.
    + intros [k0 [ps [[[= <- <-]|[]] [->|[]]]]]. now right.
    + intros [[k0 [ps [[] _]]]| ->]. exists k, [p]. simpl. auto.
  - destruct (Nat.eqb_spec k k') as [->|Hk]; simpl.
    + split.
      * intros [k0 [ps [[[= <- <-]|Hin] Hq]]].
        -- apply add_path_In in Hq. destruct Hq as [->|Hq]; [now right|].
           left. exists k', qs. auto.
        -- left. exists k0, ps. auto.
      * intros [[k0 [ps [[[= <- <-]|Hin] Hq]]]| ->].
        -- exists k', (add_path p qs). split; [now left|].
           apply add_path_In. now right.
        -- exists k0, ps. auto.
        -- exists k', (add_path p qs). split; [now left|].
           apply add_path_In. now left.
    + split.
      * intros [k0 [ps [[[= <- <-]|Hin] Hq]]].
        -- left. exists k', qs. auto.
        -- assert (H : (exists k1 ps1, In (k1, ps1) (dict_add k p d) /\ In q ps1))
             by (exists k0, ps; auto).
           apply IH in H. destruct H as [[k1 [ps1 [H1 H2]]]| ->]; [|now right].
           left. exists k1, ps1. auto.
      * intros H.
        assert (H' : (exists k1 ps1, In (k1, ps1) d /\ In q ps1) \/ q = p
                     \/ In q qs).
        { destruct H as [[k0 [ps [[[= <- <-]|Hin] Hq]]]| ->]; eauto. }
        destruct H' as [H'|[H'|H']].
        -- assert (H2 : exists k1 ps1, In (k1, ps1) (dict_add k p d) /\ In q ps1)
             by (apply IH; now left).
           destruct H2 as [k1 [ps1 [H1 H2]]]. exists k1, ps1. auto.
        -- assert (H2 : exists k1 ps1, In (k1, ps1) (dict_add k p d) /\ In q ps1)
             by (apply IH; now right).
           destruct H2 as [k1 [ps1 [H1 H2]]]. exists k1, ps1. auto.
        -- exists k', qs. auto.
Qed.

Lemma wf_dict_add (k : node) (p : path) (d : dict) :
  last_node p = k -> wf_dict d -> wf_dict (dict_add k p d).
Proof.
  intros Hp [Hnd Hlast]. split.
  - clear Hlast Hp. induction d as [|[k' qs] d IH]; simpl in *.
    + constructor; [tauto | constructor].
    + inversion Hnd as [|? ? Hnotin Hnd' [E1 E2]].
      destruct (Nat.eqb_spec k k') as [E|Hk]; simpl.
      * now constructor.
      * constructor; [|auto].
        rewrite dict_add_keys. intros [E|H]; [congruence | tauto].
  - clear Hnd. induction d as [|[k' qs] d IH]; simpl in *.
    + intros k0 ps q [[= <- <-]|[]] [E|[]]. congruence.
    + destruct (Nat.eqb_spec k k') as [E|Hk]; simpl.
      * intros k0 ps q [[= <- <-]|Hin] Hq.
        -- apply add_path_In in Hq. destruct Hq as [E'|Hq]; [congruence|].
           eapply Hlast; [left; reflexivity | eassumption].
        -- eapply Hlast; [right; eassumption | eassumption].
      * intros k0 ps q [[= <- <-]|Hin] Hq.
        -- eapply Hlast; [left; reflexivity | eassumption].
        -- eapply IH; [|eassumption|eassumption].
           intros. eapply Hlast; [right; eassumption | eassumption].
Qed.

(** ** Ends of a path *)

Lemma last_node_snoc (p : path) (s : node) : last_node (p ++ [s]) = s.
Proof. unfold last_node. apply last_last. Qed.

Lemma last_node_app (p q : path) :
  q <> [] -> last_node (p ++ q) = last_node q.
Proof.
  intro Hq. induction p as [|x p IH]; [reflexivity|].
  simpl app. unfold last_node in *. simpl.
  destruct (p ++ q) eqn:E; [|assumption].
  apply app_eq_nil in E. tauto.
Qed.

Lemma last_node_rev (p : path) : last_node (rev p) = hd 0 p.
Proof. destruct p; simpl; [reflexivity | apply last_node_snoc]. Qed.

Lemma hd_rev (p : path) : hd 0 (rev p) = last_node p.
Proof. rewrite <- (rev_involutive p) at 2. now rewrite last_node_rev. Qed.

Lemma hd_error_app (p q : path) :
  p <> [] -> hd_error (p ++ q) = hd_error p.
Proof. destruct p; [congruence | reflexivity]. Qed.

Lemma hd_error_hd (p : path) (a : node) : hd_error p = Some a -> hd 0 p = a.
Proof. destruct p; simpl; congruence. Qed.

Lemma hd_error_nonempty (p : path) (a : node) : hd_error p = Some a -> p <> [].
Proof. destruct p; simpl; congruence. Qed.

Lemma hd_error_rev (p : path) :
  p <> [] -> hd_error (rev p) = Some (last_node p).
Proof.
  intro Hp. rewrite <- hd_rev.
  destruct (rev p) eqn:E; [|reflexivity].
  apply (f_equal (@rev node)) in E. rewrite rev_involutive in E. simpl in E.
  congruence.
Qed.

Lemma length_nonempty {A} (l : list A) (n : nat) : length l = S n -> l <> [].
Proof. destruct l; simpl; congruence. Qed.

Lemma snoc_inj (p q : path) (s t : node) :
  p ++ [s] = q ++ [t] -> p = q /\ s = t.
Proof. intro H. apply app_inj_tail in H. assumption. Qed.

Lemma NoDup_append {A} (l1 l2 : list A) :
  NoDup (l1 ++ l2) <->
  NoDup l1 /\ NoDup l2 /\ (forall a, In a l1 -> ~ In a l2).
Proof.
  induction l1 as [|x l1 IH]; simpl.
  - split; [intro H; repeat split; [constructor | assumption | tauto] | tauto].
  - split.
    + intro H. inversion H as [|? ? Hx Hnd]; subst.
      apply IH in Hnd. destruct Hnd as [H1 [H2 H3]].
      rewrite in_app_iff in Hx.
      repeat split; [constructor; tauto | assumption |].
      intros a [<-|Ha]; [tauto | auto].
    + intros [H1 [H2 H3]]. inversion H1 as [|? ? Hx Hnd]; subst.
      constructor.
      * rewrite in_app_iff. intros [H|H]; [tauto | eapply H3; eauto].
      * apply IH. repeat split; auto.
Qed.

(** ** Chains *)

Section Chains.

Variable R : node -> node -> Prop.

Lemma chain_cons2 (x y : node) (p : path) :
  chain R (x :: y :: p) <-> R x y /\ chain R (y :: p).
Proof. reflexivity. Qed.

Lemma chain_app (p q : path) :
  p <> [] -> q <> [] ->
  (chain R (p ++ q) <-> chain R p /\ R (last_node p) (hd 0 q) /\ chain R q).
Proof.
  intros Hp Hq. induction p as [|x p IH]; [congruence|]. clear Hp.
  destruct p as [|y p].
  - destruct q as [|z q]; [congruence|].
    change ([x] ++ z :: q) with (x :: z :: q).
    rewrite chain_cons2. simpl. tauto.
  - change ((x :: y :: p) ++ q) with (x :: y :: (p ++ q)).
    rewrite !chain_cons2.
    change (y :: p ++ q) with ((y :: p) ++ q).
    rewrite IH by congruence.
    change (last_node (x :: y :: p)) with (last_node (y :: p)). tauto.
Qed.

Lemma chain_snoc (p : path) (s : node) :
  p <> [] -> (chain R (p ++ [s]) <-> chain R p /\ R (last_node p) s).
Proof.
  intro Hp. rewrite chain_app by congruence. simpl. tauto.
Qed.

Lemma chain_app_r (p q : path) : chain R (p ++ q) -> chain R q.
Proof.
  destruct p as [|x p]; [trivial|].
  destruct q as [|y q]; [intros; exact I|].
  intro H. apply chain_app in H; [tauto | congruence | congruence].
Qed.

Lemma chain_In (x : node) (p : path) (P : node -> Prop) :
  (forall u v, R u v -> P v) -> P x -> chain R (x :: p) ->
  forall y, In y (x :: p) -> P y.
Proof.
  intros HR. revert x. induction p as [|z p IH]; intros x Hx Hc y Hy.
  - destruct Hy as [<-|[]]. assumption.
  - destruct Hy as [<-|Hy]; [assumption|].
    apply chain_cons2 in Hc. destruct Hc as [Hxz Hc].
    apply (IH z); eauto.
Qed.

End Chains.

Lemma chain_impl (R R' : node -> node -> Prop) (p : path) :
  (forall u v, R u v -> R' u v) -> chain R p -> chain R' p.
Proof.
  intro H. induction p as [|x p IH]; [trivial|].
  destruct p as [|y p]; [trivial|].
  rewrite !chain_cons2. intros [H1 H2]. split; auto.
Qed.

Lemma chain_rev (R : node -> node -> Prop) (p : path) :
  chain R (rev p) <-> chain (fun u v => R v u) p.
Proof.
  induction p as [|x p IH]; [reflexivity|].
  destruct p as [|y p]; [reflexivity|].
  rewrite chain_cons2, <- IH.
  change (rev (x :: y :: p)) with (rev (y :: p) ++ [x]).
  assert (Hne : rev (y :: p) <> []).
  { simpl. intro E. apply app_eq_nil in E. destruct E; discriminate. }
  rewrite chain_snoc by assumption.
  rewrite last_node_rev. simpl hd. tauto.
Qed.

(** ** Self-avoiding walks *)

Section Swalk.

Variable nbrs : node -> list node.
Variable anchor : node.

Lemma swalk_init (p : path) : swalk nbrs anchor 0 p <-> p = [anchor].
Proof.
  split.
  - intros [Hh [_ [_ Hl]]].
    destruct p as [|x [|y p]]; simpl in *; try discriminate. congruence.
  - intros ->. repeat split; simpl; auto. constructor; [tauto | constructor].
Qed.

Lemma swalk_extend (d : nat) (q : path) :
  swalk nbrs anchor (S d) q <->
  exists p s, swalk nbrs anchor d p /\ In s (nbrs (last_node p)) /\
              ~ In s p /\ q = p ++ [s].
Proof.
  split.
  - intros [Hh [Hc [Hnd Hl]]].
    assert (Hq : q <> []) by (eapply length_nonempty; eassumption).
    destruct (exists_last Hq) as [p [s ->]].
    rewrite length_app in Hl. simpl in Hl.
    assert (Hp : p <> []) by (apply (@length_nonempty _ _ d); lia).
    exists p, s.
    apply chain_snoc in Hc; [|assumption]. destruct Hc as [Hc Hs].
    apply NoDup_remove in Hnd. rewrite app_nil_r in Hnd.
    destruct Hnd as [Hnd Hnotin].
    rewrite hd_error_app in Hh by assumption.
    repeat split; auto. lia.
  - intros [p [s [[Hh [Hc [Hnd Hl]]] [Hs [Hnotin ->]]]]].
    assert (Hp : p <> []) by (eapply length_nonempty; eassumption).
    repeat split.
    + now rewrite hd_error_app.
    + apply chain_snoc; auto.
    + apply NoDup_append. split; [assumption|].
      split; [constructor; [tauto|constructor]|].
      intros x Hx [<-|[]]. contradiction.
    + rewrite length_app. simpl. lia.
Qed.

Lemma swalk_incl (V : list node) (d : nat) (p : path) :
  (forall u v, In v (nbrs u) -> In v V) -> In anchor V ->
  swalk nbrs anchor d p -> incl p V.
Proof.
  intros Hcl Ha [Hh [Hc _]].
  destruct p as [|x p]; [intros y []|].
  simpl in Hh. injection Hh as ->.
  intros y Hy.
  apply (chain_In (steps nbrs) anchor p (fun v => In v V)); auto.
Qed.

Lemma swalk_bound (V : list node) (d : nat) (p : path) :
  (forall u v, In v (nbrs u) -> In v V) -> In anchor V ->
  swalk nbrs anchor d p -> S d <= length V.
Proof.
  intros Hcl Ha Hw. assert (Hi := swalk_incl V d p Hcl Ha Hw).
  destruct Hw as [_ [_ [Hnd Hl]]]. rewrite <- Hl.
  apply NoDup_incl_length; assumption.
Qed.

End Swalk.

(** ** Meetings and simple paths *)

Section Meetings.

Variable neighbors : bool -> node -> list node.
Variables source target : node.

Local Abbreviation N0 := (neighbors false).
Local Abbreviation N1 := (neighbors true).
Local Abbreviation meeting := (meeting neighbors source target).
Local Abbreviation shape := (shape source target).
Local Abbreviation spath := (spath neighbors source target).

Lemma join_shape (d0 d1 : nat) (p0 pt : path) :
  swalk N0 source d0 p0 -> swalk N1 target d1 pt ->
  (forall x, In x pt -> ~ In x p0) ->
  shape (d0 + d1 + 1) (p0 ++ rev pt).
Proof.
  intros [Hh0 [Hc0 [Hnd0 Hl0]]] [Hh1 [Hc1 [Hnd1 Hl1]]] Hdis.
  assert (Hp0 : p0 <> []) by (eapply length_nonempty; eassumption).
  assert (Hpt : pt <> []) by (eapply length_nonempty; eassumption).
  assert (Hr : rev pt <> []).
  { intro E. apply (f_equal (@length node)) in E.
    rewrite length_rev, Hl1 in E. discriminate. }
  repeat split.
  - now rewrite hd_error_app.
  - rewrite last_node_app by assumption. rewrite last_node_rev.
    now apply hd_error_hd.
  - apply NoDup_append. split; [assumption|]. split; [now apply NoDup_rev|].
    intros x Hx Hr'. apply in_rev in Hr'. apply (Hdis x); assumption.
  - rewrite length_app, length_rev. lia.
Qed.

Lemma meeting_shape (modus : bool) (d0 d1 : nat) (q : path) :
  meeting modus d0 d1 q -> shape (d0 + d1 + 1) q.
Proof.
  intros [path_s [s [path_t [Hs [_ [_ [Ht [_ [Hdis ->]]]]]]]]].
  destruct modus; simpl in *.
  - apply join_shape; auto.
    intros x Hx Hx'. apply (Hdis x); assumption.
  - apply join_shape; auto.
Qed.

(** From here on the target side walks the edges backwards. *)
Hypothesis backward : forall u v, In u (N1 v) <-> In v (N0 u).

Lemma chain_backward (p : path) :
  chain (steps N1) p <-> chain (steps N0) (rev p).
Proof.
  rewrite chain_rev. split; apply chain_impl; unfold steps; intros u v H;
    now apply backward.
Qed.

Lemma join_spath (d0 d1 : nat) (p0 pt : path) :
  swalk N0 source d0 p0 -> swalk N1 target d1 pt ->
  In (last_node pt) (N0 (last_node p0)) ->
  (forall x, In x pt -> ~ In x p0) ->
  spath (d0 + d1 + 1) (p0 ++ rev pt).
Proof.
  intros H0 H1 Hj Hdis. split; [now apply join_shape|].
  destruct H0 as [Hh0 [Hc0 [Hnd0 Hl0]]]. destruct H1 as [Hh1 [Hc1 [Hnd1 Hl1]]].
  assert (Hp0 : p0 <> []) by (eapply length_nonempty; eassumption).
  assert (Hr : rev pt <> []).
  { intro E. apply (f_equal (@length node)) in E.
    rewrite length_rev, Hl1 in E. discriminate. }
  apply chain_app; auto. split; [assumption|]. split.
  - rewrite hd_rev. exact Hj.
  - now apply chain_backward.
Qed.

Lemma split_spath (d0 d1 : nat) (q : path) :
  spath (d0 + d1 + 1) q ->
  exists p0 pt,
    q = p0 ++ rev pt /\ swalk N0 source d0 p0 /\ swalk N1 target d1 pt /\
    In (last_node pt) (N0 (last_node p0)) /\
    (forall x, In x pt -> ~ In x p0).
Proof.
  intros [[Hh [Hl [Hnd Hlen]]] Hc].
  set (p0 := firstn (S d0) q). set (r := skipn (S d0) q).
  assert (Hq : q = p0 ++ r) by (symmetry; apply firstn_skipn).
  assert (Hl0 : length p0 = S d0) by (unfold p0; rewrite length_firstn; lia).
  assert (Hl1 : length r = S d1) by (unfold r; rewrite length_skipn; lia).
  assert (Hp0 : p0 <> []) by (eapply length_nonempty; eassumption).
  assert (Hr : r <> []) by (eapply length_nonempty; eassumption).
  clearbody p0 r. subst q.
  apply NoDup_append in Hnd. destruct Hnd as [Hnd0 [Hnd1 Hdis]].
  apply chain_app in Hc; auto. destruct Hc as [Hc0 [Hj Hc1]].
  exists p0, (rev r). rewrite rev_involutive.
  split; [reflexivity|]. split; [|split; [|split]].
  - repeat split; auto. now rewrite hd_error_app in Hh.
  - repeat split.
    + rewrite hd_error_rev by assumption. f_equal.
      now rewrite last_node_app in Hl.
    + apply chain_backward. now rewrite rev_involutive.
    + now apply NoDup_rev.
    + now rewrite length_rev.
  - rewrite last_node_rev. exact Hj.
  - intros x Hx Hx'. apply in_rev in Hx. apply (Hdis x); assumption.
Qed.

Lemma meeting_spath (modus : bool) (d0 d1 : nat) (q : path) :
  meeting modus d0 d1 q <-> spath (d0 + d1 + 1) q.
Proof.
  split.
  - intros [path_s [s [path_t [Hs [Hin [_ [Ht [Hlast [Hdis ->]]]]]]]]].
    destruct modus; simpl in *.
    + apply join_spath; auto.
      * rewrite Hlast. now apply backward.
      * intros x Hx Hx'. apply (Hdis x); assumption.
    + apply join_spath; auto. now rewrite Hlast.
  - intro H. apply split_spath in H.
    destruct H as [p0 [pt [-> [H0 [H1 [Hj Hdis]]]]]].
    assert (Hnd1 : NoDup pt) by apply H1.
    destruct modus.
    + exists pt, (last_node p0), p0. simpl.
      split; [exact H1|]. split; [now apply backward|].
      split; [|split; [exact H0|split; [reflexivity|split; [|reflexivity]]]].
      * intro Hx. apply (Hdis _ Hx).
        destruct H0 as [_ [_ [_ Hl0]]].
        destruct (exists_last (length_nonempty _ _ Hl0)) as [p' [z E]].
        rewrite E, last_node_snoc. apply in_or_app. right. now left.
      * intros x Hx Hx'. apply (Hdis x); assumption.
    + exists p0, (last_node pt), pt. simpl.
      split; [exact H0|]. split; [exact Hj|].
      split; [|split; [exact H1|split; [reflexivity|split; [exact Hdis|reflexivity]]]].
      intro Hx. refine (Hdis _ _ Hx).
      destruct H1 as [_ [_ [_ Hl1]]].
      destruct (exists_last (length_nonempty _ _ Hl1)) as [p' [z E]].
      rewrite E, last_node_snoc. apply in_or_app. right. now left.
Qed.

(** A simple path contributes a walk of every smaller depth to each side. *)
Lemma spath_walk (L : nat) (q : path) (side : bool) (d : nat) :
  spath L q -> d <= L ->
  exists p, swalk (neighbors side) (anchor source target side) d p.
Proof.
  intros Hq Hd. destruct (Nat.eq_dec d L) as [->|Hne].
  - (* the whole path *)
    destruct Hq as [[Hh [Hl [Hnd Hlen]]] Hc]. destruct side; simpl.
    + exists (rev q). repeat split.
      * rewrite hd_error_rev by (eapply length_nonempty; eassumption).
        now f_equal.
      * apply chain_backward. now rewrite rev_involutive.
      * now apply NoDup_rev.
      * now rewrite length_rev.
    + exists q. repeat split; auto.
  - destruct side; simpl.
    + assert (E : L = (L - d - 1) + d + 1) by lia. rewrite E in Hq.
      apply split_spath in Hq.
      destruct Hq as [p0 [pt [_ [_ [H1 _]]]]]. eauto.
    + assert (E : L = d + (L - d - 1) + 1) by lia. rewrite E in Hq.
      apply split_spath in Hq.
      destruct Hq as [p0 [pt [_ [H0 _]]]]. eauto.
Qed.

End Meetings.

(** ** The all-simple-paths engine *)

Lemma joined_In (modus : bool) (Tt : dict) (s : node) (path_s q : path) :
  In q (joined modus Tt s path_s) <->
  ~ In s path_s /\
  exists paths_t path_t,
    dict_get s Tt = Some paths_t /\ In path_t paths_t /\
    (forall x, In x path_t -> ~ In x path_s) /\
    q = stitch modus path_s path_t.
Proof.
  unfold joined. destruct (mem s path_s) eqn:E; simpl.
  - apply mem_In in E. split; [intros [] | tauto].
  - apply mem_not_In in E. destruct (dict_get s Tt) as [paths_t|].
    + rewrite in_flat_map. split.
      * intros [path_t [Hin Hq]].
        destruct (disjointb path_t path_s) eqn:D; [|destruct Hq].
        destruct Hq as [<-|[]].
        assert (D' := proj1 (disjointb_true _ _) D).
        split; [assumption|]. exists paths_t, path_t. auto.
      * intros [_ [ps [path_t [[= <-] [Hin [D ->]]]]]].
        exists path_t. split; [assumption|].
        rewrite (proj2 (disjointb_true _ _) D). now left.
    + split; [intros [] | intros [_ [ps [pt [H _]]]]; discriminate].
Qed.

Section SimpleEngine.

Variable neighbors : bool -> node -> list node.
Variables source target : node.

Local Abbreviation meeting := (meeting neighbors source target).
Local Abbreviation tree_inv := (tree_inv neighbors source target).

Lemma join_paths_out (modus : bool) (path_s : path) (paths_t out : list path) :
  fold_left (join_paths modus path_s) paths_t out =
  out ++ flat_map (fun path_t => if disjointb path_t path_s
                                 then [stitch modus path_s path_t] else [])
                  paths_t.
Proof.
  apply (fold_left_out (join_paths modus path_s) (fun o => o)).
  intros st x. unfold join_paths.
  destruct (disjointb x path_s); [reflexivity | now rewrite app_nil_r].
Qed.

Lemma visit_path_out (modus : bool) (Tt : dict) (s : node)
    (st : list path * dict) (path_s : path) :
  fst (visit_path modus Tt s st path_s) = fst st ++ joined modus Tt s path_s.
Proof.
  unfold visit_path, joined. destruct (negb (mem s path_s)); simpl.
  - destruct (dict_get s Tt); [apply join_paths_out | now rewrite app_nil_r].
  - now rewrite app_nil_r.
Qed.

Lemma visit_leaves_out (modus : bool) (Tt Ts : dict) (st : list path * dict) :
  fst (fold_left (visit_leaf neighbors modus Tt) Ts st) =
  fst st ++
  flat_map (fun item =>
    flat_map (fun s => flat_map (joined modus Tt s) (snd item))
             (neighbors modus (fst item))) Ts.
Proof.
  apply (fold_left_out (visit_leaf neighbors modus Tt) fst).
  intros st1 item. unfold visit_leaf.
  apply (fold_left_out (visit_neighbor modus Tt (snd item)) fst).
  intros st2 s. unfold visit_neighbor.
  apply (fold_left_out (visit_path modus Tt s) fst).
  intros st3 path_s. apply visit_path_out.
Qed.

Lemma visit_leaves_temp (modus : bool) (Tt Ts : dict) (st : list path * dict)
    (q : path) :
  In_dict q (snd (fold_left (visit_leaf neighbors modus Tt) Ts st)) <->
  In_dict q (snd st) \/
  exists item, In item Ts /\
    exists s, In s (neighbors modus (fst item)) /\
      exists path_s, In path_s (snd item) /\
        (~ In s path_s /\ q = path_s ++ [s]).
Proof.
  clear source target.
  apply (fold_left_mem (visit_leaf neighbors modus Tt)
           (fun st a => In_dict a (snd st))
           (fun item a => exists s, In s (neighbors modus (fst item)) /\
              exists path_s, In path_s (snd item) /\
                (~ In s path_s /\ a = path_s ++ [s]))).
  intros st1 item a _. unfold visit_leaf.
  apply (fold_left_mem (visit_neighbor modus Tt (snd item))
           (fun st a => In_dict a (snd st))
           (fun s a => exists path_s, In path_s (snd item) /\
                (~ In s path_s /\ a = path_s ++ [s]))).
  intros st2 s b _. unfold visit_neighbor.
  apply (fold_left_mem (visit_path modus Tt s)
           (fun st a => In_dict a (snd st))
           (fun path_s a => ~ In s path_s /\ a = path_s ++ [s])).
  intros st3 path_s c _. unfold visit_path.
  destruct (mem s path_s) eqn:E; simpl.
  - apply mem_In in E. tauto.
  - apply mem_not_In in E. rewrite In_dict_add. tauto.
Qed.

Lemma visit_leaves_wf (modus : bool) (Tt Ts : dict) (st : list path * dict) :
  wf_dict (snd st) ->
  wf_dict (snd (fold_left (visit_leaf neighbors modus Tt) Ts st)).
Proof.
  apply (fold_left_preserve (visit_leaf neighbors modus Tt)
           (fun st => wf_dict (snd st))).
  intros st1 item _. unfold visit_leaf.
  apply (fold_left_preserve (visit_neighbor modus Tt (snd item))
           (fun st => wf_dict (snd st))).
  intros st2 s _. unfold visit_neighbor.
  apply (fold_left_preserve (visit_path modus Tt s)
           (fun st => wf_dict (snd st))).
  intros st3 path_s _ Hwf. unfold visit_path.
  destruct (negb (mem s path_s)); simpl; [|assumption].
  apply wf_dict_add; [apply last_node_snoc | assumption].
Qed.

(** One round yields the meetings of its depths and deepens the side it
    extends by one step. *)
Lemma simple_round_spec (tree : dict * dict) (d0 d1 : nat) :
  tree_inv tree d0 d1 ->
  let modus := length (sel tree true) <? length (sel tree false) in
  let r := simple_round neighbors tree in
  (forall q, In q (fst r) <-> meeting modus d0 d1 q) /\
  tree_inv (snd r) (fst (upd (d0, d1) modus (S (sel (d0, d1) modus))))
                   (snd (upd (d0, d1) modus (S (sel (d0, d1) modus)))).
Proof.
  intros Hinv modus r. subst r. unfold simple_round. fold modus.
  clearbody modus.
  set (Ts := sel tree modus). set (Tt := sel tree (negb modus)).
  destruct (Hinv modus) as [Hwfs Hs]. destruct (Hinv (negb modus)) as [Hwft Ht].
  fold Ts in Hwfs, Hs. fold Tt in Hwft, Ht.
  simpl fst. simpl snd. split.
  - intro q. rewrite visit_leaves_out. simpl app. rewrite in_flat_map. split.
    + intros [[k ps] [Hitem Hq]]. simpl in Hq.
      apply in_flat_map in Hq. destruct Hq as [s [Hs_in Hq]].
      apply in_flat_map in Hq. destruct Hq as [path_s [Hps Hq]].
      apply joined_In in Hq.
      destruct Hq as [Hnotin [paths_t [path_t [Hget [Hpt [Hdis ->]]]]]].
      apply dict_get_In in Hget.
      exists path_s, s, path_t.
      assert (Hk : last_node path_s = k) by (eapply Hwfs; eassumption).
      split; [apply Hs; exists k, ps; auto|].
      split; [now rewrite Hk|]. split; [assumption|].
      split; [apply Ht; exists s, paths_t; auto|].
      split; [eapply Hwft; eassumption|]. auto.
    + intros [path_s [s [path_t [Hws [Hin [Hnotin [Hwt [Hlast [Hdis ->]]]]]]]]].
      apply Hs in Hws. destruct Hws as [k [ps [Hitem Hps]]].
      assert (Hk : last_node path_s = k) by (eapply Hwfs; eassumption).
      apply Ht in Hwt. apply In_dict_get in Hwt; [|assumption].
      destruct Hwt as [paths_t [Hget Hpt]]. rewrite Hlast in Hget.
      exists (k, ps). split; [assumption|]. simpl.
      apply in_flat_map. exists s. split; [now rewrite <- Hk|].
      apply in_flat_map. exists path_s. split; [assumption|].
      apply joined_In. split; [assumption|].
      exists paths_t, path_t. auto.
  - intro side.
    destruct (Bool.eqb side modus) eqn:E.
    + apply Bool.eqb_prop in E. subst side.
      rewrite sel_upd_same.
      assert (Ed : sel (fst (upd (d0, d1) modus (S (sel (d0, d1) modus))),
                        snd (upd (d0, d1) modus (S (sel (d0, d1) modus))))
                       modus = S (sel (d0, d1) modus))
        by (destruct modus; reflexivity).
      rewrite Ed. split.
      * apply visit_leaves_wf. simpl. split; [constructor | intros ? ? ? []].
      * intro p. rewrite visit_leaves_temp, swalk_extend. simpl snd. split.
        -- intros [[k [ps [[] _]]]|[[k ps] [Hitem [s [Hin [path_s [Hps [Hn ->]]]]]]]].
           simpl in *.
           assert (Hk : last_node path_s = k) by (eapply Hwfs; eassumption).
           exists path_s, s. split; [apply Hs; exists k, ps; auto|].
           rewrite Hk. auto.
        -- intros [path_s [s [Hws [Hin [Hn ->]]]]]. right.
           apply Hs in Hws. destruct Hws as [k [ps [Hitem Hps]]].
           assert (Hk : last_node path_s = k) by (eapply Hwfs; eassumption).
           exists (k, ps). split; [assumption|]. simpl.
           exists s. split; [now rewrite <- Hk|]. exists path_s. auto.
    + assert (Eside : side = negb modus)
        by (destruct side, modus; simpl in E; try reflexivity; discriminate).
      subst side. rewrite sel_upd_other.
      assert (Ed : sel (fst (upd (d0, d1) modus (S (sel (d0, d1) modus))),
                        snd (upd (d0, d1) modus (S (sel (d0, d1) modus))))
                       (negb modus) = sel (d0, d1) (negb modus))
        by (destruct modus; reflexivity).
      rewrite Ed. split; assumption.
Qed.

End SimpleEngine.

Lemma by_length_app (l1 l2 : list path) :
  by_length l1 -> by_length l2 ->
  (forall p q, In p l1 -> In q l2 -> length p <= length q) ->
  by_length (l1 ++ l2).
Proof.
  induction l1 as [|p l1 IH]; simpl; intros H1 H2 H12; [assumption|].
  destruct H1 as [Hp H1]. split.
  - intros q Hq. apply in_app_or in Hq. destruct Hq; auto.
  - apply IH; auto.
Qed.

Lemma by_length_same (k : nat) (l : list path) :
  (forall p, In p l -> length p = k) -> by_length l.
Proof.
  induction l as [|p l IH]; simpl; intro H; [exact I|]. split.
  - intros q Hq. rewrite (H p), (H q); auto.
  - apply IH. auto.
Qed.

Lemma depth_sum (d0 d1 : nat) (modus : bool) :
  fst (upd (d0, d1) modus (S (sel (d0, d1) modus))) +
  snd (upd (d0, d1) modus (S (sel (d0, d1) modus))) = S (d0 + d1).
Proof. destruct modus; simpl; lia. Qed.

Section SimpleLoop.

Variable neighbors : bool -> node -> list node.
Variables source target : node.

Local Abbreviation meeting := (meeting neighbors source target).
Local Abbreviation tree_inv := (tree_inv neighbors source target).

Lemma tree_inv_init :
  tree_inv ([(source, [[source]])], [(target, [[target]])]) 0 0.
Proof.
  intro side. split.
  - destruct side; simpl; (split; [constructor; [simpl; tauto | constructor]|]);
      intros k ps p [[= <- <-]|[]] [<-|[]]; reflexivity.
  - intro p. destruct side; simpl; rewrite swalk_init; split.
    + intros [k [ps [[[= <- <-]|[]] [<-|[]]]]]. reflexivity.
    + intros ->. exists target, [[target]]. simpl. auto.
    + intros [k [ps [[[= <- <-]|[]] [<-|[]]]]]. reflexivity.
    + intros ->. exists source, [[source]]. simpl. auto.
Qed.

Section WithSpec.

Variable Spec : nat -> path -> Prop.

Lemma simple_rounds_sound :
  (forall modus d0 d1 q, meeting modus d0 d1 q -> Spec (d0 + d1 + 1) q) ->
  forall rounds tree d0 d1, tree_inv tree d0 d1 ->
  forall q, In q (simple_rounds neighbors rounds tree) ->
  exists L, d0 + d1 < L /\ L <= d0 + d1 + rounds /\ Spec L q.
Proof.
  intros Hsound. induction rounds as [|n IH]; simpl; intros tree d0 d1 Hinv q Hq.
  - contradiction.
  - destruct (simple_round_spec neighbors source target tree d0 d1 Hinv)
      as [Hy Hinv'].
    apply in_app_or in Hq. destruct Hq as [Hq|Hq].
    + apply Hy in Hq. apply Hsound in Hq. exists (d0 + d1 + 1).
      split; [lia|]. split; [lia | assumption].
    + apply (IH _ _ _ Hinv') in Hq. destruct Hq as [L [H1 [H2 H3]]].
      rewrite depth_sum in H1, H2. exists L. split; [lia|]. split; [lia|assumption].
Qed.

Lemma simple_rounds_complete :
  (forall modus d0 d1 q, Spec (d0 + d1 + 1) q -> meeting modus d0 d1 q) ->
  forall rounds tree d0 d1, tree_inv tree d0 d1 ->
  forall L q, d0 + d1 < L -> L <= d0 + d1 + rounds -> Spec L q ->
  In q (simple_rounds neighbors rounds tree).
Proof.
  intros Hcompl. induction rounds as [|n IH]; simpl;
    intros tree d0 d1 Hinv L q H1 H2 HS.
  - lia.
  - destruct (simple_round_spec neighbors source target tree d0 d1 Hinv)
      as [Hy Hinv'].
    apply in_or_app. destruct (Nat.eq_dec L (d0 + d1 + 1)) as [->|Hne].
    + left. apply Hy. now apply Hcompl.
    + right. apply (IH _ _ _ Hinv' L); auto; rewrite depth_sum; lia.
Qed.

End WithSpec.

Lemma simple_rounds_sorted (rounds : nat) (tree : dict * dict) (d0 d1 : nat) :
  tree_inv tree d0 d1 -> by_length (simple_rounds neighbors rounds tree).
Proof.
  revert tree d0 d1. induction rounds as [|n IH]; simpl; intros tree d0 d1 Hinv.
  - exact I.
  - destruct (simple_round_spec neighbors source target tree d0 d1 Hinv)
      as [Hy Hinv'].
    assert (Hlen : forall p, In p (fst (simple_round neighbors tree)) ->
                             length p = S (d0 + d1 + 1)).
    { intros p Hp. apply Hy in Hp. apply meeting_shape in Hp. apply Hp. }
    apply by_length_app.
    + eapply by_length_same. exact Hlen.
    + eapply IH. exact Hinv'.
    + intros p q Hp Hq. rewrite (Hlen p Hp).
      destruct (simple_rounds_sound (shape source target)
                  (meeting_shape neighbors source target)
                  n _ _ _ Hinv' q Hq) as [L [H1 [_ H3]]].
      rewrite depth_sum in H1. destruct H3 as [_ [_ [_ H3]]]. lia.
Qed.

End SimpleLoop.

(** ** The all-shortest-paths engine: one round *)

Lemma sp_joined_In (modus : bool) (Tt : list path) (path_s : path) (s : node)
    (q : path) :
  In q (sp_joined modus Tt path_s s) <->
  exists path_t, In path_t Tt /\ last_node path_t = s /\
                 (forall x, In x path_t -> ~ In x path_s) /\
                 q = stitch modus path_s path_t.
Proof.
  unfold sp_joined. rewrite in_flat_map. split.
  - intros [path_t [Hin Hq]].
    destruct (Nat.eqb_spec s (last_node path_t)) as [E|_]; [|destruct Hq].
    destruct (disjointb path_t path_s) eqn:D; [|destruct Hq].
    destruct Hq as [<-|[]].
    assert (D' := proj1 (disjointb_true _ _) D).
    exists path_t. auto.
  - intros [path_t [Hin [E [D ->]]]]. exists path_t. split; [assumption|].
    rewrite E, Nat.eqb_refl, (proj2 (disjointb_true _ _) D). now left.
Qed.

Lemma sp_meet_out (modus : bool) (path_s : path) (s : node) (Tt : list path)
    (fo : bool * list path) :
  snd (fold_left (sp_meet modus path_s s) Tt fo) =
  snd fo ++ sp_joined modus Tt path_s s.
Proof.
  apply (fold_left_out (sp_meet modus path_s s) snd).
  intros st x. unfold sp_meet.
  destruct (Nat.eqb s (last_node x)), (disjointb x path_s); simpl;
    rewrite ?app_nil_r; reflexivity.
Qed.

Lemma truthy_snoc {A} (l : list A) (x : A) : truthy (l ++ [x]) = true.
Proof. destruct l; reflexivity. Qed.

Lemma sp_meet_found (found0 : bool) (modus : bool) (path_s : path) (s : node)
    (Tt : list path) (fo : bool * list path) :
  fst fo = found0 || truthy (snd fo) ->
  fst (fold_left (sp_meet modus path_s s) Tt fo) =
  found0 || truthy (snd (fold_left (sp_meet modus path_s s) Tt fo)).
Proof.
  apply (fold_left_preserve (sp_meet modus path_s s)
           (fun fo => fst fo = found0 || truthy (snd fo))).
  intros st x _ H. unfold sp_meet.
  destruct (Nat.eqb s (last_node x)), (disjointb x path_s); simpl; auto.
  rewrite truthy_snoc. now rewrite orb_true_r.
Qed.

Section ShortestRound.

Variable neighbors : bool -> node -> list node.

Lemma sp_visit_out (modus : bool) (Tt : list path) (Nt : list node)
    (Ts : list path) (st : sp_state) :
  sp_out (fold_left (sp_visit_path neighbors modus Tt Nt) Ts st) =
  sp_out st ++
  flat_map (fun path_s =>
              flat_map (sp_emit modus Tt Nt path_s)
                       (neighbors modus (last_node path_s))) Ts.
Proof.
  apply (fold_left_out (sp_visit_path neighbors modus Tt Nt) sp_out).
  intros st1 path_s. unfold sp_visit_path.
  apply (fold_left_out (sp_visit_neighbor modus Tt Nt path_s) sp_out).
  intros st2 s. unfold sp_visit_neighbor, sp_emit.
  destruct (negb (mem s path_s)); simpl; [|now rewrite app_nil_r].
  destruct (mem s Nt); simpl; [apply sp_meet_out | now rewrite app_nil_r].
Qed.

Lemma sp_visit_multi_out (modus : bool) (Tt Ts : list path) (st : sp_state) :
  sp_out (fold_left (sp_visit_path_multi neighbors modus Tt) Ts st) =
  sp_out st ++
  flat_map (fun path_s =>
              flat_map (sp_emit_multi modus Tt path_s)
                       (neighbors modus (last_node path_s))) Ts.
Proof.
  apply (fold_left_out (sp_visit_path_multi neighbors modus Tt) sp_out).
  intros st1 path_s. unfold sp_visit_path_multi.
  apply (fold_left_out (sp_visit_neighbor_multi modus Tt path_s) sp_out).
  intros st2 s. unfold sp_visit_neighbor_multi, sp_emit_multi.
  destruct (negb (mem s path_s)); simpl; [apply sp_meet_out|].
  now rewrite app_nil_r.
Qed.

Lemma sp_visit_found (found0 modus : bool) (Tt : list path) (Nt : list node)
    (Ts : list path) (st : sp_state) :
  sp_found st = found0 || truthy (sp_out st) ->
  sp_found (fold_left (sp_visit_path neighbors modus Tt Nt) Ts st) =
  found0 ||
  truthy (sp_out (fold_left (sp_visit_path neighbors modus Tt Nt) Ts st)).
Proof.
  apply (fold_left_preserve (sp_visit_path neighbors modus Tt Nt)
           (fun st => sp_found st = found0 || truthy (sp_out st))).
  intros st1 path_s _. unfold sp_visit_path.
  apply (fold_left_preserve (sp_visit_neighbor modus Tt Nt path_s)
           (fun st => sp_found st = found0 || truthy (sp_out st))).
  intros st2 s _ H. unfold sp_visit_neighbor.
  destruct (negb (mem s path_s)); simpl; [|assumption].
  destruct (mem s Nt); simpl; [|assumption].
  now apply sp_meet_found.
Qed.

Lemma sp_visit_multi_found (found0 modus : bool) (Tt Ts : list path)
    (st : sp_state) :
  sp_found st = found0 || truthy (sp_out st) ->
  sp_found (fold_left (sp_visit_path_multi neighbors modus Tt) Ts st) =
  found0 ||
  truthy (sp_out (fold_left (sp_visit_path_multi neighbors modus Tt) Ts st)).
Proof.
  apply (fold_left_preserve (sp_visit_path_multi neighbors modus Tt)
           (fun st => sp_found st = found0 || truthy (sp_out st))).
  intros st1 path_s _. unfold sp_visit_path_multi.
  apply (fold_left_preserve (sp_visit_neighbor_multi modus Tt path_s)
           (fun st => sp_found st = found0 || truthy (sp_out st))).
  intros st2 s _ H. unfold sp_visit_neighbor_multi.
  destruct (negb (mem s path_s)); simpl; [|assumption].
  now apply sp_meet_found.
Qed.

Lemma sp_visit_temp (modus : bool) (Tt : list path) (Nt : list node)
    (Ts : list path) (st : sp_state) (q : path) :
  In q (sp_temp_tree (fold_left (sp_visit_path neighbors modus Tt Nt) Ts st))
  <->
  In q (sp_temp_tree st) \/
  exists path_s, In path_s Ts /\
    exists s, In s (neighbors modus (last_node path_s)) /\
              (~ In s path_s /\ q = path_s ++ [s]).
Proof.
  apply (fold_left_mem (sp_visit_path neighbors modus Tt Nt)
           (fun st a => In a (sp_temp_tree st))
           (fun path_s a => exists s,
              In s (neighbors modus (last_node path_s)) /\
              (~ In s path_s /\ a = path_s ++ [s]))).
  intros st1 path_s a _. unfold sp_visit_path.
  apply (fold_left_mem (sp_visit_neighbor modus Tt Nt path_s)
           (fun st a => In a (sp_temp_tree st))
           (fun s a => ~ In s path_s /\ a = path_s ++ [s])).
  intros st2 s b _. unfold sp_visit_neighbor.
  destruct (mem s path_s) eqn:E; simpl.
  - apply mem_In in E. tauto.
  - apply mem_not_In in E. rewrite add_path_In. tauto.
Qed.

Lemma sp_visit_multi_temp (modus : bool) (Tt Ts : list path) (st : sp_state)
    (q : path) :
  In q (sp_temp_tree (fold_left (sp_visit_path_multi neighbors modus Tt) Ts st))
  <->
  In q (sp_temp_tree st) \/
  exists path_s, In path_s Ts /\
    exists s, In s (neighbors modus (last_node path_s)) /\
              (~ In s path_s /\ q = path_s ++ [s]).
Proof.
  apply (fold_left_mem (sp_visit_path_multi neighbors modus Tt)
           (fun st a => In a (sp_temp_tree st))
           (fun path_s a => exists s,
              In s (neighbors modus (last_node path_s)) /\
              (~ In s path_s /\ a = path_s ++ [s]))).
  intros st1 path_s a _. unfold sp_visit_path_multi.
  apply (fold_left_mem (sp_visit_neighbor_multi modus Tt path_s)
           (fun st a => In a (sp_temp_tree st))
           (fun s a => ~ In s path_s /\ a = path_s ++ [s])).
  intros st2 s b _. unfold sp_visit_neighbor_multi.
  destruct (mem s path_s) eqn:E; simpl.
  - apply mem_In in E. tauto.
  - apply mem_not_In in E. rewrite in_app_iff. simpl. intuition.
Qed.

Lemma sp_visit_nodes (modus : bool) (Tt : list path) (Nt : list node)
    (Ts : list path) (st : sp_state) (x : node) :
  In x (sp_nodes_source
          (fold_left (sp_visit_path neighbors modus Tt Nt) Ts st))
  <->
  In x (sp_nodes_source st) \/
  exists path_s, In path_s Ts /\
    exists s, In s (neighbors modus (last_node path_s)) /\
              (~ In s path_s /\ x = s).
Proof.
  apply (fold_left_mem (sp_visit_path neighbors modus Tt Nt)
           (fun st a => In a (sp_nodes_source st))
           (fun path_s a => exists s,
              In s (neighbors modus (last_node path_s)) /\
              (~ In s path_s /\ a = s))).
  intros st1 path_s a _. unfold sp_visit_path.
  apply (fold_left_mem (sp_visit_neighbor modus Tt Nt path_s)
           (fun st a => In a (sp_nodes_source st))
           (fun s a => ~ In s path_s /\ a = s)).
  intros st2 s b _. unfold sp_visit_neighbor.
  destruct (mem s path_s) eqn:E; simpl.
  - apply mem_In in E. tauto.
  - apply mem_not_In in E. rewrite add_node_In. tauto.
Qed.

Lemma sp_visit_temp_NoDup (modus : bool) (Tt : list path) (Nt : list node)
    (Ts : list path) (st : sp_state) :
  NoDup (sp_temp_tree st) ->
  NoDup (sp_temp_tree (fold_left (sp_visit_path neighbors modus Tt Nt) Ts st)).
Proof.
  apply (fold_left_preserve (sp_visit_path neighbors modus Tt Nt)
           (fun st => NoDup (sp_temp_tree st))).
  intros st1 path_s _. unfold sp_visit_path.
  apply (fold_left_preserve (sp_visit_neighbor modus Tt Nt path_s)
           (fun st => NoDup (sp_temp_tree st))).
  intros st2 s _ H. unfold sp_visit_neighbor.
  destruct (negb (mem s path_s)); simpl; [|assumption].
  now apply add_path_NoDup.
Qed.

End ShortestRound.

(** ** Lists without repetition *)

Lemma NoDup_flat_map {A B} (f : A -> list B) (l : list A) :
  NoDup l ->
  (forall x, In x l -> NoDup (f x)) ->
  (forall x y z, In x l -> In y l -> In z (f x) -> In z (f y) -> x = y) ->
  NoDup (flat_map f l).
Proof.
  induction l as [|a l IH]; simpl; intros Hnd Hf Hinj; [constructor|].
  inversion Hnd as [|? ? Ha Hnd']; subst.
  apply NoDup_append. split; [apply Hf; now left|]. split.
  - apply IH; auto. intros x y z Hx Hy. apply Hinj; now right.
  - intros z Hz Hz'. apply in_flat_map in Hz'. destruct Hz' as [y [Hy Hzy]].
    assert (E : a = y) by (apply (Hinj a y z); auto). subst y. contradiction.
Qed.

Lemma app_inj_length {A} (a a' b b' : list A) :
  length a = length a' -> a ++ b = a' ++ b' -> a = a' /\ b = b'.
Proof.
  revert a'. induction a as [|x a IH]; intros [|x' a'] Hl H;
    simpl in *; try discriminate; [auto|].
  injection H as -> H. injection Hl as Hl.
  destruct (IH a' Hl H) as [-> ->]. auto.
Qed.

Lemma rev_inj {A} (a b : list A) : rev a = rev b -> a = b.
Proof.
  intro H. apply (f_equal (@rev A)) in H. now rewrite !rev_involutive in H.
Qed.

Lemma stitch_inj (modus : bool) (path_s path_s' path_t path_t' : path) :
  length path_s = length path_s' ->
  stitch modus path_s path_t = stitch modus path_s' path_t' ->
  path_s = path_s' /\ path_t = path_t'.
Proof.
  intros Hl H. destruct modus; simpl in H.
  - assert (Hl' : length path_t = length path_t').
    { apply (f_equal (@length node)) in H.
      rewrite !length_app, !length_rev in H. lia. }
    apply app_inj_length in H; [|assumption]. destruct H as [-> H].
    apply rev_inj in H. auto.
  - apply app_inj_length in H; [|assumption]. destruct H as [-> H].
    apply rev_inj in H. auto.
Qed.

Lemma sp_emit_In (modus : bool) (Tt : list path) (Nt : list node)
    (path_s : path) (s : node) (q : path) :
  In q (sp_emit modus Tt Nt path_s s) <->
  ~ In s path_s /\ In s Nt /\ In q (sp_joined modus Tt path_s s).
Proof.
  unfold sp_emit. destruct (mem s path_s) eqn:E; simpl.
  - apply mem_In in E. split; [intros [] | tauto].
  - apply mem_not_In in E. destruct (mem s Nt) eqn:E'.
    + apply mem_In in E'. tauto.
    + apply mem_not_In in E'. split; [intros [] | tauto].
Qed.

Lemma sp_emit_multi_In (modus : bool) (Tt : list path)
    (path_s : path) (s : node) (q : path) :
  In q (sp_emit_multi modus Tt path_s s) <->
  ~ In s path_s /\ In q (sp_joined modus Tt path_s s).
Proof.
  unfold sp_emit_multi. destruct (mem s path_s) eqn:E; simpl.
  - apply mem_In in E. split; [intros [] | tauto].
  - apply mem_not_In in E. tauto.
Qed.

Lemma sp_joined_NoDup (modus : bool) (Tt : list path) (path_s : path)
    (s : node) :
  NoDup Tt -> NoDup (sp_joined modus Tt path_s s).
Proof.
  intro Hnd. unfold sp_joined. apply NoDup_flat_map; [assumption| |].
  - intros path_t _.
    destruct (Nat.eqb s (last_node path_t)), (disjointb path_t path_s);
      repeat constructor; simpl; tauto.
  - intros x y z _ _ Hx Hy.
    destruct (Nat.eqb s (last_node x)); [|destruct Hx].
    destruct (disjointb x path_s); [|destruct Hx].
    destruct (Nat.eqb s (last_node y)); [|destruct Hy].
    destruct (disjointb y path_s); [|destruct Hy].
    destruct Hx as [<-|[]]. destruct Hy as [Hy|[]].
    symmetry in Hy. apply stitch_inj in Hy; [tauto | reflexivity].
Qed.

(** On a simple graph a round yields no path twice. *)
Lemma sp_round_out_NoDup (nbrs : node -> list node) (modus : bool)
    (Tt : list path) (Nt : list node) (Ts : list path) :
  NoDup Ts -> NoDup Tt -> (forall x, NoDup (nbrs x)) ->
  (forall p p', In p Ts -> In p' Ts -> length p = length p') ->
  NoDup (flat_map (fun path_s =>
                     flat_map (sp_emit modus Tt Nt path_s)
                              (nbrs (last_node path_s))) Ts).
Proof.
  intros HTs HTt Hnb Hlen. apply NoDup_flat_map; [assumption| |].
  - intros path_s _. apply NoDup_flat_map; [apply Hnb| |].
    + intros s _. unfold sp_emit.
      destruct (negb (mem s path_s)); [|constructor].
      destruct (mem s Nt); [|constructor]. now apply sp_joined_NoDup.
    + intros s s' z _ _ Hz Hz'.
      apply sp_emit_In in Hz. destruct Hz as [_ [_ Hz]].
      apply sp_emit_In in Hz'. destruct Hz' as [_ [_ Hz']].
      apply sp_joined_In in Hz. destruct Hz as [pt [_ [E [_ ->]]]].
      apply sp_joined_In in Hz'. destruct Hz' as [pt' [_ [E' [_ Hz']]]].
      apply stitch_inj in Hz'; [|reflexivity]. destruct Hz' as [_ ->].
      congruence.
  - intros ps ps' z Hps Hps' Hz Hz'.
    apply in_flat_map in Hz. destruct Hz as [s [_ Hz]].
    apply in_flat_map in Hz'. destruct Hz' as [s' [_ Hz']].
    apply sp_emit_In in Hz. destruct Hz as [_ [_ Hz]].
    apply sp_emit_In in Hz'. destruct Hz' as [_ [_ Hz']].
    apply sp_joined_In in Hz. destruct Hz as [pt [_ [E [_ ->]]]].
    apply sp_joined_In in Hz'. destruct Hz' as [pt' [_ [E' [_ Hz']]]].
    apply stitch_inj in Hz'; [tauto | now apply Hlen].
Qed.

Section ShortestRoundSpec.

Variable neighbors : bool -> node -> list node.
Variables source target : node.

Local Abbreviation meeting := (meeting neighbors source target).
Local Abbreviation sp_inv := (sp_inv neighbors source target).

Lemma sp_inv_upd (tree : list path * list path) (d0 d1 : nat) (modus : bool)
    (T' : list path) :
  sp_inv tree d0 d1 ->
  (forall p, In p T' <->
             swalk (neighbors modus) (anchor source target modus)
                   (S (sel (d0, d1) modus)) p) ->
  sp_inv (upd tree modus T')
         (fst (upd (d0, d1) modus (S (sel (d0, d1) modus))))
         (snd (upd (d0, d1) modus (S (sel (d0, d1) modus)))).
Proof.
  intros H HT side p.
  destruct modus, side; simpl in *; first [apply HT | apply (H true p) | apply (H false p)].
Qed.

Lemma extension_swalk (tree : list path * list path) (d0 d1 : nat)
    (modus : bool) (q : path) :
  sp_inv tree d0 d1 ->
  ((exists path_s, In path_s (sel tree modus) /\
      exists s, In s (neighbors modus (last_node path_s)) /\
                (~ In s path_s /\ q = path_s ++ [s]))
   <-> swalk (neighbors modus) (anchor source target modus)
             (S (sel (d0, d1) modus)) q).
Proof.
  intro H. rewrite swalk_extend. split.
  - intros [path_s [Hin [s [Hs [Hn ->]]]]]. exists path_s, s.
    split; [now apply H|]. auto.
  - intros [path_s [s [Hw [Hs [Hn ->]]]]]. exists path_s.
    split; [now apply H|]. exists s. auto.
Qed.

Lemma sp_round_meets (found0 : bool) (tree : list path * list path)
    (nodes : list node * list node) (d0 d1 : nat) (q : path) :
  sp_inv tree d0 d1 -> leaves_seen tree nodes ->
  (In q (sp_out (sp_round neighbors found0 tree nodes)) <->
   meeting (length (sel tree true) <? length (sel tree false)) d0 d1 q).
Proof.
  intros Hinv Hseen. unfold sp_round.
  set (modus := length (sel tree true) <? length (sel tree false)).
  clearbody modus. rewrite sp_visit_out. simpl app. rewrite in_flat_map. split.
  - intros [path_s [Hps Hq]]. apply in_flat_map in Hq.
    destruct Hq as [s [Hs Hq]]. apply sp_emit_In in Hq.
    destruct Hq as [Hn [_ Hq]]. apply sp_joined_In in Hq.
    destruct Hq as [path_t [Hpt [E [D ->]]]].
    exists path_s, s, path_t.
    split; [now apply Hinv|]. split; [assumption|]. split; [assumption|].
    split; [now apply Hinv|]. auto.
  - intros [path_s [s [path_t [Hws [Hs [Hn [Hwt [E [D ->]]]]]]]]].
    apply Hinv in Hws. apply Hinv in Hwt.
    exists path_s. split; [assumption|]. apply in_flat_map.
    exists s. split; [assumption|]. apply sp_emit_In.
    split; [assumption|]. split; [rewrite <- E; now apply Hseen|].
    apply sp_joined_In. exists path_t. auto.
Qed.

Lemma sp_round_multi_meets (found0 : bool) (tree : list path * list path)
    (d0 d1 : nat) (q : path) :
  sp_inv tree d0 d1 ->
  (In q (sp_out (sp_round_multi neighbors found0 tree)) <->
   meeting (length (sel tree true) <? length (sel tree false)) d0 d1 q).
Proof.
  intros Hinv. unfold sp_round_multi.
  set (modus := length (sel tree true) <? length (sel tree false)).
  clearbody modus. rewrite sp_visit_multi_out. simpl app.
  rewrite in_flat_map. split.
  - intros [path_s [Hps Hq]]. apply in_flat_map in Hq.
    destruct Hq as [s [Hs Hq]]. apply sp_emit_multi_In in Hq.
    destruct Hq as [Hn Hq]. apply sp_joined_In in Hq.
    destruct Hq as [path_t [Hpt [E [D ->]]]].
    exists path_s, s, path_t.
    split; [now apply Hinv|]. split; [assumption|]. split; [assumption|].
    split; [now apply Hinv|]. auto.
  - intros [path_s [s [path_t [Hws [Hs [Hn [Hwt [E [D ->]]]]]]]]].
    apply Hinv in Hws. apply Hinv in Hwt.
    exists path_s. split; [assumption|]. apply in_flat_map.
    exists s. split; [assumption|]. apply sp_emit_multi_In.
    split; [assumption|].
    apply sp_joined_In. exists path_t. auto.
Qed.

Lemma sp_round_inv (found0 : bool) (tree : list path * list path)
    (nodes : list node * list node) (d0 d1 : nat) :
  sp_inv tree d0 d1 ->
  let modus := length (sel tree true) <? length (sel tree false) in
  sp_inv (upd tree modus (sp_temp_tree (sp_round neighbors found0 tree nodes)))
         (fst (upd (d0, d1) modus (S (sel (d0, d1) modus))))
         (snd (upd (d0, d1) modus (S (sel (d0, d1) modus)))).
Proof.
  intros Hinv modus. apply sp_inv_upd; [assumption|].
  intro p. unfold sp_round. fold modus. rewrite sp_visit_temp. simpl.
  rewrite <- (extension_swalk tree d0 d1 modus p Hinv).
  split; [intros [[]|H]; exact H | intro H; right; exact H].
Qed.

Lemma sp_round_multi_inv (found0 : bool) (tree : list path * list path)
    (d0 d1 : nat) :
  sp_inv tree d0 d1 ->
  let modus := length (sel tree true) <? length (sel tree false) in
  sp_inv (upd tree modus (sp_temp_tree (sp_round_multi neighbors found0 tree)))
         (fst (upd (d0, d1) modus (S (sel (d0, d1) modus))))
         (snd (upd (d0, d1) modus (S (sel (d0, d1) modus)))).
Proof.
  intros Hinv modus. apply sp_inv_upd; [assumption|].
  intro p. unfold sp_round_multi. fold modus. rewrite sp_visit_multi_temp.
  simpl. rewrite <- (extension_swalk tree d0 d1 modus p Hinv).
  split; [intros [[]|H]; exact H | intro H; right; exact H].
Qed.

Lemma sp_round_seen (found0 : bool) (tree : list path * list path)
    (nodes : list node * list node) :
  leaves_seen tree nodes ->
  let modus := length (sel tree true) <? length (sel tree false) in
  let st := sp_round neighbors found0 tree nodes in
  leaves_seen (upd tree modus (sp_temp_tree st))
              (upd nodes modus (sp_nodes_source st)).
Proof.
  intros Hseen modus st side p. subst st. unfold sp_round. fold modus.
  clearbody modus.
  destruct (Bool.eqb side modus) eqn:E.
  - apply Bool.eqb_prop in E. subst side. rewrite !sel_upd_same.
    rewrite sp_visit_temp, sp_visit_nodes. simpl.
    intros [[]|[path_s [Hps [s [Hs [Hn ->]]]]]].
    right. exists path_s. split; [assumption|]. exists s.
    rewrite last_node_snoc. auto.
  - assert (Eside : side = negb modus)
      by (destruct side, modus; simpl in E; try reflexivity; discriminate).
    subst side. rewrite !sel_upd_other. apply Hseen.
Qed.

Lemma sp_round_found (found0 : bool) (tree : list path * list path)
    (nodes : list node * list node) :
  sp_found (sp_round neighbors found0 tree nodes) =
  found0 || truthy (sp_out (sp_round neighbors found0 tree nodes)).
Proof.
  unfold sp_round. apply sp_visit_found. simpl. now rewrite orb_false_r.
Qed.

Lemma sp_round_multi_found (found0 : bool) (tree : list path * list path) :
  sp_found (sp_round_multi neighbors found0 tree) =
  found0 || truthy (sp_out (sp_round_multi neighbors found0 tree)).
Proof.
  unfold sp_round_multi. apply sp_visit_multi_found. simpl.
  now rewrite orb_false_r.
Qed.

Lemma sp_round_NoDup (found0 : bool) (tree : list path * list path)
    (nodes : list node * list node) (d0 d1 : nat) :
  sp_inv tree d0 d1 ->
  (forall modus x, NoDup (neighbors modus x)) ->
  NoDup (fst tree) -> NoDup (snd tree) ->
  let modus := length (sel tree true) <? length (sel tree false) in
  let st := sp_round neighbors found0 tree nodes in
  NoDup (sp_out st) /\
  NoDup (fst (upd tree modus (sp_temp_tree st))) /\
  NoDup (snd (upd tree modus (sp_temp_tree st))).
Proof.
  intros Hinv Hnb H0 H1 modus st. subst st. unfold sp_round. fold modus.
  assert (Hsel : forall side, NoDup (sel tree side))
    by (intros [|]; assumption).
  assert (Htemp : NoDup (sp_temp_tree
            (fold_left (sp_visit_path neighbors modus (sel tree (negb modus))
                          (sel nodes (negb modus))) (sel tree modus)
               {| sp_found := found0; sp_out := [];
                  sp_nodes_source := sel nodes modus; sp_temp_tree := [] |})))
    by (apply sp_visit_temp_NoDup; constructor).
  split.
  - rewrite sp_visit_out. simpl app.
    apply sp_round_out_NoDup; auto.
    intros p p' Hp Hp'. apply Hinv in Hp, Hp'.
    destruct Hp as [_ [_ [_ ->]]]. destruct Hp' as [_ [_ [_ ->]]]. reflexivity.
  - clearbody modus. destruct modus; simpl in *; auto.
Qed.

End ShortestRoundSpec.

(** ** The all-shortest-paths engine: the loop *)

Section ShortestLoop.

Variable neighbors : bool -> node -> list node.
Variables source target : node.
Variable V : list node.

Hypothesis closed : forall modus u v, In v (neighbors modus u) -> In v V.
Hypothesis source_in : In source V.
Hypothesis target_in : In target V.

Local Abbreviation meeting := (meeting neighbors source target).
Local Abbreviation sp_inv := (sp_inv neighbors source target).
Local Abbreviation sp_loop := (sp_loop neighbors source target).
Local Abbreviation sp_loop_multi := (sp_loop_multi neighbors source target).

Lemma sp_loop_S (fuel : nat) (found0 : bool) (tree : list path * list path)
    (nodes : list node * list node) :
  sp_loop (S fuel) found0 tree nodes =
  if negb found0 && truthy (sel tree false) && truthy (sel tree true) then
    yield_then (sp_out (sp_round neighbors found0 tree nodes))
      (sp_loop fuel (sp_found (sp_round neighbors found0 tree nodes))
         (upd tree (length (sel tree true) <? length (sel tree false))
              (sp_temp_tree (sp_round neighbors found0 tree nodes)))
         (upd nodes (length (sel tree true) <? length (sel tree false))
              (sp_nodes_source (sp_round neighbors found0 tree nodes))))
  else if negb found0 then
    {| yielded := []; ending := Raise (NetworkXNoPath source target) |}
  else {| yielded := []; ending := Return tt |}.
Proof. reflexivity. Qed.

Lemma sp_loop_multi_S (fuel : nat) (found0 : bool)
    (tree : list path * list path) :
  sp_loop_multi (S fuel) found0 tree =
  if negb found0 && truthy (sel tree false) && truthy (sel tree true) then
    yield_then (sp_out (sp_round_multi neighbors found0 tree))
      (sp_loop_multi fuel (sp_found (sp_round_multi neighbors found0 tree))
         (upd tree (length (sel tree true) <? length (sel tree false))
              (sp_temp_tree (sp_round_multi neighbors found0 tree))))
  else if negb found0 then
    {| yielded := []; ending := Raise (NetworkXNoPath source target) |}
  else {| yielded := []; ending := Return tt |}.
Proof. reflexivity. Qed.

Lemma anchor_in (side : bool) : In (anchor source target side) V.
Proof. destruct side; assumption. Qed.

Lemma sp_inv_bound (tree : list path * list path) (d0 d1 : nat) (side : bool) :
  sp_inv tree d0 d1 -> truthy (sel tree side) = true ->
  S (sel (d0, d1) side) <= length V.
Proof.
  intros Hinv Ht. destruct (sel tree side) as [|p l] eqn:E; [discriminate|].
  assert (Hp : In p (sel tree side)) by (rewrite E; now left).
  apply Hinv in Hp.
  eapply swalk_bound; [apply closed | apply anchor_in | exact Hp].
Qed.

Variable Spec : nat -> path -> Prop.

Hypothesis Spec_meeting : forall modus d0 d1 q,
  meeting modus d0 d1 q <-> Spec (d0 + d1 + 1) q.

Hypothesis Spec_walk : forall L q side d,
  Spec L q -> d <= L ->
  exists p, swalk (neighbors side) (anchor source target side) d p.

Lemma sp_inv_empty (tree : list path * list path) (d0 d1 : nat) (side : bool) :
  sp_inv tree d0 d1 -> truthy (sel tree side) = false ->
  forall L q, d0 + d1 < L -> ~ Spec L q.
Proof.
  intros Hinv Ht L q HL HS. apply truthy_false in Ht.
  destruct (Spec_walk L q side (sel (d0, d1) side) HS) as [p Hp].
  - destruct side; simpl; lia.
  - apply Hinv in Hp. rewrite Ht in Hp. destruct Hp.
Qed.

Lemma sp_result_found (D : nat) (ys : list path) (g : generator) :
  (forall q, In q ys <-> Spec (D + 1) q) -> ys <> [] ->
  yielded g = [] -> ending g = Return tt ->
  sp_result source target Spec D (yield_then ys g).
Proof.
  intros Hys Hne Hg He. left. exists (D + 1). split; [lia|]. split; [|split].
  - intros L' q H1 H2. lia.
  - intro q. simpl. rewrite Hg, app_nil_r. apply Hys.
  - simpl. rewrite Hg, app_nil_r. auto.
Qed.

Lemma sp_result_next (D : nat) (g : generator) :
  (forall q, ~ Spec (D + 1) q) ->
  sp_result source target Spec (S D) g ->
  sp_result source target Spec D (yield_then [] g).
Proof.
  intros Hno [[L [HL [Hmin [Hy [Hne He]]]]]|[Hnone [Hy He]]].
  - left. exists L. split; [lia|]. split; [|auto].
    intros L' q H1 H2. destruct (Nat.eq_dec L' (D + 1)) as [->|Hd].
    + apply Hno.
    + apply Hmin; lia.
  - right. split; [|auto].
    intros L' q H1. destruct (Nat.eq_dec L' (D + 1)) as [->|Hd].
    + apply Hno.
    + apply Hnone; lia.
Qed.

Lemma sp_result_none (D : nat) :
  (forall L q, D < L -> ~ Spec L q) ->
  sp_result source target Spec D
    {| yielded := []; ending := Raise (NetworkXNoPath source target) |}.
Proof. intro H. right. auto. Qed.

Lemma depth_bound (d0 d1 : nat) (modus : bool) :
  S (sel (d0, d1) modus) <= length V -> d0 <= length V -> d1 <= length V ->
  fst (upd (d0, d1) modus (S (sel (d0, d1) modus))) <= length V /\
  snd (upd (d0, d1) modus (S (sel (d0, d1) modus))) <= length V.
Proof. destruct modus; simpl; lia. Qed.

Theorem sp_loop_spec (fuel : nat) :
  forall tree nodes d0 d1,
    sp_inv tree d0 d1 -> leaves_seen tree nodes ->
    d0 <= length V -> d1 <= length V ->
    2 * length V + 2 <= fuel + d0 + d1 ->
    sp_result source target Spec (d0 + d1) (sp_loop fuel false tree nodes).
Proof.
  induction fuel as [|f IH]; intros tree nodes d0 d1 Hinv Hseen H0 H1 Hf.
  - lia.
  - rewrite sp_loop_S. simpl negb. cbn [andb].
    destruct (truthy (sel tree false)) eqn:E0;
      [destruct (truthy (sel tree true)) eqn:E1|]; cbn [andb].
    + assert (B0 := sp_inv_bound tree d0 d1 false Hinv E0).
      assert (B1 := sp_inv_bound tree d0 d1 true Hinv E1).
      simpl in B0, B1.
      set (modus := length (sel tree true) <? length (sel tree false)).
      assert (Hm := fun q => sp_round_meets neighbors source target false
                              tree nodes d0 d1 q Hinv Hseen).
      assert (Hinv' := sp_round_inv neighbors source target false tree nodes
                         d0 d1 Hinv).
      assert (Hseen' := sp_round_seen neighbors false tree nodes Hseen).
      assert (Hfound := sp_round_found neighbors false tree nodes).
      fold modus in Hm, Hinv', Hseen'. cbv zeta in Hinv', Hseen'.
      set (st := sp_round neighbors false tree nodes) in *.
      assert (Hys : forall q, In q (sp_out st) <-> Spec (d0 + d1 + 1) q).
      { intro q. rewrite Hm. apply Spec_meeting. }
      destruct (depth_bound d0 d1 modus) as [B0' B1']; auto.
      { destruct modus; simpl; lia. }
      simpl orb in Hfound.
      destruct (sp_out st) as [|y ys] eqn:Eout.
      * simpl in Hfound. rewrite Hfound.
        apply sp_result_next.
        -- intros q HS. apply Hys in HS. destruct HS.
        -- rewrite <- depth_sum with (modus := modus).
           apply IH; auto. pose proof (depth_sum d0 d1 modus). lia.
      * simpl in Hfound. rewrite Hfound.
        destruct f as [|f']; [lia|]. rewrite sp_loop_S. simpl negb. cbn [andb].
        apply sp_result_found; auto. discriminate.
    + apply sp_result_none. eapply sp_inv_empty; eassumption.
    + apply sp_result_none. eapply sp_inv_empty; eassumption.
Qed.

Theorem sp_loop_multi_spec (fuel : nat) :
  forall tree d0 d1,
    sp_inv tree d0 d1 ->
    d0 <= length V -> d1 <= length V ->
    2 * length V + 2 <= fuel + d0 + d1 ->
    sp_result source target Spec (d0 + d1) (sp_loop_multi fuel false tree).
Proof.
  induction fuel as [|f IH]; intros tree d0 d1 Hinv H0 H1 Hf.
  - lia.
  - rewrite sp_loop_multi_S. simpl negb. cbn [andb].
    destruct (truthy (sel tree false)) eqn:E0;
      [destruct (truthy (sel tree true)) eqn:E1|]; cbn [andb].
    + assert (B0 := sp_inv_bound tree d0 d1 false Hinv E0).
      assert (B1 := sp_inv_bound tree d0 d1 true Hinv E1).
      simpl in B0, B1.
      set (modus := length (sel tree true) <? length (sel tree false)).
      assert (Hm := fun q => sp_round_multi_meets neighbors source target false
                              tree d0 d1 q Hinv).
      assert (Hinv' := sp_round_multi_inv neighbors source target false tree
                         d0 d1 Hinv).
      assert (Hfound := sp_round_multi_found neighbors false tree).
      fold modus in Hm, Hinv'. cbv zeta in Hinv'.
      set (st := sp_round_multi neighbors false tree) in *.
      assert (Hys : forall q, In q (sp_out st) <-> Spec (d0 + d1 + 1) q).
      { intro q. rewrite Hm. apply Spec_meeting. }
      destruct (depth_bound d0 d1 modus) as [B0' B1']; auto.
      { destruct modus; simpl; lia. }
      simpl orb in Hfound.
      destruct (sp_out st) as [|y ys] eqn:Eout.
      * simpl in Hfound. rewrite Hfound.
        apply sp_result_next.
        -- intros q HS. apply Hys in HS. destruct HS.
        -- rewrite <- depth_sum with (modus := modus).
           apply IH; auto. pose proof (depth_sum d0 d1 modus). lia.
      * simpl in Hfound. rewrite Hfound.
        destruct f as [|f']; [lia|]. rewrite sp_loop_multi_S.
        simpl negb. cbn [andb].
        apply sp_result_found; auto. discriminate.
    + apply sp_result_none. eapply sp_inv_empty; eassumption.
    + apply sp_result_none. eapply sp_inv_empty; eassumption.
Qed.

End ShortestLoop.

Section ShortestNoDup.

Variable neighbors : bool -> node -> list node.
Variables source target : node.

Local Abbreviation sp_inv := (sp_inv neighbors source target).
Local Abbreviation sp_loop := (sp_loop neighbors source target).

Lemma sp_inv_init : sp_inv ([[source]], [[target]]) 0 0.
Proof.
  intros side p. destruct side; simpl; rewrite swalk_init;
    (split; [intros [<-|[]]; reflexivity | intros ->; now left]).
Qed.

Lemma leaves_seen_init : leaves_seen ([[source]], [[target]]) ([source], [target]).
Proof. intros side p. destruct side; simpl; intros [<-|[]]; now left. Qed.

Lemma sp_loop_found_nil (fuel : nat) (tree : list path * list path)
    (nodes : list node * list node) :
  yielded (sp_loop fuel true tree nodes) = [].
Proof. destruct fuel; reflexivity. Qed.

Hypothesis keys : forall modus x, NoDup (neighbors modus x).

Lemma sp_loop_NoDup (fuel : nat) :
  forall found0 tree nodes d0 d1,
    sp_inv tree d0 d1 -> NoDup (fst tree) -> NoDup (snd tree) ->
    NoDup (yielded (sp_loop fuel found0 tree nodes)).
Proof.
  induction fuel as [|f IH]; intros found0 tree nodes d0 d1 Hinv H0 H1.
  - constructor.
  - rewrite sp_loop_S.
    destruct (negb found0 && truthy (sel tree false) && truthy (sel tree true))
      eqn:C.
    + destruct (sp_round_NoDup neighbors source target found0 tree nodes d0 d1
                  Hinv keys H0 H1) as [Hout [H0' H1']].
      assert (Hinv' := sp_round_inv neighbors source target found0 tree nodes
                         d0 d1 Hinv). cbv zeta in Hinv'.
      assert (Hfound := sp_round_found neighbors found0 tree nodes).
      set (st := sp_round neighbors found0 tree nodes) in *.
      simpl yielded.
      destruct (sp_out st) as [|y ys] eqn:Eout.
      * simpl. eapply IH; eassumption.
      * rewrite orb_true_r in Hfound. rewrite Hfound, sp_loop_found_nil.
        now rewrite app_nil_r.
    + destruct (negb found0); constructor.
Qed.

End ShortestNoDup.

(** ** The reachability engine: one round *)

Lemma scan_neighbors_None (nodes_s leaves_t ss temp : list node) :
  scan_neighbors nodes_s leaves_t ss temp = None ->
  exists s, In s ss /\ ~ In s nodes_s /\ In s leaves_t.
Proof.
  revert temp. induction ss as [|s ss IH]; simpl; intros temp H; [discriminate|].
  destruct (mem s nodes_s) eqn:E; simpl in H.
  - destruct (IH _ H) as [x [H1 H2]]. exists x. auto.
  - apply mem_not_In in E. destruct (mem s leaves_t) eqn:E'.
    + apply mem_In in E'. exists s. auto.
    + destruct (IH _ H) as [x [H1 H2]]. exists x. auto.
Qed.

Lemma scan_neighbors_Some (nodes_s leaves_t ss temp temp' : list node) :
  scan_neighbors nodes_s leaves_t ss temp = Some temp' ->
  (forall x, In x temp' <-> In x temp \/ (In x ss /\ ~ In x nodes_s)) /\
  (forall x, In x ss -> ~ In x nodes_s -> ~ In x leaves_t) /\
  (NoDup temp -> NoDup temp').
Proof.
  revert temp. induction ss as [|s ss IH]; simpl; intros temp H.
  - injection H as <-. split; [intro x; tauto|]. split; [intros x []|auto].
  - destruct (mem s nodes_s) eqn:E; simpl in H.
    + apply mem_In in E. destruct (IH _ H) as [H1 [H2 H3]].
      split; [|split; [|assumption]].
      * intro x. rewrite H1. split; [tauto|].
        intros [Hx|[[<-|Hx] Hn]]; tauto.
      * intros x [<-|Hx] Hn; [contradiction | auto].
    + apply mem_not_In in E. destruct (mem s leaves_t) eqn:E'; [discriminate|].
      apply mem_not_In in E'. destruct (IH _ H) as [H1 [H2 H3]].
      split; [|split].
      * intro x. rewrite H1, add_node_In. split.
        -- intros [[->|Hx]|[Hx Hn]]; auto.
        -- intros [Hx|[[<-|Hx] Hn]]; auto.
      * intros x [<-|Hx] Hn; auto.
      * intro Hnd. apply H3. unfold add_node. now apply set_add_nodup.
Qed.

Section HasPathRound.

Variable neighbors : bool -> node -> list node.

Lemma scan_leaves_None (modus : bool) (nodes_s leaves_t ls temp : list node) :
  scan_leaves neighbors modus nodes_s leaves_t ls temp = None ->
  exists leave s, In leave ls /\ In s (neighbors modus leave) /\
                  ~ In s nodes_s /\ In s leaves_t.
Proof.
  revert temp. induction ls as [|leave ls IH]; simpl; intros temp H;
    [discriminate|].
  destruct (scan_neighbors nodes_s leaves_t (neighbors modus leave) temp)
    as [temp'|] eqn:E.
  - destruct (IH _ H) as [l [s [H1 H2]]]. exists l, s. auto.
  - apply scan_neighbors_None in E. destruct E as [s [H1 H2]].
    exists leave, s. auto.
Qed.

Lemma scan_leaves_Some (modus : bool) (nodes_s leaves_t ls temp temp' : list node) :
  scan_leaves neighbors modus nodes_s leaves_t ls temp = Some temp' ->
  (forall x, In x temp' <->
             In x temp \/
             exists leave, In leave ls /\ In x (neighbors modus leave) /\
                           ~ In x nodes_s) /\
  (forall leave x, In leave ls -> In x (neighbors modus leave) ->
                   ~ In x nodes_s -> ~ In x leaves_t) /\
  (NoDup temp -> NoDup temp').
Proof.
  revert temp. induction ls as [|leave ls IH]; simpl; intros temp H.
  - injection H as <-. split.
    + intro x. split; [tauto | intros [Hx|[l [[] _]]]; assumption].
    + split; [intros l x []|auto].
  - destruct (scan_neighbors nodes_s leaves_t (neighbors modus leave) temp)
      as [temp1|] eqn:E; [|discriminate].
    apply scan_neighbors_Some in E. destruct E as [E1 [E2 E3]].
    destruct (IH _ H) as [H1 [H2 H3]]. split; [|split].
    + intro x. rewrite H1, E1. split.
      * intros [[Hx|[Hx Hn]]|[l [Hl Hx]]].
        -- now left.
        -- right. exists leave. auto.
        -- right. exists l. tauto.
      * intros [Hx|[l [[<-|Hl] [Hx Hn]]]].
        -- left. now left.
        -- left. right. auto.
        -- right. exists l. auto.
    + intros l x [<-|Hl]; eauto.
    + auto.
Qed.

End HasPathRound.

(** ** The reachability engine: the loop *)

Lemma chain_closed (R : node -> node -> Prop) (P : node -> Prop) (p : path) :
  (forall u v, P u -> R u v -> P v) ->
  forall x, P x -> chain R (x :: p) -> forall y, In y (x :: p) -> P y.
Proof.
  intro HR. induction p as [|z p IH]; intros x Hx Hc y Hy.
  - destruct Hy as [<-|[]]. assumption.
  - destruct Hy as [<-|Hy]; [assumption|].
    apply chain_cons2 in Hc. destruct Hc as [Hxz Hc].
    apply (IH z); eauto.
Qed.

Lemma last_node_In (p : path) : p <> [] -> In (last_node p) p.
Proof.
  intro Hp. destruct (exists_last Hp) as [q [z ->]].
  rewrite last_node_snoc. apply in_or_app. right. now left.
Qed.

Lemma walk_to_closed (nbrs : node -> list node) (P : node -> Prop) (a x : node) :
  (forall u v, P u -> In v (nbrs u) -> P v) -> P a -> walk_to nbrs a x -> P x.
Proof.
  intros Hcl Ha [p [Hh [Hl Hc]]].
  destruct p as [|b p]; [discriminate|]. simpl in Hh. injection Hh as ->.
  subst x. apply (chain_closed (steps nbrs) P p Hcl a Ha Hc).
  apply last_node_In. discriminate.
Qed.

Lemma walk_to_link (nbrs : node -> list node) (a x y z : node) :
  walk_to nbrs a x -> In y (nbrs x) -> walk_to nbrs y z -> walk_to nbrs a z.
Proof.
  intros [p [Hh [Hl Hc]]] Hxy [q [Hh' [Hl' Hc']]].
  assert (Hp : p <> []) by (eapply hd_error_nonempty; eassumption).
  assert (Hq : q <> []) by (eapply hd_error_nonempty; eassumption).
  exists (p ++ q). split; [now rewrite hd_error_app|].
  split; [now rewrite last_node_app|].
  apply chain_app; auto. split; [assumption|]. split; [|assumption].
  rewrite Hl, (hd_error_hd q y Hh'). exact Hxy.
Qed.

Lemma walk_to_snoc (nbrs : node -> list node) (a x y : node) :
  walk_to nbrs a x -> In y (nbrs x) -> walk_to nbrs a y.
Proof.
  intros H Hxy. apply (walk_to_link nbrs a x y y H Hxy).
  exists [y]. repeat split.
Qed.

Section HasPathLoop.

Variable neighbors : bool -> node -> list node.
Variables source target : node.
Variable V : list node.

Hypothesis closed : forall modus u v, In v (neighbors modus u) -> In v V.
Hypothesis backward : forall u v,
  In u (neighbors true v) <-> In v (neighbors false u).
Hypothesis source_in : In source V.
Hypothesis target_in : In target V.

Local Abbreviation hp_inv := (hp_inv neighbors source target V).
Local Abbreviation linked := (walk_to (neighbors false) source target).

Lemma backward_side (modus : bool) (u v : node) :
  In v (neighbors modus u) <-> In u (neighbors (negb modus) v).
Proof. destruct modus; simpl; [apply backward | symmetry; apply backward]. Qed.

Lemma walk_to_rev (side : bool) (a x : node) :
  walk_to (neighbors side) a x -> walk_to (neighbors (negb side)) x a.
Proof.
  intros [p [Hh [Hl Hc]]].
  assert (Hp : p <> []) by (eapply hd_error_nonempty; eassumption).
  exists (rev p). split; [rewrite hd_error_rev by assumption; now f_equal|].
  split; [rewrite last_node_rev; now apply hd_error_hd|].
  rewrite chain_rev. revert Hc. apply chain_impl. unfold steps.
  intros u v. apply backward_side.
Qed.

Lemma hp_init :
  source <> target -> hp_inv ([source], [target]) ([source], [target]).
Proof.
  intro Hne. split.
  - intros side x Hx. exact Hx.
  - intros [|] x [<-|[]]; assumption.
  - intros [|]; simpl; (constructor; [simpl; tauto | constructor]).
  - intros [|] x [<-|[]]; simpl; eexists [_]; repeat split.
  - simpl. intros x [<-|[]] [E|[]]. congruence.
  - intros [|] x y Hx Hn; contradiction.
  - intros [|]; simpl; auto.
Qed.

Lemma hp_true (leaves nodes : list node * list node) (modus : bool)
    (leave s : node) :
  hp_inv leaves nodes ->
  In leave (sel leaves modus) -> In s (neighbors modus leave) ->
  In s (sel leaves (negb modus)) -> linked.
Proof.
  intros Hinv Hl Hs Ht.
  assert (W1 := hp_conn Hinv modus leave (hp_leaves Hinv modus leave Hl)).
  assert (W2 := hp_conn Hinv (negb modus) s (hp_leaves Hinv (negb modus) s Ht)).
  destruct modus; simpl in *.
  - apply walk_to_rev in W1. simpl in W1.
    apply (walk_to_link _ source s leave target W2); [|assumption].
    now apply backward.
  - apply walk_to_rev in W2. simpl in W2.
    apply (walk_to_link _ source leave s target W1); assumption.
Qed.

Lemma hp_false (leaves nodes : list node * list node) (side : bool) :
  hp_inv leaves nodes -> sel leaves side = [] -> ~ linked.
Proof.
  intros Hinv He W.
  assert (Hcl : forall u v, In u (sel nodes side) ->
                            In v (neighbors side u) -> In v (sel nodes side)).
  { intros u v Hu Hv. apply (hp_closed Hinv side u v); auto.
    rewrite He. intros []. }
  destruct side.
  - apply (walk_to_rev false) in W. simpl in W.
    apply (walk_to_closed _ (fun x => In x (sel nodes true)) _ _ Hcl) in W.
    + apply (hp_disj Hinv source); [apply (hp_anchor Hinv false) | exact W].
    + apply (hp_anchor Hinv true).
  - apply (walk_to_closed _ (fun x => In x (sel nodes false)) _ _ Hcl) in W.
    + apply (hp_disj Hinv target); [exact W | apply (hp_anchor Hinv true)].
    + apply (hp_anchor Hinv false).
Qed.

Lemma side_cases (side modus : bool) : side = modus \/ side = negb modus.
Proof. destruct side, modus; auto. Qed.

Lemma hp_step (leaves nodes : list node * list node) (modus : bool)
    (temp : list node) :
  hp_inv leaves nodes ->
  scan_leaves neighbors modus (sel nodes modus) (sel leaves (negb modus))
              (sel leaves modus) [] = Some temp ->
  hp_inv (upd leaves modus temp)
         (upd nodes modus (update (sel nodes modus) temp)).
Proof.
  intros Hinv Hscan. apply scan_leaves_Some in Hscan.
  destruct Hscan as [Htemp [Hmiss Hnd]].
  assert (Htemp' : forall x, In x temp <->
            exists leave, In leave (sel leaves modus) /\
                          In x (neighbors modus leave) /\
                          ~ In x (sel nodes modus)).
  { intro x. rewrite Htemp. split; [intros [[]|H]; exact H | auto]. }
  clear Htemp. split.
  - intro side. destruct (side_cases side modus) as [-> | ->].
    + rewrite !sel_upd_same. intros x Hx. apply update_In. now right.
    + rewrite !sel_upd_other. apply (hp_leaves Hinv).
  - intro side. destruct (side_cases side modus) as [-> | ->].
    + rewrite sel_upd_same. intros x Hx. apply update_In in Hx.
      destruct Hx as [Hx|Hx]; [now apply (hp_nodes Hinv modus)|].
      apply Htemp' in Hx. destruct Hx as [l [_ [Hx _]]]. eapply closed; eauto.
    + rewrite sel_upd_other. apply (hp_nodes Hinv).
  - intro side. destruct (side_cases side modus) as [-> | ->].
    + rewrite sel_upd_same. apply update_NoDup; [apply (hp_nodup Hinv)|].
      apply Hnd. constructor.
    + rewrite sel_upd_other. apply (hp_nodup Hinv).
  - intros side x. destruct (side_cases side modus) as [-> | ->].
    + rewrite sel_upd_same. intro Hx. apply update_In in Hx.
      destruct Hx as [Hx|Hx]; [now apply (hp_conn Hinv)|].
      apply Htemp' in Hx. destruct Hx as [l [Hl [Hx _]]].
      apply walk_to_snoc with (x := l); [|assumption].
      apply (hp_conn Hinv). now apply (hp_leaves Hinv).
    + rewrite sel_upd_other. apply (hp_conn Hinv).
  - assert (Hnew : forall x, In x temp -> ~ In x (sel nodes (negb modus))).
    { intros x Hx Hx'. assert (Hx2 := Hx). apply Htemp' in Hx2.
      destruct Hx2 as [l [Hl [Hxl Hn]]].
      assert (Hnl : ~ In x (sel leaves (negb modus))) by (eapply Hmiss; eauto).
      assert (Hl' : In l (sel nodes (negb modus))).
      { apply (hp_closed Hinv (negb modus) x l Hx' Hnl).
        now apply backward_side in Hxl. }
      assert (Hl2 := hp_leaves Hinv modus l Hl).
      destruct modus; simpl in *.
      - apply (hp_disj Hinv l); assumption.
      - apply (hp_disj Hinv l); assumption. }
    intros x H0 H1. destruct modus; simpl in *.
    + apply update_In in H1. destruct H1 as [H1|H1].
      * apply (hp_disj Hinv x); assumption.
      * apply (Hnew x); assumption.
    + apply update_In in H0. destruct H0 as [H0|H0].
      * apply (hp_disj Hinv x); assumption.
      * apply (Hnew x); assumption.
  - intros side x y. destruct (side_cases side modus) as [-> | ->].
    + rewrite !sel_upd_same. intros Hx Hn Hy. apply update_In.
      apply update_In in Hx. destruct Hx as [Hx|Hx]; [|contradiction].
      destruct (in_dec Nat.eq_dec y (sel nodes modus)) as [Hy'|Hy'];
        [now left|].
      destruct (in_dec Nat.eq_dec x (sel leaves modus)) as [Hxl|Hxl].
      * right. apply Htemp'. exists x. auto.
      * left. apply (hp_closed Hinv modus x y); assumption.
    + rewrite !sel_upd_other. apply (hp_closed Hinv).
  - intro side. destruct (side_cases side modus) as [-> | ->].
    + rewrite sel_upd_same. apply update_In. left. apply (hp_anchor Hinv).
    + rewrite sel_upd_other. apply (hp_anchor Hinv).
Qed.

Lemma hp_grow (leaves nodes : list node * list node) (modus : bool)
    (temp : list node) (x : node) :
  hp_inv leaves nodes ->
  scan_leaves neighbors modus (sel nodes modus) (sel leaves (negb modus))
              (sel leaves modus) [] = Some temp ->
  In x temp ->
  length (sel nodes modus) < length (update (sel nodes modus) temp).
Proof.
  intros Hinv Hscan Hx. assert (Hinv' := hp_step _ _ _ _ Hinv Hscan).
  apply scan_leaves_Some in Hscan. destruct Hscan as [Htemp _].
  apply Htemp in Hx. destruct Hx as [[]|[l [Hl [Hxl Hn]]]].
  assert (Hnd := hp_nodup Hinv' modus). rewrite sel_upd_same in Hnd.
  apply (NoDup_incl_length (l := x :: sel nodes modus)).
  - constructor; [assumption | apply (hp_nodup Hinv)].
  - intros y [<-|Hy]; apply update_In.
    + right. apply Htemp. right. exists l. auto.
    + now left.
Qed.

Lemma has_path_loop_S (fuel : nat) (leaves nodes : list node * list node) :
  has_path_loop neighbors (S fuel) leaves nodes =
  if truthy (sel leaves false) && truthy (sel leaves true) then
    match scan_leaves neighbors
            (length (sel leaves true) <? length (sel leaves false))
            (sel nodes (length (sel leaves true) <? length (sel leaves false)))
            (sel leaves
               (negb (length (sel leaves true) <? length (sel leaves false))))
            (sel leaves (length (sel leaves true) <? length (sel leaves false)))
            [] with
    | None => Return true
    | Some temp =>
        has_path_loop neighbors fuel
          (upd leaves (length (sel leaves true) <? length (sel leaves false))
               temp)
          (upd nodes (length (sel leaves true) <? length (sel leaves false))
               (update
                  (sel nodes
                     (length (sel leaves true) <? length (sel leaves false)))
                  temp))
    end
  else Return false.
Proof. reflexivity. Qed.

Lemma hp_size (leaves nodes : list node * list node) (side : bool) :
  hp_inv leaves nodes -> length (sel nodes side) <= length V.
Proof.
  intro Hinv. apply NoDup_incl_length;
    [apply (hp_nodup Hinv) | apply (hp_nodes Hinv)].
Qed.

(** With enough fuel the loop returns, and it returns [True] exactly when
    the target can be reached from the source. *)
Theorem has_path_loop_spec (fuel : nat) :
  forall leaves nodes,
    hp_inv leaves nodes ->
    2 * length V + 2 <= fuel + length (fst nodes) + length (snd nodes) ->
    exists b, has_path_loop neighbors fuel leaves nodes = Return b /\
              (b = true <-> linked).
Proof.
  induction fuel as [|f IH]; intros leaves nodes Hinv Hf.
  - pose proof (hp_size leaves nodes false Hinv).
    pose proof (hp_size leaves nodes true Hinv). simpl in *. lia.
  - rewrite has_path_loop_S.
    destruct (truthy (sel leaves false)) eqn:E0;
      [destruct (truthy (sel leaves true)) eqn:E1|]; cbn [andb].
    + set (modus := length (sel leaves true) <? length (sel leaves false)).
      clearbody modus.
      destruct (scan_leaves neighbors modus (sel nodes modus)
                  (sel leaves (negb modus)) (sel leaves modus) [])
        as [temp|] eqn:Hscan.
      * assert (Hinv' := hp_step leaves nodes modus temp Hinv Hscan).
        destruct temp as [|x temp'].
        -- destruct f as [|f'].
           { pose proof (hp_size leaves nodes false Hinv).
             pose proof (hp_size leaves nodes true Hinv). simpl in *. lia. }
           rewrite has_path_loop_S.
           assert (C : truthy (sel (upd leaves modus []) false) &&
                       truthy (sel (upd leaves modus []) true) = false).
           { destruct modus; simpl; [apply andb_false_r | reflexivity]. }
           rewrite C. exists false. split; [reflexivity|].
           split; [discriminate|]. intro W. exfalso.
           apply (hp_false _ _ modus Hinv'); [apply sel_upd_same | exact W].
        -- apply IH; [exact Hinv'|].
           pose proof (hp_grow leaves nodes modus (x :: temp') x Hinv Hscan
                         (or_introl eq_refl)).
           destruct modus; simpl in *; lia.
      * apply scan_leaves_None in Hscan.
        destruct Hscan as [leave [s [Hl [Hs [_ Ht]]]]].
        exists true. split; [reflexivity|]. split; [|intros _; reflexivity].
        intros _. exact (hp_true leaves nodes modus leave s Hinv Hl Hs Ht).
    + exists false. split; [reflexivity|]. split; [discriminate|].
      intro W. exfalso. apply truthy_false in E1.
      apply (hp_false _ _ true Hinv E1 W).
    + exists false. split; [reflexivity|]. split; [discriminate|].
      intro W. exfalso. apply truthy_false in E0.
      apply (hp_false _ _ false Hinv E0 W).
Qed.

End HasPathLoop.

(** ** Paths of a graph *)

(** Cutting the cycles out of a walk: a walk that repeats a node has a
    strictly shorter walk between the same ends. *)
Lemma simplify_walk (R : node -> node -> Prop) (n : nat) :
  forall q x, length q <= n -> chain R (x :: q) ->
  exists p, chain R (x :: p) /\ last_node (x :: p) = last_node (x :: q) /\
            NoDup (x :: p) /\ incl p q /\ (p = q \/ length p < length q).
Proof.
  induction n as [|n IH]; intros q x Hn Hc.
  - destruct q; [|simpl in Hn; lia].
    exists []. repeat split; auto.
    + constructor; [simpl; tauto | constructor].
    + intros y [].
  - destruct (in_dec Nat.eq_dec x q) as [Hin|Hnotin].
    + apply in_split in Hin. destruct Hin as [q1 [q2 ->]].
      rewrite length_app in Hn. simpl in Hn.
      assert (Hc2 : chain R (x :: q2))
        by (apply (chain_app_r R (x :: q1) (x :: q2)); exact Hc).
      assert (Hn2 : length q2 <= n) by lia.
      destruct (IH q2 x Hn2 Hc2) as [p [H1 [H2 [H3 [H4 H5]]]]].
      exists p. split; [assumption|]. split; [|split; [assumption|split]].
      * rewrite H2. symmetry.
        apply (last_node_app (x :: q1) (x :: q2)). discriminate.
      * intros y Hy. apply in_or_app. right. right. auto.
      * right. rewrite length_app. simpl. unfold node in *.
        destruct H5 as [->|H5]; lia.
    + destruct q as [|y q'].
      * exists []. repeat split; auto.
        -- constructor; [simpl; tauto | constructor].
        -- intros z [].
      * apply chain_cons2 in Hc. destruct Hc as [Hxy Hc].
        simpl in Hn.
        assert (Hn2 : length q' <= n) by lia.
        destruct (IH q' y Hn2 Hc) as [p [H1 [H2 [H3 [H4 H5]]]]].
        exists (y :: p). split; [apply chain_cons2; auto|].
        split; [exact H2|]. split; [|split].
        -- constructor; [|assumption].
           intros [E|Hx]; apply Hnotin; [now left | right; auto].
        -- intros z [<-|Hz]; [now left | right; auto].
        -- destruct H5 as [->|H5]; [now left | right; simpl; lia].
Qed.

Lemma is_path_simplify (G : Graph) (s t : node) (q : path) :
  is_path G s t q ->
  exists p, simple_path G s t p /\ (p = q \/ length p < length q).
Proof.
  intros [Hh [Hl Hc]]. destruct q as [|x q]; [discriminate|].
  simpl in Hh. injection Hh as ->.
  destruct (simplify_walk (edge G) (length q) q s (le_n _) Hc)
    as [p [H1 [H2 [H3 [_ H5]]]]].
  exists (s :: p). split.
  - split; [|assumption]. split; [reflexivity|]. split; [congruence|assumption].
  - destruct H5 as [->|H5]; [now left | right; simpl; lia].
Qed.

Lemma reachable_walk_to (G : Graph) (s t : node) :
  reachable G s t <-> walk_to (neighbors_of G false) s t.
Proof. reflexivity. Qed.

Lemma simple_path_spath (G : Graph) (s t : node) (p : path) :
  simple_path G s t p <-> exists L, spath (neighbors_of G) s t L p.
Proof.
  split.
  - intros [[Hh [Hl Hc]] Hnd]. exists (length p - 1).
    split; [|exact Hc]. repeat split; auto.
    destruct p; [discriminate | simpl; lia].
  - intros [L [[Hh [Hl [Hnd _]]] Hc]]. split; [|assumption].
    split; [assumption|]. split; assumption.
Qed.

Lemma spath_ends (neighbors : bool -> node -> list node) (s t : node)
    (L : nat) (p : path) :
  spath neighbors s t L p -> s <> t -> 0 < L.
Proof.
  intros [[Hh [Hl [_ Hlen]]] _] Hne. destruct L; [|lia].
  destruct p as [|x [|y p]]; simpl in *; try discriminate.
  unfold last_node in Hl. simpl in Hl. congruence.
Qed.

Lemma shape_loop (s : node) (L : nat) (p : path) :
  0 < L -> ~ shape s s L p.
Proof.
  intros HL [Hh [Hl [Hnd Hlen]]].
  destruct p as [|x p]; [discriminate|]. simpl in Hh. injection Hh as ->.
  inversion Hnd as [|? ? Hnotin _]; subst. apply Hnotin.
  destruct p as [|y p]; [simpl in Hlen; lia|].
  change (last_node (s :: y :: p)) with (last_node (y :: p)) in Hl.
  rewrite <- Hl. apply last_node_In. discriminate.
Qed.

Section ShortestReference.

Variable G : Graph.
Variables s t : node.
Hypothesis distinct : s <> t.

Local Abbreviation spath := (spath (neighbors_of G) s t).

(** The first non-empty level of simple paths is the set of shortest
    paths. *)
Lemma first_level_shortest (L : nat) :
  (forall L' q, 0 < L' -> L' < L -> ~ spath L' q) ->
  (exists q, spath L q) ->
  forall p, spath L p <-> shortest_path G s t p.
Proof.
  intros Hmin [q0 Hq0].
  assert (Hfwd : forall p, spath L p -> shortest_path G s t p).
  { intros p Hp. split.
    - destruct Hp as [[Hh [Hl _]] Hc]. split; [assumption|]. split; assumption.
    - intros q Hq. apply is_path_simplify in Hq.
      destruct Hq as [q' [Hq' Hlen]].
      apply simple_path_spath in Hq'. destruct Hq' as [L' Hq'].
      assert (HL' : 0 < L') by (eapply spath_ends; eassumption).
      assert (L <= L').
      { destruct (le_lt_dec L L') as [?|Hlt]; [assumption|].
        elim (Hmin L' q' HL' Hlt Hq'). }
      destruct Hp as [[_ [_ [_ Hp]]] _]. destruct Hq' as [[_ [_ [_ Hq']]] _].
      destruct Hlen as [<-|Hlen]; lia. }
  intro p. split; [apply Hfwd|].
  intros [Hp Hleast].
  destruct (is_path_simplify G s t p Hp) as [p' [Hp' [->|Hlt]]].
  - apply simple_path_spath in Hp'. destruct Hp' as [L' Hp'].
    assert (E : L' = L).
    { destruct (Hfwd q0 Hq0) as [Hq0p Hq0least].
      assert (H1 := Hleast q0 Hq0p). assert (H2 := Hq0least p Hp).
      destruct Hp' as [[_ [_ [_ Hp']]] _]. destruct Hq0 as [[_ [_ [_ Hq0]]] _].
      lia. }
    now subst L'.
  - destruct Hp' as [Hp' _]. apply Hleast in Hp'. lia.
Qed.

Lemma no_level_unreachable :
  (forall L' q, 0 < L' -> ~ spath L' q) <-> ~ reachable G s t.
Proof.
  split.
  - intros Hnone [q Hq]. apply is_path_simplify in Hq.
    destruct Hq as [p [Hp _]]. apply simple_path_spath in Hp.
    destruct Hp as [L Hp]. apply (Hnone L p); [|assumption].
    eapply spath_ends; eassumption.
  - intros Hnr L' q _ [[Hh [Hl _]] Hc]. apply Hnr. exists q.
    split; [assumption|]. split; assumption.
Qed.

End ShortestReference.

(** ** The engines on a graph *)

Lemma contains_In (G : Graph) (n : node) :
  contains G n = true <-> In n (node_list G).
Proof. apply mem_In. Qed.

Lemma neighbors_of_multi (G : Graph) :
  is_multigraph G = true -> neighbors_of G = neighbors_multi G.
Proof. intro E. unfold neighbors_of. now rewrite E. Qed.

Lemma neighbors_of_simple (G : Graph) :
  is_multigraph G = false -> neighbors_of G = neighbors_simple G.
Proof. intro E. unfold neighbors_of. now rewrite E. Qed.

Lemma has_path_dispatch (fuel : nat) (G : Graph) (source target : node) :
  contains G source = true -> contains G target = true ->
  bidirectional_has_path fuel G source target =
  has_path_engine (neighbors_of G) fuel source target.
Proof.
  intros Hs Ht. unfold bidirectional_has_path. rewrite Hs, Ht. simpl.
  unfold neighbors_of, _bidirectional_has_path_multi, _bidirectional_has_path.
  destruct (is_multigraph G); reflexivity.
Qed.

Lemma simple_paths_dispatch (G : Graph) (source target : node)
    (cutoff : option Z) :
  contains G source = true -> contains G target = true ->
  bidirectional_all_simple_paths G source target cutoff =
  Return (simple_paths_engine (neighbors_of G) source target
            (match cutoff with
             | None => (Z.of_nat (len G) - 1)%Z
             | Some c => c
             end)).
Proof.
  intros Hs Ht. unfold bidirectional_all_simple_paths. rewrite Hs, Ht. simpl.
  unfold neighbors_of, _bidirectional_all_simple_paths_multi,
    _bidirectional_all_simple_paths.
  destruct (is_multigraph G); reflexivity.
Qed.

Section SimpleEngineFacts.

Variable neighbors : bool -> node -> list node.
Variables source target : node.

Lemma simple_engine_shape (cutoff : Z) (p : path) :
  In p (yielded (simple_paths_engine neighbors source target cutoff)) ->
  exists L, 0 < L /\ (Z.of_nat L <= cutoff)%Z /\ shape source target L p.
Proof.
  unfold simple_paths_engine. destruct (Z.ltb_spec cutoff 1) as [Hc|Hc];
    simpl; [intros []|]. intro Hp.
  destruct (simple_rounds_sound neighbors source target (shape source target)
              (meeting_shape neighbors source target)
              (Z.to_nat cutoff) _ 0 0
              (tree_inv_init neighbors source target) p Hp)
    as [L [H1 [H2 H3]]].
  exists L. split; [lia|]. split; [lia|assumption].
Qed.

Lemma simple_engine_sorted (cutoff : Z) :
  by_length (yielded (simple_paths_engine neighbors source target cutoff)).
Proof.
  unfold simple_paths_engine. destruct (cutoff <? 1)%Z; simpl; [exact I|].
  eapply simple_rounds_sorted. apply tree_inv_init.
Qed.

Lemma simple_engine_ending (cutoff : Z) :
  ending (simple_paths_engine neighbors source target cutoff) = Return tt.
Proof. unfold simple_paths_engine. destruct (cutoff <? 1)%Z; reflexivity. Qed.

Hypothesis backward : forall u v,
  In u (neighbors true v) <-> In v (neighbors false u).

Lemma simple_engine_In (cutoff : Z) (p : path) :
  In p (yielded (simple_paths_engine neighbors source target cutoff)) <->
  exists L, 0 < L /\ (Z.of_nat L <= cutoff)%Z /\
            spath neighbors source target L p.
Proof.
  unfold simple_paths_engine. destruct (Z.ltb_spec cutoff 1) as [Hc|Hc]; simpl.
  - split; [intros [] | intros [L [H1 [H2 _]]]; lia].
  - split.
    + intro Hp.
      destruct (simple_rounds_sound neighbors source target
                  (spath neighbors source target)
                  (fun m d0 d1 q =>
                     proj1 (meeting_spath neighbors source target backward
                              m d0 d1 q))
                  (Z.to_nat cutoff) _ 0 0
                  (tree_inv_init neighbors source target) p Hp)
        as [L [H1 [H2 H3]]].
      exists L. split; [lia|]. split; [lia|assumption].
    + intros [L [H1 [H2 H3]]].
      apply (simple_rounds_complete neighbors source target
               (spath neighbors source target)
               (fun m d0 d1 q =>
                  proj2 (meeting_spath neighbors source target backward
                           m d0 d1 q))
               (Z.to_nat cutoff) _ 0 0
               (tree_inv_init neighbors source target) L p); auto; lia.
Qed.

End SimpleEngineFacts.

(** ** Concrete graphs are well formed *)

Lemma In_out_of (es : list (node * node)) (u v : node) :
  In v (out_of es u) <-> In (u, v) es.
Proof.
  unfold out_of. rewrite in_map_iff. split.
  - intros [[a b] [E H]]. apply filter_In in H. destruct H as [H Ha].
    simpl in *. apply Nat.eqb_eq in Ha. now subst.
  - intro H. exists (u, v). split; [reflexivity|]. apply filter_In.
    split; [assumption | simpl; apply Nat.eqb_refl].
Qed.

Lemma In_in_of (es : list (node * node)) (u v : node) :
  In u (in_of es v) <-> In (u, v) es.
Proof.
  unfold in_of. rewrite in_map_iff. split.
  - intros [[a b] [E H]]. apply filter_In in H. destruct H as [H Hb].
    simpl in *. apply Nat.eqb_eq in Hb. now subst.
  - intro H. exists (u, v). split; [reflexivity|]. apply filter_In.
    split; [assumption | simpl; apply Nat.eqb_refl].
Qed.

Lemma In_both_of (es : list (node * node)) (u v : node) :
  In v (both_of es u) <-> In (u, v) es \/ In (v, u) es.
Proof.
  unfold both_of. rewrite in_flat_map. split.
  - intros [[a b] [H Hv]]. simpl in Hv. apply in_app_or in Hv.
    destruct Hv as [Hv|Hv].
    + destruct (Nat.eqb_spec a u) as [->|_]; [|destruct Hv].
      destruct Hv as [<-|[]]. now left.
    + destruct (Nat.eqb_spec b u) as [->|_]; [|destruct Hv].
      destruct (Nat.eqb_spec a u) as [_|_]; [destruct Hv|].
      destruct Hv as [<-|[]]. now right.
  - intros [H|H].
    + exists (u, v). split; [assumption|]. simpl.
      rewrite Nat.eqb_refl. simpl. now left.
    + exists (v, u). split; [assumption|]. simpl.
      rewrite Nat.eqb_refl. destruct (Nat.eqb_spec v u) as [->|_]; simpl; auto.
Qed.

Lemma wf_simple_graph (ns : list node) (es : list (node * node)) :
  NoDup ns -> endpoints_in ns es -> wf_graph (simple_graph ns es).
Proof.
  intros Hnd Hends. split; simpl; auto.
  - intros modus u v H. unfold neighbors_of, neighbors_simple in H. simpl in H.
    apply nodup_In, In_both_of in H.
    destruct H as [H|H]; apply Hends in H; tauto.
  - intros _ modus u. unfold neighbors_of, neighbors_simple. simpl.
    apply NoDup_nodup.
  - intros _ u v. unfold neighbors_of, neighbors_simple. simpl.
    rewrite !nodup_In, !In_both_of. tauto.
Qed.

Lemma wf_di_graph (ns : list node) (es : list (node * node)) :
  NoDup ns -> endpoints_in ns es -> wf_graph (di_graph ns es).
Proof.
  intros Hnd Hends. split; simpl; auto.
  - intros modus u v H. unfold neighbors_of, neighbors_simple in H. simpl in H.
    destruct modus; apply nodup_In in H.
    + apply In_in_of, Hends in H. tauto.
    + apply In_out_of, Hends in H. tauto.
  - intros _ modus u. unfold neighbors_of, neighbors_simple. simpl.
    destruct modus; apply NoDup_nodup.
  - intros _ u v. unfold neighbors_of, neighbors_simple. simpl.
    rewrite !nodup_In, In_in_of, In_out_of. tauto.
Qed.

Lemma multi_neighbors (u : node) (l : list node) :
  map snd (map (pair u) l) = l.
Proof. rewrite map_map. simpl. apply map_id. Qed.

Lemma wf_multi_graph (ns : list node) (es : list (node * node)) :
  NoDup ns -> endpoints_in ns es -> wf_graph (multi_graph ns es).
Proof.
  intros Hnd Hends. split; simpl; auto.
  - intros modus u v H. unfold neighbors_of, neighbors_multi in H. simpl in H.
    rewrite multi_neighbors in H. apply In_both_of in H.
    destruct H as [H|H]; apply Hends in H; tauto.
  - discriminate.
  - intros _ u v. unfold neighbors_of, neighbors_multi. simpl.
    rewrite !multi_neighbors, !In_both_of. tauto.
Qed.

Lemma wf_multi_di_graph (ns : list node) (es : list (node * node)) :
  NoDup ns -> endpoints_in ns es -> wf_graph (multi_di_graph ns es).
Proof.
  intros Hnd Hends. split; simpl; auto.
  - intros modus u v H. unfold neighbors_of, neighbors_multi in H. simpl in H.
    rewrite multi_neighbors in H. apply In_out_of, Hends in H. tauto.
  - discriminate.
  - discriminate.
Qed.

(** ** The two variants of the all-shortest-paths engine side by side *)

Lemma flat_map_ext_in {A B} (f g : A -> list B) (l : list A) :
  (forall x, In x l -> f x = g x) -> flat_map f l = flat_map g l.
Proof.
  induction l as [|a l IH]; simpl; intro H; [reflexivity|].
  rewrite H by now left. rewrite IH; [reflexivity|]. intros; apply H; now right.
Qed.

Lemma sp_joined_nil (modus : bool) (Tt : list path) (path_s : path) (s : node) :
  (forall path_t, In path_t Tt -> last_node path_t <> s) ->
  sp_joined modus Tt path_s s = [].
Proof.
  intro H. destruct (sp_joined modus Tt path_s s) as [|q l] eqn:E; [reflexivity|].
  assert (Hq : In q (sp_joined modus Tt path_s s)) by (rewrite E; now left).
  apply sp_joined_In in Hq. destruct Hq as [pt [Hpt [Hl _]]].
  elim (H pt Hpt Hl).
Qed.

Section Variants.

Variable neighbors : bool -> node -> list node.

(** Without repeated neighbours and repeated partial paths, adding to the
    set [temp_tree] and appending to the list [temp_tree] are the same. *)
Lemma sp_temp_neighbors_same (modus : bool) (Tt : list path) (Nt : list node)
    (path_s : path) (ns : list node) :
  NoDup ns ->
  forall st st',
    sp_temp_tree st = sp_temp_tree st' ->
    (forall s, In s ns -> ~ In (path_s ++ [s]) (sp_temp_tree st)) ->
    sp_temp_tree (fold_left (sp_visit_neighbor modus Tt Nt path_s) ns st) =
    sp_temp_tree (fold_left (sp_visit_neighbor_multi modus Tt path_s) ns st').
Proof.
  induction 1 as [|s ns Hs Hnd IH]; simpl; intros st st' E Hfresh;
    [assumption|].
  apply IH.
  - unfold sp_visit_neighbor, sp_visit_neighbor_multi.
    destruct (negb (mem s path_s)); simpl; [|assumption].
    rewrite add_path_fresh by (apply Hfresh; now left). now rewrite E.
  - intros s' Hs'. unfold sp_visit_neighbor.
    destruct (negb (mem s path_s)); simpl; [|apply Hfresh; now right].
    rewrite add_path_In. intros [H|H].
    + apply snoc_inj in H. destruct H as [_ ->]. contradiction.
    + revert H. apply Hfresh. now right.
Qed.

Lemma sp_temp_paths_same (modus : bool) (Tt : list path) (Nt : list node)
    (Ts : list path) :
  (forall x, NoDup (neighbors modus x)) -> NoDup Ts ->
  forall st st',
    sp_temp_tree st = sp_temp_tree st' ->
    (forall p s, In p Ts -> ~ In (p ++ [s]) (sp_temp_tree st)) ->
    sp_temp_tree (fold_left (sp_visit_path neighbors modus Tt Nt) Ts st) =
    sp_temp_tree (fold_left (sp_visit_path_multi neighbors modus Tt) Ts st').
Proof.
  intros Hkeys. induction 1 as [|p Ts Hp Hnd IH]; simpl; intros st st' E Hfresh;
    [assumption|].
  assert (Estep :
    sp_temp_tree (sp_visit_path neighbors modus Tt Nt st p) =
    sp_temp_tree (sp_visit_path_multi neighbors modus Tt st' p)).
  { unfold sp_visit_path, sp_visit_path_multi.
    apply sp_temp_neighbors_same;
      [apply Hkeys | exact E | intros s _; apply Hfresh; now left]. }
  apply IH; [exact Estep|].
  intros p' s Hp'. rewrite Estep.
  unfold sp_visit_path_multi.
  rewrite (fold_left_out (sp_visit_neighbor_multi modus Tt p) sp_temp_tree
             (fun s => if negb (mem s p) then [p ++ [s]] else [])).
  - rewrite in_app_iff, <- E. intros [H|H].
    + revert H. apply Hfresh. now right.
    + apply in_flat_map in H. destruct H as [s' [_ H]].
      destruct (negb (mem s' p)); [|destruct H].
      destruct H as [H|[]]. apply snoc_inj in H. destruct H as [-> _].
      contradiction.
  - intros st2 s2. unfold sp_visit_neighbor_multi.
    destruct (negb (mem s2 p)); simpl; [reflexivity | now rewrite app_nil_r].
Qed.

Variables source target : node.

Hypothesis keys : forall modus x, NoDup (neighbors modus x).

Lemma sp_round_same (found0 : bool) (tree : list path * list path)
    (nodes : list node * list node) :
  leaves_seen tree nodes -> NoDup (fst tree) -> NoDup (snd tree) ->
  sp_out (sp_round neighbors found0 tree nodes) =
    sp_out (sp_round_multi neighbors found0 tree) /\
  sp_found (sp_round neighbors found0 tree nodes) =
    sp_found (sp_round_multi neighbors found0 tree) /\
  sp_temp_tree (sp_round neighbors found0 tree nodes) =
    sp_temp_tree (sp_round_multi neighbors found0 tree).
Proof.
  intros Hseen H0 H1.
  assert (Hout : sp_out (sp_round neighbors found0 tree nodes) =
                 sp_out (sp_round_multi neighbors found0 tree)).
  { unfold sp_round, sp_round_multi.
    rewrite sp_visit_out, sp_visit_multi_out. simpl. 
    apply flat_map_ext_in. intros path_s _.
    apply flat_map_ext_in. intros s _.
    unfold sp_emit, sp_emit_multi.
    destruct (negb (mem s path_s)); [|reflexivity].
    destruct (mem s _) eqn:E; [reflexivity|].
    apply mem_not_In in E. symmetry. apply sp_joined_nil.
    intros path_t Hpt Hl. apply E. rewrite <- Hl. now apply Hseen. }
  split; [exact Hout|]. split.
  - rewrite sp_round_found, sp_round_multi_found. now rewrite Hout.
  - unfold sp_round, sp_round_multi.
    apply sp_temp_paths_same; auto.
    destruct (length (sel tree true) <? length (sel tree false)); assumption.
Qed.

Lemma sp_loop_same (fuel : nat) :
  forall found0 tree nodes d0 d1,
    sp_inv neighbors source target tree d0 d1 -> leaves_seen tree nodes ->
    NoDup (fst tree) -> NoDup (snd tree) ->
    sp_loop neighbors source target fuel found0 tree nodes =
    sp_loop_multi neighbors source target fuel found0 tree.
Proof.
  induction fuel as [|f IH]; intros found0 tree nodes d0 d1 Hinv Hseen H0 H1;
    [reflexivity|].
  rewrite sp_loop_S, sp_loop_multi_S.
  destruct (negb found0 && truthy (sel tree false) && truthy (sel tree true));
    [|reflexivity].
  destruct (sp_round_same found0 tree nodes Hseen H0 H1) as [E1 [E2 E3]].
  destruct (sp_round_NoDup neighbors source target found0 tree nodes d0 d1
              Hinv keys H0 H1) as [_ [H0' H1']].
  assert (Hinv' := sp_round_inv neighbors source target found0 tree nodes
                     d0 d1 Hinv). cbv zeta in Hinv'.
  assert (Hseen' := sp_round_seen neighbors found0 tree nodes Hseen).
  cbv zeta in Hseen'.
  rewrite <- E1, <- E2, <- E3. f_equal.
  eapply IH; eassumption.
Qed.

End Variants.

(** ** The searches on a well-formed graph *)

Lemma K4_wf : wf_graph K4.
Proof. apply wf_simple_graph; [nodup_tac | endpoints_tac]. Qed.

Lemma K4_multi_wf : wf_graph K4_multi.
Proof. apply wf_multi_graph; [nodup_tac | endpoints_tac]. Qed.

Lemma lonely_and_edge_wf : wf_graph lonely_and_edge.
Proof. apply wf_simple_graph; [nodup_tac | endpoints_tac]. Qed.


Lemma line2_wf : wf_graph line2.
Proof. apply wf_simple_graph; [nodup_tac | endpoints_tac]. Qed.

Lemma double_edge_wf : wf_graph double_edge.
Proof. apply wf_multi_graph; [nodup_tac | endpoints_tac]. Qed.

Lemma multi_fork_wf : wf_graph multi_fork.
Proof. apply wf_multi_di_graph; [nodup_tac | endpoints_tac]. Qed.

Lemma multi_detour_wf : wf_graph multi_detour.
Proof. apply wf_multi_di_graph; [nodup_tac | endpoints_tac]. Qed.

Lemma multi_fork_unreachable : ~ reachable multi_fork 0 1.
Proof.
  intro W. apply reachable_walk_to in W.
  apply (walk_to_closed _ (fun x => x = 0 \/ x = 2 \/ x = 3)) in W.
  - destruct W as [W|[W|W]]; discriminate.
  - intros u v [->|[->| ->]] H; cbv in H; intuition.
  - now left.
Qed.

Lemma has_path_loop_no_raise (neighbors : bool -> node -> list node)
    (fuel : nat) :
  forall leaves nodes e, has_path_loop neighbors fuel leaves nodes <> Raise e.
Proof.
  induction fuel as [|f IH]; intros leaves nodes e; [discriminate|].
  rewrite has_path_loop_S.
  destruct (truthy (sel leaves false) && truthy (sel leaves true));
    [|discriminate].
  destruct (scan_leaves _ _ _ _ _ _); [apply IH | discriminate].
Qed.

Lemma is_path_in_graph (G : Graph) (s t : node) (p : path) :
  wf_graph G -> contains G s = true -> is_path G s t p ->
  incl p (node_list G).
Proof.
  intros Hwf Hs [Hh [_ Hc]]. destruct p as [|x p]; [discriminate|].
  simpl in Hh. injection Hh as ->. apply contains_In in Hs.
  intros y Hy.
  apply (chain_In (edge G) s p (fun v => In v (node_list G))); auto.
  intros u v. apply (wf_closed Hwf).
Qed.

Lemma simple_path_bound (G : Graph) (s t : node) (p : path) :
  wf_graph G -> contains G s = true -> simple_path G s t p ->
  length p <= len G.
Proof.
  intros Hwf Hs [Hp Hnd]. apply NoDup_incl_length; [assumption|].
  eapply is_path_in_graph; eassumption.
Qed.

Section OnGraph.

Variable G : Graph.
Variables source target : node.
Hypothesis Hwf : wf_graph G.
Hypothesis Hs : contains G source = true.
Hypothesis Ht : contains G target = true.

Lemma shortest_paths_generic (fuel : nat) (Spec : nat -> path -> Prop) :
  enough_fuel G fuel ->
  (forall modus d0 d1 q,
     meeting (neighbors_of G) source target modus d0 d1 q <->
     Spec (d0 + d1 + 1) q) ->
  (forall L q side d, Spec L q -> d <= L ->
     exists p, swalk (neighbors_of G side) (anchor source target side) d p) ->
  exists g, bidirectional_all_shortest_paths fuel G source target = Return g /\
            sp_result source target Spec 0 g.
Proof.
  intros Hf H1 H2. unfold bidirectional_all_shortest_paths.
  rewrite Hs, Ht. simpl. unfold enough_fuel, len in Hf.
  assert (Hs' := proj1 (contains_In G source) Hs).
  assert (Ht' := proj1 (contains_In G target) Ht).
  destruct (is_multigraph G) eqn:E.
  - eexists. split; [reflexivity|].
    unfold _bidirectional_all_shortest_paths_multi.
    rewrite <- (neighbors_of_multi G E).
    apply (sp_loop_multi_spec (neighbors_of G) source target (node_list G)
             (wf_closed Hwf) Hs' Ht' Spec H1 H2 fuel _ 0 0);
      [apply sp_inv_init | lia | lia | lia].
  - eexists. split; [reflexivity|].
    unfold _bidirectional_all_shortest_paths.
    rewrite <- (neighbors_of_simple G E).
    apply (sp_loop_spec (neighbors_of G) source target (node_list G)
             (wf_closed Hwf) Hs' Ht' Spec H1 H2 fuel _ _ 0 0);
      [apply sp_inv_init | apply leaves_seen_init | lia | lia | lia].
Qed.

Lemma shortest_paths_NoDup (fuel : nat) :
  is_multigraph G = false ->
  NoDup (yielded (_bidirectional_all_shortest_paths fuel G source target)).
Proof.
  intro E. unfold _bidirectional_all_shortest_paths.
  rewrite <- (neighbors_of_simple G E).
  apply (sp_loop_NoDup (neighbors_of G) source target (wf_keys Hwf E)
           fuel false _ _ 0 0).
  - apply sp_inv_init.
  - simpl. constructor; [simpl; tauto | constructor].
  - simpl. constructor; [simpl; tauto | constructor].
Qed.

Lemma shortest_paths_multi_NoDup (fuel : nat) :
  (forall u, NoDup (map snd (edges G u))) ->
  NoDup (yielded (_bidirectional_all_shortest_paths_multi fuel G source target)).
Proof.
  intro Hkeys. unfold _bidirectional_all_shortest_paths_multi.
  assert (Hk : forall (modus : bool) x, NoDup (neighbors_multi G modus x))
    by (intros modus x; apply Hkeys).
  rewrite <- (sp_loop_same (neighbors_multi G) source target Hk fuel false
                ([[source]], [[target]]) ([source], [target]) 0 0).
  - apply (sp_loop_NoDup (neighbors_multi G) source target Hk fuel false
             _ _ 0 0).
    + apply sp_inv_init.
    + simpl. constructor; [simpl; tauto | constructor].
    + simpl. constructor; [simpl; tauto | constructor].
  - apply sp_inv_init.
  - apply leaves_seen_init.
  - simpl. constructor; [simpl; tauto | constructor].
  - simpl. constructor; [simpl; tauto | constructor].
Qed.

Hypothesis Hkind : is_multigraph G && is_directed G = false.

Lemma shortest_paths_levels (fuel : nat) :
  enough_fuel G fuel ->
  exists g, bidirectional_all_shortest_paths fuel G source target = Return g /\
            sp_result source target (spath (neighbors_of G) source target) 0 g.
Proof.
  intro Hf. apply shortest_paths_generic; [assumption| |].
  - intros modus d0 d1 q. apply meeting_spath. apply (wf_backward Hwf Hkind).
  - intros L q side d HS Hd. eapply spath_walk; eauto.
    apply (wf_backward Hwf Hkind).
Qed.

End OnGraph.

(** ** The examples of the docstrings *)

Example docstring_all_simple_paths :
  bidirectional_all_simple_paths K4 0 3 None =
  Return {| yielded := [[0; 3]; [0; 1; 3]; [0; 2; 3];
                        [0; 1; 2; 3]; [0; 2; 1; 3]];
            ending := Return tt |}.
Proof. vm_compute. reflexivity. Qed.

Example docstring_all_simple_paths_cutoff :
  bidirectional_all_simple_paths K4 0 3 (Some 2%Z) =
  Return {| yielded := [[0; 3]; [0; 1; 3]; [0; 2; 3]];
            ending := Return tt |}.
Proof. vm_compute. reflexivity. Qed.

Example docstring_all_shortest_paths :
  bidirectional_all_shortest_paths 10 K4 0 3 =
  Return {| yielded := [[0; 3]]; ending := Return tt |}.
Proof. vm_compute. reflexivity. Qed.

Example K4_has_path : bidirectional_has_path 10 K4 0 3 = Return true.
Proof. vm_compute. reflexivity. Qed.

(* ================================================================= *)
(** * The claims *)

(** ** C1: reachability *)

(** C1 does not hold for every graph and every pair of nodes. In the
    directed multigraph [multi_fork] node 1 cannot be reached from node 0,
    yet the search answers [True]: the target side follows the outgoing
    edges of node 1 and meets the source side at node 2. And asked for a path
    from node 0 to itself in [line2] the search answers [False] although the
    path of length 0 exists. *)
Lemma has_path_disagrees_with_reachability :
  (wf_graph multi_fork /\
   bidirectional_has_path 10 multi_fork 0 1 = Return true /\
   ~ reachable multi_fork 0 1) /\
  (wf_graph line2 /\
   bidirectional_has_path 10 line2 0 0 = Return false /\
   reachable line2 0 0).
Proof.
  split; (split; [|split]).
  - exact multi_fork_wf.
  - vm_compute. reflexivity.
  - exact multi_fork_unreachable.
  - exact line2_wf.
  - vm_compute. reflexivity.
  - exists [0]. repeat split.
Qed.

(** C1 (amended): on every graph that is not a directed multigraph and for
    every two distinct nodes of it, [bidirectional_has_path] returns, and it
    returns [True] exactly when some path leads from source to target; what
    it returns is a boolean, never a path. *)
Theorem has_path_iff_reachable (fuel : nat) (G : Graph) (source target : node) :
  wf_graph G ->
  is_multigraph G && is_directed G = false ->
  contains G source = true -> contains G target = true ->
  source <> target ->
  enough_fuel G fuel ->
  exists b : bool,
    bidirectional_has_path fuel G source target = Return b /\
    (b = true <-> reachable G source target).
Proof.
  intros Hwf Hk Hs Ht Hne Hf. rewrite has_path_dispatch by assumption.
  unfold has_path_engine.
  apply (has_path_loop_spec (neighbors_of G) source target (node_list G)
           (wf_closed Hwf) (wf_backward Hwf Hk) fuel).
  - apply hp_init; [now apply contains_In | now apply contains_In | assumption].
  - simpl. unfold enough_fuel, len in Hf. lia.
Qed.

Lemma has_path_iff_reachable_witness :
  exists b : bool,
    bidirectional_has_path 10 K4 0 3 = Return b /\
    (b = true <-> reachable K4 0 3).
Proof.
  apply (has_path_iff_reachable 10 K4 0 3).
  - exact K4_wf.
  - reflexivity.
  - reflexivity.
  - reflexivity.
  - discriminate.
  - unfold enough_fuel. simpl. lia.
Defined.

(** ** C2: all shortest paths *)

(** C2 does not hold for every graph and every pair of nodes. Between the
    two nodes of [double_edge] the one shortest path is yielded twice, once
    per parallel edge. From node 0 of [K4] to itself the shortest path
    [[0]] exists but is not yielded. And in the directed multigraph
    [multi_detour] node 1 is reached from node 0, the one shortest path is
    0, 3, 4, 1, yet the one sequence yielded is 0, 2, 1, which is no path:
    the graph has no edge from 2 to 1. *)
Lemma shortest_paths_repeated_or_missing :
  (wf_graph double_edge /\ reachable double_edge 0 1 /\
   exists g, bidirectional_all_shortest_paths 10 double_edge 0 1 = Return g /\
             ~ NoDup (yielded g)) /\
  (wf_graph K4 /\ shortest_path K4 0 0 [0] /\
   exists g, bidirectional_all_shortest_paths 10 K4 0 0 = Return g /\
             ~ In [0] (yielded g)) /\
  (wf_graph multi_detour /\ is_path multi_detour 0 1 [0; 3; 4; 1] /\
   bidirectional_all_shortest_paths 12 multi_detour 0 1 =
     Return {| yielded := [[0; 2; 1]]; ending := Return tt |} /\
   ~ is_path multi_detour 0 1 [0; 2; 1]).
Proof.
  split; [|split]; (split; [|split]).
  - exact double_edge_wf.
  - exists [0; 1]. repeat split. cbv. now left.
  - eexists. split; [vm_compute; reflexivity|]. simpl. intro H.
    inversion H as [|? ? Hn _]. apply Hn. now left.
  - exact K4_wf.
  - split; [repeat split|].
    intros q [Hh _]. destruct q; [discriminate | simpl; lia].
  - eexists. split; [vm_compute; reflexivity|]. simpl. tauto.
  - exact multi_detour_wf.
  - repeat split; cbv; tauto.
  - split; [vm_compute; reflexivity|].
    intros [_ [_ Hc]]. cbv in Hc. tauto.
Qed.

(** C2 (amended): on every graph that is not a directed multigraph and for
    every two distinct nodes of it between which a path exists, the paths
    yielded by [bidirectional_all_shortest_paths] are exactly the paths of
    minimum length from source to target, and the iteration ends without an
    error. When no neighbour list names a node twice, as on every simple
    graph and on every multigraph without parallel edges, no path is yielded
    twice. *)
Theorem shortest_paths_exact (fuel : nat) (G : Graph) (source target : node) :
  wf_graph G ->
  is_multigraph G && is_directed G = false ->
  contains G source = true -> contains G target = true ->
  source <> target ->
  reachable G source target ->
  enough_fuel G fuel ->
  exists g,
    bidirectional_all_shortest_paths fuel G source target = Return g /\
    (forall p, In p (yielded g) <-> shortest_path G source target p) /\
    ending g = Return tt /\
    (is_multigraph G = false \/
     (forall u, NoDup (map snd (edges G u))) -> NoDup (yielded g)).
Proof.
  intros Hwf Hk Hs Ht Hne Hr Hf.
  destruct (shortest_paths_levels G source target Hwf Hs Ht Hk fuel Hf)
    as [g [Hg Hres]].
  exists g. split; [assumption|].
  destruct Hres as [[L [HL [Hmin [Hy [Hnonempty He]]]]]|[Hnone _]].
  - split; [|split; [assumption|]].
    + intro p. rewrite Hy. apply first_level_shortest; auto.
      destruct (yielded g) as [|q l] eqn:E; [congruence|].
      exists q. apply Hy. now left.
    + intro Hkeys. unfold bidirectional_all_shortest_paths in Hg.
      rewrite Hs, Ht in Hg. simpl in Hg.
      destruct (is_multigraph G) eqn:E; injection Hg as <-.
      * destruct Hkeys as [Hkeys|Hkeys]; [discriminate|].
        now apply shortest_paths_multi_NoDup.
      * now apply shortest_paths_NoDup.
  - exfalso. apply (no_level_unreachable G source target Hne) in Hr;
      [assumption|]. intros L' q. apply Hnone.
Qed.

Lemma shortest_paths_exact_witness :
  exists g,
    bidirectional_all_shortest_paths 10 K4_multi 0 3 = Return g /\
    (forall p, In p (yielded g) <-> shortest_path K4_multi 0 3 p) /\
    ending g = Return tt /\
    (is_multigraph K4_multi = false \/
     (forall u, NoDup (map snd (edges K4_multi u))) -> NoDup (yielded g)).
Proof.
  apply (shortest_paths_exact 10 K4_multi 0 3).
  - exact K4_multi_wf.
  - reflexivity.
  - reflexivity.
  - reflexivity.
  - discriminate.
  - exists [0; 3]. repeat split. cbv. tauto.
  - unfold enough_fuel. simpl. lia.
Defined.

(** ** C3: all simple paths, shape and order *)

(** C3: for every graph, every two nodes of it and every cutoff of at least
    1, each path yielded by [bidirectional_all_simple_paths] is a sequence of
    distinct nodes that starts at the source, ends at the target and has at
    most [cutoff] edges, and the paths are yielded by non-decreasing
    length. *)
Theorem simple_paths_distinct_bounded_sorted (G : Graph)
    (source target : node) (cutoff : Z) :
  contains G source = true -> contains G target = true ->
  (1 <= cutoff)%Z ->
  exists g,
    bidirectional_all_simple_paths G source target (Some cutoff) = Return g /\
    (forall p, In p (yielded g) ->
       NoDup p /\ hd_error p = Some source /\ last_node p = target /\
       (Z.of_nat (length p) - 1 <= cutoff)%Z) /\
    by_length (yielded g).
Proof.
  intros Hs Ht Hc. rewrite simple_paths_dispatch by assumption.
  eexists. split; [reflexivity|]. split.
  - intros p Hp. apply simple_engine_shape in Hp.
    destruct Hp as [L [H1 [H2 [Hh [Hl [Hnd Hlen]]]]]].
    repeat split; auto. rewrite Hlen. lia.
  - apply simple_engine_sorted.
Qed.

Lemma simple_paths_distinct_bounded_sorted_witness :
  exists g,
    bidirectional_all_simple_paths K4 0 3 (Some 2%Z) = Return g /\
    (forall p, In p (yielded g) ->
       NoDup p /\ hd_error p = Some 0 /\ last_node p = 3 /\
       (Z.of_nat (length p) - 1 <= 2)%Z) /\
    by_length (yielded g).
Proof.
  apply (simple_paths_distinct_bounded_sorted K4 0 3 2%Z).
  - reflexivity.
  - reflexivity.
  - lia.
Defined.

(** ** C4: NetworkXNoPath *)

Section NoPathError.

Variable neighbors : bool -> node -> list node.
Variables source target : node.

Lemma sp_loop_found_ending (fuel : nat) (tree : list path * list path)
    (nodes : list node * list node) (e : exn) :
  ending (sp_loop neighbors source target fuel true tree nodes) <> Raise e.
Proof. destruct fuel; discriminate. Qed.

Lemma sp_loop_multi_found_ending (fuel : nat) (tree : list path * list path)
    (e : exn) :
  ending (sp_loop_multi neighbors source target fuel true tree) <> Raise e.
Proof. destruct fuel; discriminate. Qed.

(** The error is NetworkXNoPath; it comes after [k] rounds that all started
    with two frontiers that were not empty and yielded nothing, at the first
    round count at which a frontier is empty. *)
Lemma sp_loop_raise (fuel : nat) :
  forall tree nodes e,
    ending (sp_loop neighbors source target fuel false tree nodes) = Raise e ->
    e = NetworkXNoPath source target /\
    yielded (sp_loop neighbors source target fuel false tree nodes) = [] /\
    exists k,
      k < fuel /\
      (forall j, j < k ->
         fst (fst (sp_after neighbors j tree nodes)) <> [] /\
         snd (fst (sp_after neighbors j tree nodes)) <> [] /\
         sp_out (sp_round neighbors false
                   (fst (sp_after neighbors j tree nodes))
                   (snd (sp_after neighbors j tree nodes))) = []) /\
      (fst (fst (sp_after neighbors k tree nodes)) = [] \/
       snd (fst (sp_after neighbors k tree nodes)) = []).
Proof.
  induction fuel as [|f IH]; intros tree nodes e H; [discriminate|].
  rewrite sp_loop_S in H |- *. simpl negb in H |- *. cbn [andb] in H |- *.
  destruct (truthy (sel tree false)) eqn:E0;
    [destruct (truthy (sel tree true)) eqn:E1|]; cbn [andb] in H |- *.
  - simpl ending in H.
    assert (Hfound := sp_round_found neighbors false tree nodes).
    simpl orb in Hfound.
    destruct (sp_found (sp_round neighbors false tree nodes)) eqn:Ef.
    + elim (sp_loop_found_ending _ _ _ _ H).
    + assert (Hout : sp_out (sp_round neighbors false tree nodes) = [])
        by (apply truthy_false; now symmetry).
      apply IH in H. destruct H as [He [Hy [k [Hk [Hrun Hstop]]]]].
      split; [exact He|]. split; [simpl; now rewrite Hout, Hy|].
      exists (S k). split; [lia|]. split; [|exact Hstop].
      intros [|j] Hj.
      * simpl. split; [|split; [|exact Hout]].
        -- intro E. simpl in E0. rewrite E in E0. discriminate.
        -- intro E. simpl in E1. rewrite E in E1. discriminate.
      * apply (Hrun j). lia.
  - injection H as <-. split; [reflexivity|]. split; [reflexivity|].
    exists 0. split; [lia|]. split; [intros j Hj; lia|].
    right. now apply truthy_false in E1.
  - injection H as <-. split; [reflexivity|]. split; [reflexivity|].
    exists 0. split; [lia|]. split; [intros j Hj; lia|].
    left. now apply truthy_false in E0.
Qed.

Lemma sp_loop_multi_raise (fuel : nat) :
  forall tree e,
    ending (sp_loop_multi neighbors source target fuel false tree) = Raise e ->
    e = NetworkXNoPath source target /\
    yielded (sp_loop_multi neighbors source target fuel false tree) = [] /\
    exists k,
      k < fuel /\
      (forall j, j < k ->
         fst (sp_after_multi neighbors j tree) <> [] /\
         snd (sp_after_multi neighbors j tree) <> [] /\
         sp_out (sp_round_multi neighbors false
                   (sp_after_multi neighbors j tree)) = []) /\
      (fst (sp_after_multi neighbors k tree) = [] \/
       snd (sp_after_multi neighbors k tree) = []).
Proof.
  induction fuel as [|f IH]; intros tree e H; [discriminate|].
  rewrite sp_loop_multi_S in H |- *. simpl negb in H |- *.
  cbn [andb] in H |- *.
  destruct (truthy (sel tree false)) eqn:E0;
    [destruct (truthy (sel tree true)) eqn:E1|]; cbn [andb] in H |- *.
  - simpl ending in H.
    assert (Hfound := sp_round_multi_found neighbors false tree).
    simpl orb in Hfound.
    destruct (sp_found (sp_round_multi neighbors false tree)) eqn:Ef.
    + elim (sp_loop_multi_found_ending _ _ _ H).
    + assert (Hout : sp_out (sp_round_multi neighbors false tree) = [])
        by (apply truthy_false; now symmetry).
      apply IH in H. destruct H as [He [Hy [k [Hk [Hrun Hstop]]]]].
      split; [exact He|]. split; [simpl; now rewrite Hout, Hy|].
      exists (S k). split; [lia|]. split; [|exact Hstop].
      intros [|j] Hj.
      * simpl. split; [|split; [|exact Hout]].
        -- intro E. simpl in E0. rewrite E in E0. discriminate.
        -- intro E. simpl in E1. rewrite E in E1. discriminate.
      * apply (Hrun j). lia.
  - injection H as <-. split; [reflexivity|]. split; [reflexivity|].
    exists 0. split; [lia|]. split; [intros j Hj; lia|].
    right. now apply truthy_false in E1.
  - injection H as <-. split; [reflexivity|]. split; [reflexivity|].
    exists 0. split; [lia|]. split; [intros j Hj; lia|].
    left. now apply truthy_false in E0.
Qed.

End NoPathError.

(** C4 does not hold for every graph and every pair of nodes. From node 0
    of [K4] to itself a path exists, yet NetworkXNoPath is raised. In the
    directed multigraph [multi_fork] no path leads from node 0 to node 1, yet
    a sequence is yielded and no error is raised. And the error does not
    wait for both frontiers: from the lonely node 0 of [lonely_and_edge] the
    source side is empty after one round and the error is raised while the
    target side still holds its leaf. *)
Lemma no_path_error_disagrees_with_reachability :
  (wf_graph K4 /\ reachable K4 0 0 /\
   bidirectional_all_shortest_paths 10 K4 0 0 =
   Return {| yielded := []; ending := Raise (NetworkXNoPath 0 0) |}) /\
  (wf_graph multi_fork /\ ~ reachable multi_fork 0 1 /\
   bidirectional_all_shortest_paths 10 multi_fork 0 1 =
   Return {| yielded := [[0; 2; 1]]; ending := Return tt |}) /\
  (bidirectional_all_shortest_paths 2 lonely_and_edge 0 1 =
   Return {| yielded := []; ending := Raise (NetworkXNoPath 0 1) |} /\
   frontiers_after lonely_and_edge 0 1 1 = ([], [[1]])).
Proof.
  split; [|split].
  - split; [exact K4_wf|]. split; [|vm_compute; reflexivity].
    exists [0]. repeat split.
  - split; [exact multi_fork_wf|].
    split; [exact multi_fork_unreachable | vm_compute; reflexivity].
  - split; vm_compute; reflexivity.
Qed.

(** C4 (amended): on every graph that is not a directed multigraph and for
    every two distinct nodes of it, consuming
    [bidirectional_all_shortest_paths] ends with NetworkXNoPath exactly when
    no path leads from source to target, and then nothing has been yielded
    before the error; otherwise the iteration ends normally. On every graph,
    when the iteration ends with an error, the error is NetworkXNoPath,
    nothing has been yielded, and the loop has made some number [k] of
    rounds: each of them started with two frontiers that were not empty and
    found no meeting, and after them one of the two frontiers is empty. The
    only error of [bidirectional_has_path] and of
    [bidirectional_all_simple_paths] is the one of a missing node, and an
    iteration over all simple paths always ends normally. *)
Theorem no_path_error_iff_unreachable (fuel : nat) (G : Graph)
    (source target : node) :
  (wf_graph G ->
   is_multigraph G && is_directed G = false ->
   contains G source = true -> contains G target = true ->
   source <> target ->
   enough_fuel G fuel ->
   exists g,
     bidirectional_all_shortest_paths fuel G source target = Return g /\
     (ending g = Raise (NetworkXNoPath source target) <->
      ~ reachable G source target) /\
     (ending g = Return tt <-> reachable G source target) /\
     (ending g = Raise (NetworkXNoPath source target) -> yielded g = [])) /\
  (forall g e,
     bidirectional_all_shortest_paths fuel G source target = Return g ->
     ending g = Raise e ->
     e = NetworkXNoPath source target /\
     yielded g = [] /\
     exists k,
       k < fuel /\
       (forall j, j < k ->
          fst (frontiers_after G source target j) <> [] /\
          snd (frontiers_after G source target j) <> [] /\
          round_yields G source target j = []) /\
       (fst (frontiers_after G source target k) = [] \/
        snd (frontiers_after G source target k) = [])) /\
  (forall e, bidirectional_has_path fuel G source target = Raise e ->
             exists n, e = NetworkXError n) /\
  (forall cutoff e,
     bidirectional_all_simple_paths G source target cutoff = Raise e ->
     exists n, e = NetworkXError n) /\
  (forall cutoff g,
     bidirectional_all_simple_paths G source target cutoff = Return g ->
     ending g = Return tt).
Proof.
  split; [|split; [|split; [|split]]].
  - intros Hwf Hk Hs Ht Hne Hf.
    destruct (shortest_paths_levels G source target Hwf Hs Ht Hk fuel Hf)
      as [g [Hg Hres]].
    exists g. split; [assumption|].
    destruct Hres as [[L [HL [Hmin [Hy [Hnonempty He]]]]]|[Hnone [Hy He]]].
    + assert (Hr : reachable G source target).
      { destruct (yielded g) as [|q l] eqn:E; [congruence|].
        assert (Hq : spath (neighbors_of G) source target L q)
          by (apply Hy; now left).
        destruct Hq as [[Hh [Hl _]] Hc]. exists q.
        split; [assumption|]. split; assumption. }
      rewrite He. split; [|split].
      * split; [discriminate | intro H; elim (H Hr)].
      * split; auto.
      * discriminate.
    + assert (Hr : ~ reachable G source target).
      { apply (no_level_unreachable G source target Hne).
        intros L' q. apply Hnone. }
      rewrite He. split; [|split].
      * split; auto.
      * split; [discriminate | intro H; elim (Hr H)].
      * auto.
  - intros g e.
    unfold bidirectional_all_shortest_paths, frontiers_after, round_yields.
    destruct (negb (contains G source)); [discriminate|].
    destruct (negb (contains G target)); [discriminate|].
    destruct (is_multigraph G); intros [= <-].
    + apply sp_loop_multi_raise.
    + apply sp_loop_raise.
  - intros e. unfold bidirectional_has_path.
    destruct (negb (contains G source)); [intros [= <-]; eauto|].
    destruct (negb (contains G target)); [intros [= <-]; eauto|].
    intro H. exfalso.
    destruct (is_multigraph G); revert H; apply has_path_loop_no_raise.
  - intros cutoff e. unfold bidirectional_all_simple_paths.
    destruct (negb (contains G source)); [intros [= <-]; eauto|].
    destruct (negb (contains G target)); [intros [= <-]; eauto|].
    destruct (is_multigraph G); discriminate.
  - intros cutoff g. unfold bidirectional_all_simple_paths.
    destruct (negb (contains G source)); [discriminate|].
    destruct (negb (contains G target)); [discriminate|].
    destruct (is_multigraph G); intros [= <-]; apply simple_engine_ending.
Qed.

Lemma no_path_error_iff_unreachable_witness :
  (exists g,
     bidirectional_all_shortest_paths 10 lonely_and_edge 0 1 = Return g /\
     (ending g = Raise (NetworkXNoPath 0 1) <->
      ~ reachable lonely_and_edge 0 1) /\
     (ending g = Return tt <-> reachable lonely_and_edge 0 1) /\
     (ending g = Raise (NetworkXNoPath 0 1) -> yielded g = [])) /\
  (NetworkXNoPath 0 1 = NetworkXNoPath 0 1 /\
   @nil path = [] /\
   exists k,
     k < 10 /\
     (forall j, j < k ->
        fst (frontiers_after lonely_and_edge 0 1 j) <> [] /\
        snd (frontiers_after lonely_and_edge 0 1 j) <> [] /\
        round_yields lonely_and_edge 0 1 j = []) /\
     (fst (frontiers_after lonely_and_edge 0 1 k) = [] \/
      snd (frontiers_after lonely_and_edge 0 1 k) = [])).
Proof.
  split.
  - apply (proj1 (no_path_error_iff_unreachable 10 lonely_and_edge 0 1)).
    + exact lonely_and_edge_wf.
    + reflexivity.
    + reflexivity.
    + reflexivity.
    + discriminate.
    + unfold enough_fuel. simpl. lia.
  - apply (proj1 (proj2 (no_path_error_iff_unreachable 10 lonely_and_edge 0 1))
             {| yielded := []; ending := Raise (NetworkXNoPath 0 1) |}
             (NetworkXNoPath 0 1)).
    + vm_compute. reflexivity.
    + reflexivity.
Defined.

(** ** C5: all simple paths, exhaustiveness *)

(** C5 does not hold for every graph and every pair of nodes. From node 0
    of [K4] to itself the one-node sequence is a simple path but nothing is
    yielded. And in the directed multigraph [multi_fork] the sequence
    0, 2, 1 is yielded although the graph has no edge from 2 to 1. *)
Lemma simple_paths_not_the_reference_set :
  (wf_graph K4 /\ simple_path K4 0 0 [0] /\
   bidirectional_all_simple_paths K4 0 0 None =
   Return {| yielded := []; ending := Return tt |}) /\
  (wf_graph multi_fork /\ ~ simple_path multi_fork 0 1 [0; 2; 1] /\
   bidirectional_all_simple_paths multi_fork 0 1 None =
   Return {| yielded := [[0; 2; 1]]; ending := Return tt |}).
Proof.
  split; (split; [|split]).
  - exact K4_wf.
  - split; [repeat split | nodup_tac].
  - vm_compute. reflexivity.
  - exact multi_fork_wf.
  - intros [[_ [_ Hc]] _]. cbv in Hc. tauto.
  - vm_compute. reflexivity.
Qed.

(** C5 (amended): on every graph that is not a directed multigraph and for
    every two nodes of it, the paths yielded by
    [bidirectional_all_simple_paths] with the default cutoff are exactly the
    simple paths from source to target that have at least one edge (every
    simple path when source and target differ); equivalently, these are the
    paths yielded for some cutoff between 1 and the number of nodes
    minus 1. *)
Theorem simple_paths_exhaustive (G : Graph) (source target : node) :
  wf_graph G ->
  is_multigraph G && is_directed G = false ->
  contains G source = true -> contains G target = true ->
  exists g,
    bidirectional_all_simple_paths G source target None = Return g /\
    (forall p, In p (yielded g) <->
               simple_path G source target p /\ 2 <= length p) /\
    (forall p, simple_path G source target p /\ 2 <= length p <->
               exists c g',
                 (1 <= c <= Z.of_nat (len G) - 1)%Z /\
                 bidirectional_all_simple_paths G source target (Some c) =
                 Return g' /\
                 In p (yielded g')).
Proof.
  intros Hwf Hk Hs Ht.
  assert (Hb := wf_backward Hwf Hk).
  assert (Hin : forall c p,
            In p (yielded (simple_paths_engine (neighbors_of G) source target c))
            <-> simple_path G source target p /\ 2 <= length p /\
                (Z.of_nat (length p) - 1 <= c)%Z).
  { intros c p. rewrite (simple_engine_In (neighbors_of G) source target Hb).
    split.
    - intros [L [H1 [H2 H3]]].
      assert (Hlen : length p = S L) by apply H3.
      split; [apply simple_path_spath; eauto|]. split; lia.
    - intros [Hp [H1 H2]]. apply simple_path_spath in Hp.
      destruct Hp as [L Hp]. assert (Hlen : length p = S L) by apply Hp.
      exists L. split; [lia|]. split; [lia|assumption]. }
  rewrite simple_paths_dispatch by assumption.
  eexists. split; [reflexivity|]. split.
  - intro p. rewrite Hin. split; [tauto|].
    intros [Hp H2]. split; [assumption|]. split; [assumption|].
    assert (Hle := simple_path_bound G source target p Hwf Hs Hp). lia.
  - intro p. split.
    + intros [Hp H2].
      assert (Hle := simple_path_bound G source target p Hwf Hs Hp).
      exists (Z.of_nat (len G) - 1)%Z. eexists.
      split; [lia|]. rewrite simple_paths_dispatch by assumption.
      split; [reflexivity|]. apply Hin. split; [assumption|]. split; lia.
    + intros [c [g' [Hc [Hg' Hp]]]].
      rewrite simple_paths_dispatch in Hg' by assumption.
      injection Hg' as <-. apply Hin in Hp. tauto.
Qed.

Lemma simple_paths_exhaustive_witness :
  exists g,
    bidirectional_all_simple_paths K4 0 3 None = Return g /\
    (forall p, In p (yielded g) <-> simple_path K4 0 3 p /\ 2 <= length p) /\
    (forall p, simple_path K4 0 3 p /\ 2 <= length p <->
               exists c g',
                 (1 <= c <= Z.of_nat (len K4) - 1)%Z /\
                 bidirectional_all_simple_paths K4 0 3 (Some c) = Return g' /\
                 In p (yielded g')).
Proof.
  apply (simple_paths_exhaustive K4 0 3).
  - exact K4_wf.
  - reflexivity.
  - reflexivity.
  - reflexivity.
Defined.

(** ** C6: the two variants of each engine *)


Section SameNeighbors.

Variables nb1 nb2 : bool -> node -> list node.
Hypothesis same : forall modus n, nb1 modus n = nb2 modus n.








End SameNeighbors.





Section AnyOrder.

Variable neighbors : bool -> node -> list node.
Variables source target : node.


Variable order : list path -> list path.
Hypothesis order_perm : forall l, Permutation (order l) l.


End AnyOrder.

(** Iterated in the order of insertion, the engine is [sp_loop]. *)
Lemma sp_loop_in_insertion_order (neighbors : bool -> node -> list node)
    (source target : node) (fuel : nat) :
  forall found0 tree nodes,
    sp_loop_in_order (fun l => l) neighbors source target fuel found0 tree
                     nodes =
    sp_loop neighbors source target fuel found0 tree nodes.
Proof.
  induction fuel as [|f IH]; intros found0 [t0 t1] nodes; [reflexivity|].
  cbn [sp_loop_in_order sp_loop fst snd]. cbv zeta.
  destruct (negb found0 && truthy (sel (t0, t1) false) &&
            truthy (sel (t0, t1) true)); [|reflexivity].
  now rewrite IH.
Qed.




Lemma K4_collapsed : collapsed K4_multi K4.
Proof.
  split; try reflexivity.
  intro u. do 4 (destruct u as [|u]; [reflexivity|]). reflexivity.
Qed.


(** ** C7: missing end points *)

(** With integer arguments, whatever the graph, when the source or the
    target is not a node of it each of the three operations fails with the
    error of a missing node (NetworkXError, the spec's NodeNotFound); the
    failure is the result of the call itself, no generator is returned and
    no traversal is started. *)
Lemma missing_node_fails_at_the_call (fuel : nat) (G : Graph)
    (source target : node) (cutoff : option Z) :
  contains G source = false \/ contains G target = false ->
  exists n,
    (n = source \/ n = target) /\ contains G n = false /\
    bidirectional_has_path fuel G source target =
      Raise (NetworkXError (VInt n)) /\
    bidirectional_all_shortest_paths fuel G source target =
      Raise (NetworkXError (VInt n)) /\
    bidirectional_all_simple_paths G source target cutoff =
      Raise (NetworkXError (VInt n)).
Proof.
  intro H. unfold bidirectional_has_path, bidirectional_all_shortest_paths,
    bidirectional_all_simple_paths.
  destruct (contains G source) eqn:Es; simpl.
  - destruct H as [H|H]; [discriminate|]. rewrite H. simpl.
    exists target. auto.
  - exists source. auto.
Qed.

(** With arbitrary arguments the first of source and target that is not in
    the graph decides the outcome of each operation, before any traversal:
    the outcome of building the message for it. *)
Lemma absent_argument_decides (fuel : nat) (G : Graph)
    (source target : value) (cutoff : option Z) :
  value_in G source = false \/ value_in G target = false ->
  exists v,
    (v = source \/ v = target) /\ value_in G v = false /\
    with_arguments G (bidirectional_has_path fuel G) source target =
      raise_not_in_graph v /\
    with_arguments G (bidirectional_all_shortest_paths fuel G) source target =
      raise_not_in_graph v /\
    with_arguments G
      (fun s t => bidirectional_all_simple_paths G s t cutoff) source target =
      raise_not_in_graph v.
Proof.
  intro H. unfold with_arguments.
  destruct (value_in G source) eqn:Es; simpl.
  - destruct H as [H|H]; [discriminate|]. rewrite H. simpl.
    exists target. auto.
  - exists source. auto.
Qed.

(** Arguments that are both in the graph are integers, and the call is the
    function on integers. *)
Lemma with_arguments_nodes {A} (G : Graph) (run : node -> node -> outcome A)
    (source target : value) :
  value_in G source = true -> value_in G target = true ->
  exists s t,
    source = VInt s /\ target = VInt t /\
    with_arguments G run source target = run s t.
Proof.
  intros Hs Ht. unfold with_arguments. rewrite Hs, Ht. simpl.
  destruct source as [s|]; [|discriminate].
  destruct target as [t|]; [|discriminate].
  exists s, t. auto.
Qed.

(** C7 fails on the code for a tuple: with the pair (0, 1) as source, which
    is not a node of [K4], building the message of the error fails, and each
    of the three operations ends with TypeError instead of the error of a
    missing node. For an integer that is not a node the error is the one the
    claim names. *)
Theorem absent_tuple_raises_TypeError :
  value_in K4 (VTuple [VInt 0; VInt 1]) = false /\
  with_arguments K4 (bidirectional_has_path 10 K4)
    (VTuple [VInt 0; VInt 1]) (VInt 3) = Raise TypeError /\
  with_arguments K4 (bidirectional_all_shortest_paths 10 K4)
    (VTuple [VInt 0; VInt 1]) (VInt 3) = Raise TypeError /\
  with_arguments K4 (fun s t => bidirectional_all_simple_paths K4 s t None)
    (VTuple [VInt 0; VInt 1]) (VInt 3) = Raise TypeError /\
  with_arguments K4 (bidirectional_has_path 10 K4) (VInt 7) (VInt 3) =
    Raise (NetworkXError (VInt 7)).
Proof. repeat split. Qed.

(** ** C8: the seen sets *)

(** C8 does not hold for the all-shortest-paths engine. On
    [triangle_and_star], searching from node 0 to node 9, the third round
    extends the source side; node 2 is in the seen set of that side since
    the first round, and the partial path 0, 1, 2 puts it on the frontier
    again. *)
Lemma seen_node_admitted_again :
  let nb := neighbors_simple triangle_and_star in
  let state := sp_after nb 2 ([[0]], [[9]]) ([0], [9]) in
  let st := sp_round nb false (fst state) (snd state) in
  (length (sel (fst state) true) <? length (sel (fst state) false)) = false /\
  In 2 (sel (snd state) false) /\
  In [0; 1; 2] (sp_temp_tree st).
Proof. vm_compute. intuition. Qed.

Section SeenSets.

Variable neighbors : bool -> node -> list node.

Lemma hp_next_loop (fuel : nat) (leaves nodes leaves' nodes' : list node * list node) :
  hp_next neighbors (leaves, nodes) = Some (leaves', nodes') ->
  has_path_loop neighbors (S fuel) leaves nodes =
  has_path_loop neighbors fuel leaves' nodes'.
Proof.
  unfold hp_next. rewrite has_path_loop_S. cbn [fst snd].
  destruct (truthy (sel leaves false) && truthy (sel leaves true));
    [|discriminate].
  destruct (scan_leaves _ _ _ _ _ _); [|discriminate].
  now intros [= <- <-].
Qed.

Lemma hp_after_loop (k fuel : nat) :
  forall leaves nodes leaves' nodes',
    hp_after neighbors k (leaves, nodes) = Some (leaves', nodes') ->
    has_path_loop neighbors (k + fuel) leaves nodes =
    has_path_loop neighbors fuel leaves' nodes'.
Proof.
  induction k as [|k IH]; intros leaves nodes leaves' nodes' H.
  - injection H as <- <-. reflexivity.
  - cbn [hp_after] in H.
    destruct (hp_next neighbors (leaves, nodes)) as [[l1 n1]|] eqn:E;
      [|discriminate].
    cbn [Nat.add]. rewrite (hp_next_loop _ _ _ _ _ E). now apply IH.
Qed.

Lemma hp_after_add (j m : nat) :
  forall state,
    hp_after neighbors (j + m) state =
    match hp_after neighbors j state with
    | Some state' => hp_after neighbors m state'
    | None => None
    end.
Proof.
  induction j as [|j IH]; intro state; [reflexivity|].
  cbn [Nat.add hp_after].
  destruct (hp_next neighbors state); [apply IH | reflexivity].
Qed.

(** What one pass does to the seen sets and the frontiers. *)
Lemma hp_next_seen (leaves nodes leaves' nodes' : list node * list node) :
  hp_next neighbors (leaves, nodes) = Some (leaves', nodes') ->
  let modus := length (sel leaves true) <? length (sel leaves false) in
  sel leaves' (negb modus) = sel leaves (negb modus) /\
  sel nodes' (negb modus) = sel nodes (negb modus) /\
  (forall x, In x (sel leaves' modus) -> ~ In x (sel nodes modus)) /\
  (forall x, In x (sel nodes' modus) <->
             In x (sel nodes modus) \/ In x (sel leaves' modus)).
Proof.
  intros H modus. unfold hp_next in H. cbn [fst snd] in H. cbv zeta in H.
  fold modus in H. clearbody modus.
  destruct (truthy (sel leaves false) && truthy (sel leaves true));
    [|discriminate].
  destruct (scan_leaves _ _ _ _ _ _) as [temp|] eqn:E; [|discriminate].
  injection H as <- <-. rewrite !sel_upd_other, !sel_upd_same.
  apply scan_leaves_Some in E. destruct E as [E _].
  split; [reflexivity|]. split; [reflexivity|]. split.
  - intros x Hx. apply E in Hx. destruct Hx as [[]|[l [_ [_ Hn]]]]. exact Hn.
  - intro x. apply update_In.
Qed.

Lemma hp_next_grows (leaves nodes leaves' nodes' : list node * list node) :
  hp_next neighbors (leaves, nodes) = Some (leaves', nodes') ->
  (forall side, incl (sel nodes side) (sel nodes' side)) /\
  ((forall side, incl (sel leaves side) (sel nodes side)) ->
   forall side, incl (sel leaves' side) (sel nodes' side)).
Proof.
  intro H. destruct (hp_next_seen _ _ _ _ H) as [H1 [H2 [_ H4]]].
  set (modus := length (sel leaves true) <? length (sel leaves false)) in *.
  clearbody modus. split.
  - intro side. destruct (side_cases side modus) as [-> | ->].
    + intros x Hx. apply H4. now left.
    + rewrite H2. apply incl_refl.
  - intros Hl side. destruct (side_cases side modus) as [-> | ->].
    + intros x Hx. apply H4. now right.
    + rewrite H1, H2. apply Hl.
Qed.

Lemma hp_after_grows (m : nat) :
  forall leaves nodes leaves' nodes',
    hp_after neighbors m (leaves, nodes) = Some (leaves', nodes') ->
    (forall side, incl (sel nodes side) (sel nodes' side)) /\
    ((forall side, incl (sel leaves side) (sel nodes side)) ->
     forall side, incl (sel leaves' side) (sel nodes' side)).
Proof.
  induction m as [|m IH]; intros leaves nodes leaves' nodes' H.
  - injection H as <- <-. split; [intro side; apply incl_refl | auto].
  - cbn [hp_after] in H.
    destruct (hp_next neighbors (leaves, nodes)) as [[l1 n1]|] eqn:E;
      [|discriminate].
    destruct (hp_next_grows _ _ _ _ E) as [G1 G2].
    destruct (IH _ _ _ _ H) as [G3 G4]. split.
    + intros side x Hx. apply G3, G1, Hx.
    + intros Hl. apply G4, G2, Hl.
Qed.

Lemma yield_then_nil (g : generator) : yield_then [] g = g.
Proof. destruct g. reflexivity. Qed.

Lemma sp_after_add (j m : nat) :
  forall tree nodes,
    sp_after neighbors (j + m) tree nodes =
    sp_after neighbors m (fst (sp_after neighbors j tree nodes))
                         (snd (sp_after neighbors j tree nodes)).
Proof.
  induction j as [|j IH]; intros tree nodes; [reflexivity|].
  cbn [Nat.add sp_after]. cbv zeta. apply IH.
Qed.

Lemma sp_round_grows (found0 : bool) (tree : list path * list path)
    (nodes : list node * list node) (side : bool) :
  let modus := length (sel tree true) <? length (sel tree false) in
  incl (sel nodes side)
       (sel (upd nodes modus
                 (sp_nodes_source (sp_round neighbors found0 tree nodes)))
            side).
Proof.
  intro modus. destruct (side_cases side modus) as [-> | ->].
  - rewrite sel_upd_same. intros x Hx. unfold sp_round.
    apply sp_visit_nodes. left. exact Hx.
  - rewrite sel_upd_other. apply incl_refl.
Qed.

Lemma sp_after_grows (m : nat) :
  forall tree nodes,
    (forall side, incl (sel nodes side)
                       (sel (snd (sp_after neighbors m tree nodes)) side)) /\
    (leaves_seen tree nodes ->
     leaves_seen (fst (sp_after neighbors m tree nodes))
                 (snd (sp_after neighbors m tree nodes))).
Proof.
  induction m as [|m IH]; intros tree nodes.
  - split; [intro side; apply incl_refl | auto].
  - cbn [sp_after]. cbv zeta.
    destruct (IH (upd tree (length (sel tree true) <? length (sel tree false))
                      (sp_temp_tree (sp_round neighbors false tree nodes)))
                 (upd nodes (length (sel tree true) <? length (sel tree false))
                      (sp_nodes_source (sp_round neighbors false tree nodes))))
      as [G1 G2].
    split.
    + intros side x Hx. apply G1.
      apply (sp_round_grows false tree nodes side). exact Hx.
    + intro Hseen. apply G2.
      exact (sp_round_seen neighbors false tree nodes Hseen).
Qed.

Lemma sp_after_loop (source target : node) (k fuel : nat) :
  forall tree nodes,
    (forall j, j < k ->
       fst (fst (sp_after neighbors j tree nodes)) <> [] /\
       snd (fst (sp_after neighbors j tree nodes)) <> [] /\
       sp_out (sp_round neighbors false
                 (fst (sp_after neighbors j tree nodes))
                 (snd (sp_after neighbors j tree nodes))) = []) ->
    sp_loop neighbors source target (k + fuel) false tree nodes =
    sp_loop neighbors source target fuel false
            (fst (sp_after neighbors k tree nodes))
            (snd (sp_after neighbors k tree nodes)).
Proof.
  induction k as [|k IH]; intros tree nodes Hrun; [reflexivity|].
  cbn [Nat.add]. rewrite sp_loop_S.
  destruct (Hrun 0 ltac:(lia)) as [H0 [H1 Hout]]. simpl in H0, H1, Hout.
  assert (E0 : truthy (sel tree false) = true)
    by (simpl; destruct (fst tree); [contradiction | reflexivity]).
  assert (E1 : truthy (sel tree true) = true)
    by (simpl; destruct (snd tree); [contradiction | reflexivity]).
  rewrite E0, E1. simpl negb. cbn [andb].
  rewrite sp_round_found, Hout. simpl orb. simpl truthy.
  rewrite yield_then_nil. cbn [sp_after]. cbv zeta. apply IH.
  intros j Hj. exact (Hrun (S j) ltac:(lia)).
Qed.

End SeenSets.

(** C8 (amended): in the reachability engine, whose loop [has_path_loop]
    reaches the state [hp_after k] after [k] passes, the seen set of each
    side holds every node that was on that side's frontier in any pass so
    far, and a pass admits to the frontier of the side it extends no node of
    that side's seen set, so no node is admitted twice. In the
    all-shortest-paths engine for simple graphs, whose loop [sp_loop]
    reaches the state [sp_after k] after [k] passes without a meeting, the
    seen set of each side also holds the leaf of every partial path that was
    on that side's frontier in any pass so far, but it does not stop a seen
    node from being admitted again: the next frontier of the extended side
    holds every extension of a partial path by a neighbour of its leaf that
    is not on the path itself. *)
Theorem seen_sets_accumulate (neighbors : bool -> node -> list node)
    (source target : node) (k : nat) :
  (forall leaves nodes,
     hp_after neighbors k (([source], [target]), ([source], [target])) =
       Some (leaves, nodes) ->
     (forall fuel,
        has_path_engine neighbors (k + fuel) source target =
        has_path_loop neighbors fuel leaves nodes) /\
     (forall j leaves_j nodes_j side x,
        j <= k ->
        hp_after neighbors j (([source], [target]), ([source], [target])) =
          Some (leaves_j, nodes_j) ->
        In x (sel leaves_j side) -> In x (sel nodes side)) /\
     (forall leaves' nodes',
        hp_next neighbors (leaves, nodes) = Some (leaves', nodes') ->
        let modus := length (sel leaves true) <? length (sel leaves false) in
        sel leaves' (negb modus) = sel leaves (negb modus) /\
        (forall x, In x (sel nodes modus) -> ~ In x (sel leaves' modus)))) /\
  (let after j := sp_after neighbors j ([[source]], [[target]])
                           ([source], [target]) in
   let tree := fst (after k) in
   let nodes := snd (after k) in
   let modus := length (sel tree true) <? length (sel tree false) in
   ((forall j, j < k ->
       fst (fst (after j)) <> [] /\ snd (fst (after j)) <> [] /\
       sp_out (sp_round neighbors false (fst (after j)) (snd (after j))) = [])
    -> forall fuel,
       sp_loop neighbors source target (k + fuel) false
               ([[source]], [[target]]) ([source], [target]) =
       sp_loop neighbors source target fuel false tree nodes) /\
   (forall j side p,
      j <= k -> In p (sel (fst (after j)) side) ->
      In (last_node p) (sel nodes side)) /\
   (forall p,
      In p (sel (fst (after (S k))) modus) <->
      exists path_s s,
        In path_s (sel tree modus) /\
        In s (neighbors modus (last_node path_s)) /\
        ~ In s path_s /\ p = path_s ++ [s])).
Proof.
  split.
  - intros leaves nodes Hk. split; [|split].
    + intro fuel. unfold has_path_engine. now apply hp_after_loop.
    + intros j leaves_j nodes_j side x Hj Hjs Hx.
      replace k with (j + (k - j)) in Hk by lia.
      rewrite hp_after_add, Hjs in Hk.
      destruct (hp_after_grows neighbors j _ _ _ _ Hjs) as [_ Gj].
      destruct (hp_after_grows neighbors (k - j) _ _ _ _ Hk) as [Gk _].
      apply Gk. apply Gj; [|exact Hx].
      intros s y Hy. exact Hy.
    + intros leaves' nodes' Hn modus.
      destruct (hp_next_seen neighbors _ _ _ _ Hn) as [H1 [_ [H3 _]]].
      fold modus in H1, H3. split; [exact H1|].
      intros x Hx Hx'. exact (H3 x Hx' Hx).
  - intros after tree nodes modus. split; [|split].
    + intros Hrun fuel. now apply sp_after_loop.
    + intros j side p Hj Hp. subst nodes after. cbv beta in *.
      replace k with (j + (k - j)) by lia. rewrite sp_after_add.
      destruct (sp_after_grows neighbors j ([[source]], [[target]])
                  ([source], [target])) as [_ Gj].
      destruct (sp_after_grows neighbors (k - j)
                  (fst (sp_after neighbors j ([[source]], [[target]])
                          ([source], [target])))
                  (snd (sp_after neighbors j ([[source]], [[target]])
                          ([source], [target])))) as [Gk _].
      apply Gk. apply (Gj (leaves_seen_init source target)). exact Hp.
    + intro p. subst after. cbv beta.
      replace (S k) with (k + 1) by lia. rewrite sp_after_add.
      fold tree nodes. cbn [sp_after fst]. cbv zeta. fold modus.
      rewrite sel_upd_same. unfold sp_round. fold modus.
      rewrite sp_visit_temp. simpl sp_temp_tree. split.
      * intros [[]|[path_s [H1 [s [H2 [H3 H4]]]]]]. exists path_s, s. auto.
      * intros [path_s [s [H1 [H2 [H3 H4]]]]]. right. exists path_s.
        split; [exact H1|]. exists s. auto.
Qed.

Lemma seen_sets_accumulate_witness :
  (forall fuel,
     has_path_engine (neighbors_simple triangle_and_star) (2 + fuel) 0 9 =
     has_path_loop (neighbors_simple triangle_and_star) fuel
                   ([1; 2], [5; 6; 7]) ([0; 2; 1], [9; 7; 6; 5])) /\
  (forall j leaves_j nodes_j side x,
     j <= 2 ->
     hp_after (neighbors_simple triangle_and_star) j
              (([0], [9]), ([0], [9])) = Some (leaves_j, nodes_j) ->
     In x (sel leaves_j side) ->
     In x (sel ([0; 2; 1], [9; 7; 6; 5]) side)) /\
  (forall leaves' nodes',
     hp_next (neighbors_simple triangle_and_star)
             (([1; 2], [5; 6; 7]), ([0; 2; 1], [9; 7; 6; 5])) =
       Some (leaves', nodes') ->
     let modus := length (sel ([1; 2], [5; 6; 7]) true) <?
                  length (sel ([1; 2], [5; 6; 7]) false) in
     sel leaves' (negb modus) = sel ([1; 2], [5; 6; 7]) (negb modus) /\
     (forall x, In x (sel ([0; 2; 1], [9; 7; 6; 5]) modus) ->
                ~ In x (sel leaves' modus))).
Proof.
  apply (proj1 (seen_sets_accumulate (neighbors_simple triangle_and_star)
                  0 9 2) ([1; 2], [5; 6; 7]) ([0; 2; 1], [9; 7; 6; 5])).
  vm_compute. reflexivity.
Defined.

(** ** C9: all simple paths never fail *)

(** C9 does not hold for every graph: in the directed multigraph
    [multi_fork] no path leads from node 0 to node 1, yet a sequence is
    yielded. *)
Lemma simple_paths_yield_without_a_path :
  wf_graph multi_fork /\
  ~ reachable multi_fork 0 1 /\
  exists g, bidirectional_all_simple_paths multi_fork 0 1 None = Return g /\
            yielded g <> [].
Proof.
  split; [exact multi_fork_wf|].
  split; [exact multi_fork_unreachable|].
  eexists. split; [vm_compute; reflexivity|]. discriminate.
Qed.

(** C9 (amended): for every graph and every two nodes of it,
    [bidirectional_all_simple_paths] with a cutoff below 1 returns the empty
    sequence, and with any cutoff it returns a sequence whose iteration ends
    normally, never with an error; when the graph is not a directed
    multigraph and no path leads from source to target, the sequence is
    empty. *)
Theorem simple_paths_never_fail (G : Graph) (source target : node) :
  contains G source = true -> contains G target = true ->
  (forall cutoff, (cutoff < 1)%Z ->
     bidirectional_all_simple_paths G source target (Some cutoff) =
     Return {| yielded := []; ending := Return tt |}) /\
  (forall cutoff,
     exists g,
       bidirectional_all_simple_paths G source target cutoff = Return g /\
       ending g = Return tt /\
       (wf_graph G -> is_multigraph G && is_directed G = false ->
        ~ reachable G source target -> yielded g = [])).
Proof.
  intros Hs Ht. split.
  - intros cutoff Hc. rewrite simple_paths_dispatch by assumption.
    unfold simple_paths_engine.
    destruct (Z.ltb_spec cutoff 1); [reflexivity | lia].
  - intro cutoff. rewrite simple_paths_dispatch by assumption.
    eexists. split; [reflexivity|]. split; [apply simple_engine_ending|].
    intros Hwf Hk Hnr.
    destruct (yielded _) as [|p l] eqn:E; [reflexivity|]. exfalso.
    assert (Hp : In p (yielded (simple_paths_engine (neighbors_of G) source
                          target
                          match cutoff with
                          | Some c => c
                          | None => (Z.of_nat (len G) - 1)%Z
                          end)))
      by (rewrite E; now left).
    apply (simple_engine_In _ _ _ (wf_backward Hwf Hk)) in Hp.
    destruct Hp as [L [_ [_ [[Hh [Hl _]] Hc]]]].
    apply Hnr. exists p. split; [assumption|]. split; assumption.
Qed.

Lemma simple_paths_never_fail_witness :
  (forall cutoff, (cutoff < 1)%Z ->
     bidirectional_all_simple_paths K4 0 3 (Some cutoff) =
     Return {| yielded := []; ending := Return tt |}) /\
  (forall cutoff,
     exists g,
       bidirectional_all_simple_paths K4 0 3 cutoff = Return g /\
       ending g = Return tt /\
       (wf_graph K4 -> is_multigraph K4 && is_directed K4 = false ->
        ~ reachable K4 0 3 -> yielded g = [])).
Proof.
  apply (simple_paths_never_fail K4 0 3).
  - reflexivity.
  - reflexivity.
Defined.

(** ** C10: source equal to target *)

Lemma no_meeting_at_equal_ends (neighbors : bool -> node -> list node)
    (s : node) (modus : bool) (d0 d1 : nat) (q : path) :
  ~ meeting neighbors s s modus d0 d1 q.
Proof.
  intro H. apply meeting_shape in H. revert H. apply shape_loop. lia.
Qed.

(** C10: for every graph and every node [s] of it, searching from [s] to
    [s] never produces the one-node path: [bidirectional_all_simple_paths]
    yields nothing whatever the cutoff, and
    [bidirectional_all_shortest_paths] yields nothing and raises
    NetworkXNoPath, because there is no meeting: the two partial paths of a
    candidate meeting both contain [s]. *)
Theorem equal_ends_yield_nothing (fuel : nat) (G : Graph) (s : node) :
  wf_graph G -> contains G s = true -> enough_fuel G fuel ->
  (forall cutoff,
     exists g, bidirectional_all_simple_paths G s s cutoff = Return g /\
               yielded g = [] /\ ending g = Return tt) /\
  bidirectional_all_shortest_paths fuel G s s =
    Return {| yielded := []; ending := Raise (NetworkXNoPath s s) |} /\
  (forall modus d0 d1 q, ~ meeting (neighbors_of G) s s modus d0 d1 q).
Proof.
  intros Hwf Hs Hf. split; [|split].
  - intro cutoff. rewrite simple_paths_dispatch by assumption.
    eexists. split; [reflexivity|]. split; [|apply simple_engine_ending].
    destruct (yielded _) as [|p l] eqn:E; [reflexivity|]. exfalso.
    assert (Hp : In p (yielded (simple_paths_engine (neighbors_of G) s s
                          match cutoff with
                          | Some c => c
                          | None => (Z.of_nat (len G) - 1)%Z
                          end)))
      by (rewrite E; now left).
    apply simple_engine_shape in Hp. destruct Hp as [L [HL [_ Hp]]].
    revert Hp. now apply shape_loop.
  - destruct (shortest_paths_generic G s s Hwf Hs Hs fuel (fun _ _ => False) Hf)
      as [g [Hg Hres]].
    + intros modus d0 d1 q. split; [apply no_meeting_at_equal_ends | tauto].
    + intros L q side d [].
    + rewrite Hg. f_equal.
      destruct Hres as [[L [_ [_ [Hy [Hne _]]]]]|[_ [Hy He]]].
      * exfalso. destruct (yielded g) as [|q l]; [congruence|].
        apply (Hy q). now left.
      * destruct g as [ys e]. simpl in *. now subst.
  - intros modus d0 d1 q. apply no_meeting_at_equal_ends.
Qed.

Lemma equal_ends_yield_nothing_witness :
  (forall cutoff,
     exists g, bidirectional_all_simple_paths K4 0 0 cutoff = Return g /\
               yielded g = [] /\ ending g = Return tt) /\
  bidirectional_all_shortest_paths 10 K4 0 0 =
    Return {| yielded := []; ending := Raise (NetworkXNoPath 0 0) |} /\
  (forall modus d0 d1 q, ~ meeting (neighbors_of K4) 0 0 modus d0 d1 q).
Proof.
  apply (equal_ends_yield_nothing 10 K4 0).
  - exact K4_wf.
  - reflexivity.
  - unfold enough_fuel. simpl. lia.
Defined.

(* ================================================================= *)
(** * Further properties of the searches *)

(** ** The rounds of the all-simple-paths engine *)

Section SimpleRounds.

Variable neighbors : bool -> node -> list node.
Variables source target : node.

Local Abbreviation tree_inv := (tree_inv neighbors source target).
Local Abbreviation meeting := (meeting neighbors source target).

Lemma simple_rounds_split (n m : nat) :
  forall tree,
    simple_rounds neighbors (n + m) tree =
    simple_rounds neighbors n tree ++
    simple_rounds neighbors m (simple_after neighbors n tree).
Proof.
  induction n as [|n IH]; intro tree; [reflexivity|].
  cbn [Nat.add simple_rounds simple_after]. cbv zeta.
  now rewrite IH, app_assoc.
Qed.

Lemma simple_after_inv (n : nat) :
  forall tree d0 d1,
    tree_inv tree d0 d1 ->
    exists e0 e1, e0 + e1 = d0 + d1 + n /\
                  tree_inv (simple_after neighbors n tree) e0 e1.
Proof.
  induction n as [|n IH]; intros tree d0 d1 Hinv.
  - exists d0, d1. split; [lia | assumption].
  - destruct (simple_round_spec neighbors source target tree d0 d1 Hinv)
      as [_ Hinv'].
    destruct (IH _ _ _ Hinv') as [e0 [e1 [He Hinv2]]].
    exists e0, e1. split; [|exact Hinv2].
    rewrite depth_sum in He. lia.
Qed.

Variable V : list node.
Hypothesis closed : forall modus u v, In v (neighbors modus u) -> In v V.
Hypothesis source_in : In source V.
Hypothesis target_in : In target V.

Lemma meeting_incl (modus : bool) (d0 d1 : nat) (q : path) :
  meeting modus d0 d1 q -> incl q V.
Proof.
  intros [path_s [s [path_t [Hs [_ [_ [Ht [_ [_ ->]]]]]]]]].
  apply swalk_incl with (V := V) in Hs;
    [|apply closed | destruct modus; assumption].
  apply swalk_incl with (V := V) in Ht;
    [|apply closed | destruct modus; assumption].
  unfold stitch. destruct modus; intros x Hx; apply in_app_or in Hx;
    destruct Hx as [Hx|Hx]; auto; apply in_rev in Hx; auto.
Qed.

(** Once the two sides are as deep together as the graph has nodes, no
    further round yields anything. *)
Lemma simple_rounds_exhausted (rounds : nat) (tree : dict * dict)
    (d0 d1 : nat) :
  tree_inv tree d0 d1 -> length V <= d0 + d1 + 1 ->
  simple_rounds neighbors rounds tree = [].
Proof.
  intros Hinv Hlen.
  destruct (simple_rounds neighbors rounds tree) as [|q l] eqn:E;
    [reflexivity|]. exfalso.
  assert (Hq : In q (simple_rounds neighbors rounds tree))
    by (rewrite E; now left).
  destruct (simple_rounds_sound neighbors source target
              (fun L q => shape source target L q /\ incl q V)
              (fun m e0 e1 p H =>
                 conj (meeting_shape neighbors source target m e0 e1 p H)
                      (meeting_incl m e0 e1 p H))
              rounds tree d0 d1 Hinv q Hq)
    as [L [H1 [_ [[_ [_ [Hnd HL]]] Hincl]]]].
  assert (Hle := NoDup_incl_length Hnd Hincl). lia.
Qed.

End SimpleRounds.

Lemma simple_engine_exact (G : Graph) (source target : node) :
  wf_graph G -> is_multigraph G && is_directed G = false ->
  forall c p,
    In p (yielded (simple_paths_engine (neighbors_of G) source target c)) <->
    simple_path G source target p /\ 2 <= length p /\
    (Z.of_nat (length p) - 1 <= c)%Z.
Proof.
  intros Hwf Hk c p.
  rewrite (simple_engine_In (neighbors_of G) source target
             (wf_backward Hwf Hk)).
  split.
  - intros [L [H1 [H2 H3]]].
    assert (Hlen : length p = S L) by apply H3.
    split; [apply simple_path_spath; eauto|]. split; lia.
  - intros [Hp [H1 H2]]. apply simple_path_spath in Hp.
    destruct Hp as [L Hp]. assert (Hlen : length p = S L) by apply Hp.
    exists L. split; [lia|]. split; [lia|assumption].
Qed.

(** ** X1: an explicit cutoff *)

(** X1: on a graph that is not a directed multigraph, the paths yielded by
    [bidirectional_all_simple_paths] with a cutoff are exactly the simple
    paths from source to target that have at least one and at most [cutoff]
    edges: none is left out and nothing else is yielded. *)
Theorem simple_paths_within_cutoff (G : Graph) (source target : node)
    (cutoff : Z) :
  wf_graph G ->
  is_multigraph G && is_directed G = false ->
  contains G source = true -> contains G target = true ->
  exists g,
    bidirectional_all_simple_paths G source target (Some cutoff) = Return g /\
    forall p, In p (yielded g) <->
              simple_path G source target p /\ 2 <= length p /\
              (Z.of_nat (length p) - 1 <= cutoff)%Z.
Proof.
  intros Hwf Hk Hs Ht. rewrite simple_paths_dispatch by assumption.
  eexists. split; [reflexivity|]. now apply simple_engine_exact.
Qed.

Lemma simple_paths_within_cutoff_witness :
  exists g,
    bidirectional_all_simple_paths K4 0 3 (Some 2%Z) = Return g /\
    forall p, In p (yielded g) <->
              simple_path K4 0 3 p /\ 2 <= length p /\
              (Z.of_nat (length p) - 1 <= 2)%Z.
Proof.
  apply (simple_paths_within_cutoff K4 0 3 2%Z).
  - exact K4_wf.
  - reflexivity.
  - reflexivity.
  - reflexivity.
Defined.

(** ** X2: a larger cutoff only appends *)

(** X2: on every graph, the sequence yielded with a cutoff is a prefix of
    the sequence yielded with any larger cutoff: the [for] loop runs the same
    rounds first. *)
Theorem simple_paths_cutoff_prefix (G : Graph) (source target : node)
    (c c' : Z) :
  contains G source = true -> contains G target = true ->
  (c <= c')%Z ->
  exists g g' rest,
    bidirectional_all_simple_paths G source target (Some c) = Return g /\
    bidirectional_all_simple_paths G source target (Some c') = Return g' /\
    yielded g' = yielded g ++ rest.
Proof.
  intros Hs Ht Hc. rewrite !simple_paths_dispatch by assumption.
  unfold simple_paths_engine.
  destruct (Z.ltb_spec c 1) as [H1|H1].
  - do 3 eexists. split; [reflexivity|]. split; reflexivity.
  - destruct (Z.ltb_spec c' 1) as [H2|H2]; [lia|].
    replace (Z.to_nat c') with (Z.to_nat c + (Z.to_nat c' - Z.to_nat c))
      by lia.
    rewrite simple_rounds_split. do 3 eexists. split; [reflexivity|].
    split; reflexivity.
Qed.

Lemma simple_paths_cutoff_prefix_witness :
  exists g g' rest,
    bidirectional_all_simple_paths K4 0 3 (Some 1%Z) = Return g /\
    bidirectional_all_simple_paths K4 0 3 (Some 3%Z) = Return g' /\
    yielded g' = yielded g ++ rest.
Proof.
  apply (simple_paths_cutoff_prefix K4 0 3 1%Z 3%Z).
  - reflexivity.
  - reflexivity.
  - lia.
Defined.

(** ** X3: the default cutoff is enough *)

(** X3: on every graph whose reported neighbours are nodes, a cutoff of
    the number of nodes minus 1 or more yields the same sequence as the
    default cutoff: once the two sides are together as deep as the graph has
    nodes, partial paths from both sides cannot be disjoint. *)
Theorem simple_paths_default_cutoff_suffices (G : Graph)
    (source target : node) (c : Z) :
  wf_graph G ->
  contains G source = true -> contains G target = true ->
  (Z.of_nat (len G) - 1 <= c)%Z ->
  bidirectional_all_simple_paths G source target (Some c) =
  bidirectional_all_simple_paths G source target None.
Proof.
  intros Hwf Hs Ht Hc. rewrite !simple_paths_dispatch by assumption.
  f_equal. unfold simple_paths_engine.
  assert (Hs' := proj1 (contains_In G source) Hs).
  assert (Ht' := proj1 (contains_In G target) Ht).
  assert (Hinit := tree_inv_init (neighbors_of G) source target).
  destruct (Z.ltb_spec (Z.of_nat (len G) - 1) 1) as [H0|H0].
  - destruct (Z.ltb_spec c 1) as [H1|H1]; [reflexivity|]. f_equal.
    apply (simple_rounds_exhausted (neighbors_of G) source target
             (node_list G) (wf_closed Hwf) Hs' Ht' _ _ 0 0 Hinit).
    unfold len in H0. lia.
  - destruct (Z.ltb_spec c 1) as [H1|H1]; [lia|]. f_equal.
    replace (Z.to_nat c)
      with (Z.to_nat (Z.of_nat (len G) - 1) +
            (Z.to_nat c - Z.to_nat (Z.of_nat (len G) - 1))) by lia.
    rewrite simple_rounds_split.
    destruct (simple_after_inv (neighbors_of G) source target
                (Z.to_nat (Z.of_nat (len G) - 1)) _ 0 0 Hinit)
      as [e0 [e1 [He Hinv]]].
    rewrite (simple_rounds_exhausted (neighbors_of G) source target
               (node_list G) (wf_closed Hwf) Hs' Ht' _ _ e0 e1 Hinv).
    + apply app_nil_r.
    + unfold len in *. lia.
Qed.

Lemma simple_paths_default_cutoff_suffices_witness :
  bidirectional_all_simple_paths K4 0 3 (Some 7%Z) =
  bidirectional_all_simple_paths K4 0 3 None.
Proof.
  apply (simple_paths_default_cutoff_suffices K4 0 3 7%Z).
  - exact K4_wf.
  - reflexivity.
  - reflexivity.
  - simpl. lia.
Defined.

(** ** X4: what the two trees hold *)

(** X4: after [k] rounds of the all-simple-paths engine, on every graph, the
    two sides are [d0] and [d1] steps deep with [d0 + d1 = k], and the
    dictionary of each side has distinct leaves as keys, files every partial
    path under its last node, and holds exactly the sequences of distinct
    nodes that start at the side's anchor and follow the side's resolver for
    the side's number of steps. *)
Theorem simple_trees_hold_all_walks (neighbors : bool -> node -> list node)
    (source target : node) (k : nat) :
  exists d0 d1,
    d0 + d1 = k /\
    forall side,
      let tree_side :=
        sel (simple_after neighbors k
               ([(source, [[source]])], [(target, [[target]])])) side in
      NoDup (map fst tree_side) /\
      (forall leave paths p,
         In (leave, paths) tree_side -> In p paths -> last_node p = leave) /\
      (forall p,
         In_dict p tree_side <->
         hd_error p = Some (anchor source target side) /\
         chain (steps (neighbors side)) p /\ NoDup p /\
         length p = S (sel (d0, d1) side)).
Proof.
  destruct (simple_after_inv neighbors source target k _ 0 0
              (tree_inv_init neighbors source target))
    as [d0 [d1 [Hd Hinv]]].
  exists d0, d1. split; [lia|]. intro side.
  destruct (Hinv side) as [[Hkeys Hlast] Hwalks].
  split; [exact Hkeys|]. split; [exact Hlast | exact Hwalks].
Qed.

(** ** No path is yielded twice on a simple graph *)

Lemma sets_nodup_add (k : node) (p : path) (d : dict) :
  sets_nodup d -> sets_nodup (dict_add k p d).
Proof.
  unfold sets_nodup. induction d as [|[k' ps] d IH]; simpl; intros H k0 ps0 Hin.
  - destruct Hin as [[= <- <-]|[]]. constructor; [simpl; tauto | constructor].
  - destruct (Nat.eqb k k').
    + destruct Hin as [[= <- <-]|Hin].
      * apply add_path_NoDup. apply (H k' ps). now left.
      * apply (H k0 ps0). now right.
    + destruct Hin as [[= <- <-]|Hin].
      * apply (H k' ps). now left.
      * apply (IH (fun a b Hab => H a b (or_intror Hab)) k0 ps0 Hin).
Qed.

Lemma dict_items_NoDup (d : dict) : NoDup (map fst d) -> NoDup d.
Proof. apply NoDup_map_inv. Qed.

Lemma dict_key_unique (d : dict) (k : node) (ps ps' : list path) :
  NoDup (map fst d) -> In (k, ps) d -> In (k, ps') d -> ps = ps'.
Proof.
  induction d as [|[k0 ps0] d IH]; simpl; intros Hnd H1 H2; [destruct H1|].
  inversion Hnd as [|? ? Hn Hnd']; subst.
  destruct H1 as [H1|H1], H2 as [H2|H2].
  - congruence.
  - exfalso. apply Hn. apply (in_map fst) in H2.
    simpl in H2. congruence.
  - exfalso. apply Hn. apply (in_map fst) in H1.
    simpl in H1. congruence.
  - now apply IH.
Qed.

Lemma joined_NoDup (modus : bool) (Tt : dict) (s : node) (path_s : path) :
  sets_nodup Tt -> NoDup (joined modus Tt s path_s).
Proof.
  intro Hnd. unfold joined. destruct (negb (mem s path_s)); [|constructor].
  destruct (dict_get s Tt) as [paths_t|] eqn:E; [|constructor].
  apply dict_get_In in E. apply NoDup_flat_map.
  - exact (Hnd s paths_t E).
  - intros x _. destruct (disjointb x path_s); constructor;
      [simpl; tauto | constructor].
  - intros x y z _ _ Hx Hy.
    destruct (disjointb x path_s); [|destruct Hx].
    destruct (disjointb y path_s); [|destruct Hy].
    destruct Hx as [<-|[]]. destruct Hy as [Hy|[]].
    symmetry. apply (stitch_inj modus path_s path_s y x eq_refl Hy).
Qed.

Section SimpleNoDup.

Variable neighbors : bool -> node -> list node.
Variables source target : node.

Local Abbreviation tree_inv := (tree_inv neighbors source target).

Lemma visit_leaves_sets (modus : bool) (Tt Ts : dict) (st : list path * dict) :
  sets_nodup (snd st) ->
  sets_nodup (snd (fold_left (visit_leaf neighbors modus Tt) Ts st)).
Proof.
  apply (fold_left_preserve (visit_leaf neighbors modus Tt)
           (fun st => sets_nodup (snd st))).
  intros st1 item _. unfold visit_leaf.
  apply (fold_left_preserve (visit_neighbor modus Tt (snd item))
           (fun st => sets_nodup (snd st))).
  intros st2 s _. unfold visit_neighbor.
  apply (fold_left_preserve (visit_path modus Tt s)
           (fun st => sets_nodup (snd st))).
  intros st3 path_s _ Hnd. unfold visit_path.
  destruct (negb (mem s path_s)); simpl; [|assumption].
  now apply sets_nodup_add.
Qed.

Hypothesis keys : forall modus x, NoDup (neighbors modus x).

Lemma simple_round_NoDup (tree : dict * dict) (d0 d1 : nat) :
  tree_inv tree d0 d1 ->
  (forall side, sets_nodup (sel tree side)) ->
  NoDup (fst (simple_round neighbors tree)) /\
  (forall side, sets_nodup (sel (snd (simple_round neighbors tree)) side)).
Proof.
  intros Hinv Hsets. unfold simple_round.
  set (modus := length (sel tree true) <? length (sel tree false)).
  clearbody modus.
  set (Ts := sel tree modus). set (Tt := sel tree (negb modus)).
  destruct (Hinv modus) as [[Hkeys Hlast] Hs].
  destruct (Hinv (negb modus)) as [[Hkeyt Hlastt] Ht].
  fold Ts in Hkeys, Hlast, Hs. fold Tt in Hkeyt, Hlastt, Ht.
  assert (Hlen : forall k ps p k' ps' p',
             In (k, ps) Ts -> In p ps -> In (k', ps') Ts -> In p' ps' ->
             length p = length p').
  { intros k ps p k' ps' p' H1 H2 H3 H4.
    assert (Hp : In_dict p Ts) by (exists k, ps; auto).
    assert (Hp' : In_dict p' Ts) by (exists k', ps'; auto).
    apply Hs in Hp, Hp'.
    destruct Hp as [_ [_ [_ ->]]]. destruct Hp' as [_ [_ [_ ->]]]. reflexivity. }
  simpl fst. simpl snd. split.
  - rewrite visit_leaves_out. simpl app.
    apply NoDup_flat_map.
    + now apply dict_items_NoDup.
    + intros [k ps] Hitem. simpl. apply NoDup_flat_map.
      * apply keys.
      * intros s _. apply NoDup_flat_map.
        -- exact (Hsets modus k ps Hitem).
        -- intros path_s _. apply joined_NoDup. apply Hsets.
        -- intros x y z Hx Hy Hzx Hzy.
           apply joined_In in Hzx, Hzy.
           destruct Hzx as [_ [? [pt [_ [_ [_ ->]]]]]].
           destruct Hzy as [_ [? [pt' [_ [_ [_ E]]]]]].
           apply stitch_inj in E; [apply E|].
           exact (Hlen k ps x k ps y Hitem Hx Hitem Hy).
      * intros s s' z _ _ Hz Hz'.
        apply in_flat_map in Hz, Hz'.
        destruct Hz as [x [Hx Hzx]]. destruct Hz' as [y [Hy Hzy]].
        apply joined_In in Hzx, Hzy.
        destruct Hzx as [_ [pst [pt [Hg [Hpt [_ ->]]]]]].
        destruct Hzy as [_ [pst' [pt' [Hg' [Hpt' [_ E]]]]]].
        apply stitch_inj in E;
          [|exact (Hlen k ps x k ps y Hitem Hx Hitem Hy)].
        destruct E as [_ E]. subst pt'.
        apply dict_get_In in Hg, Hg'.
        rewrite <- (Hlastt s pst pt Hg Hpt).
        exact (Hlastt s' pst' pt Hg' Hpt').
    + intros [k ps] [k' ps'] z Hitem Hitem' Hz Hz'. simpl in Hz, Hz'.
      apply in_flat_map in Hz, Hz'.
      destruct Hz as [s [_ Hz]]. destruct Hz' as [s' [_ Hz']].
      apply in_flat_map in Hz, Hz'.
      destruct Hz as [x [Hx Hzx]]. destruct Hz' as [y [Hy Hzy]].
      apply joined_In in Hzx, Hzy.
      destruct Hzx as [_ [pst [pt [_ [_ [_ ->]]]]]].
      destruct Hzy as [_ [pst' [pt' [_ [_ [_ E]]]]]].
      apply stitch_inj in E;
        [|exact (Hlen k ps x k' ps' y Hitem Hx Hitem' Hy)].
      destruct E as [E _]. subst y.
      assert (Ek : k = k').
      { rewrite <- (Hlast k ps x Hitem Hx). exact (Hlast k' ps' x Hitem' Hy). }
      subst k'. f_equal. exact (dict_key_unique Ts k ps ps' Hkeys Hitem Hitem').
  - intro side. destruct (Bool.eqb side modus) eqn:E.
    + apply Bool.eqb_prop in E. subst side. rewrite sel_upd_same.
      apply visit_leaves_sets. simpl. intros k ps [].
    + assert (Eside : side = negb modus)
        by (destruct side, modus; simpl in E; try reflexivity; discriminate).
      subst side. rewrite sel_upd_other. apply Hsets.
Qed.

Lemma simple_rounds_NoDup (rounds : nat) :
  forall tree d0 d1,
    tree_inv tree d0 d1 -> (forall side, sets_nodup (sel tree side)) ->
    NoDup (simple_rounds neighbors rounds tree).
Proof.
  induction rounds as [|n IH]; intros tree d0 d1 Hinv Hsets.
  - constructor.
  - cbn [simple_rounds]. cbv zeta.
    destruct (simple_round_NoDup tree d0 d1 Hinv Hsets) as [Hout Hsets'].
    destruct (simple_round_spec neighbors source target tree d0 d1 Hinv)
      as [Hmeet Hinv'].
    set (modus := length (sel tree true) <? length (sel tree false)) in *.
    apply NoDup_append. split; [exact Hout|]. split.
    + exact (IH _ _ _ Hinv' Hsets').
    + intros q Hq Hq'. apply Hmeet in Hq.
      apply (meeting_shape neighbors source target) in Hq.
      destruct Hq as [_ [_ [_ Hlen]]].
      destruct (simple_rounds_sound neighbors source target
                  (fun L q => length q = S L)
                  (fun m e0 e1 q' H =>
                     proj2 (proj2 (proj2
                       (meeting_shape neighbors source target m e0 e1 q' H))))
                  n _ _ _ Hinv' q Hq') as [L [HL [_ HL']]].
      pose proof (depth_sum d0 d1 modus). unfold node in *. lia.
Qed.

Lemma simple_engine_NoDup (cutoff : Z) :
  NoDup (yielded (simple_paths_engine neighbors source target cutoff)).
Proof.
  unfold simple_paths_engine. destruct (cutoff <? 1)%Z; simpl; [constructor|].
  apply (simple_rounds_NoDup _ _ 0 0); [apply tree_inv_init|].
  intros side k ps H.
  destruct side; simpl in H; destruct H as [[= <- <-]|[]];
    (constructor; [simpl; tauto | constructor]).
Qed.

End SimpleNoDup.

(** ** X5: no path twice *)

(** X5: on a graph that is not a multigraph, whose adjacency lists no
    neighbour twice, [bidirectional_all_simple_paths] yields no path twice,
    whatever the cutoff. *)
Theorem simple_paths_yielded_once (G : Graph) (source target : node)
    (cutoff : option Z) :
  wf_graph G -> is_multigraph G = false ->
  contains G source = true -> contains G target = true ->
  exists g,
    bidirectional_all_simple_paths G source target cutoff = Return g /\
    NoDup (yielded g).
Proof.
  intros Hwf Hk Hs Ht. rewrite simple_paths_dispatch by assumption.
  eexists. split; [reflexivity|].
  apply simple_engine_NoDup. exact (wf_keys Hwf Hk).
Qed.

Lemma simple_paths_yielded_once_witness :
  exists g,
    bidirectional_all_simple_paths K4 0 3 None = Return g /\
    NoDup (yielded g).
Proof.
  apply (simple_paths_yielded_once K4 0 3 None).
  - exact K4_wf.
  - reflexivity.
  - reflexivity.
  - reflexivity.
Defined.

(** ** The all-shortest-paths engine on a graph of any kind *)

Section ShortestAnyKind.

Variable neighbors : bool -> node -> list node.
Variables source target : node.
Variable V : list node.

Hypothesis closed : forall modus u v, In v (neighbors modus u) -> In v V.
Hypothesis source_in : In source V.
Hypothesis target_in : In target V.

Local Abbreviation meeting := (meeting neighbors source target).
Local Abbreviation sp_inv := (sp_inv neighbors source target).
Local Abbreviation sp_loop := (sp_loop neighbors source target).
Local Abbreviation sp_loop_multi := (sp_loop_multi neighbors source target).

Lemma sp_loop_any (fuel : nat) :
  forall tree nodes d0 d1,
    sp_inv tree d0 d1 -> leaves_seen tree nodes ->
    d0 <= length V -> d1 <= length V ->
    2 * length V + 2 <= fuel + d0 + d1 ->
    (exists modus e0 e1,
        (forall q, In q (yielded (sp_loop fuel false tree nodes)) <->
                   meeting modus e0 e1 q) /\
        yielded (sp_loop fuel false tree nodes) <> [] /\
        ending (sp_loop fuel false tree nodes) = Return tt) \/
    (yielded (sp_loop fuel false tree nodes) = [] /\
     ending (sp_loop fuel false tree nodes) =
     Raise (NetworkXNoPath source target)).
Proof.
  induction fuel as [|f IH]; intros tree nodes d0 d1 Hinv Hseen H0 H1 Hf.
  - lia.
  - rewrite sp_loop_S. simpl negb. cbn [andb].
    destruct (truthy (sel tree false)) eqn:E0;
      [destruct (truthy (sel tree true)) eqn:E1|]; cbn [andb].
    + assert (B0 := sp_inv_bound neighbors source target V closed source_in
                      target_in tree d0 d1 false Hinv E0).
      assert (B1 := sp_inv_bound neighbors source target V closed source_in
                      target_in tree d0 d1 true Hinv E1).
      simpl in B0, B1.
      set (modus := length (sel tree true) <? length (sel tree false)).
      assert (Hm := fun q => sp_round_meets neighbors source target false
                              tree nodes d0 d1 q Hinv Hseen).
      assert (Hinv' := sp_round_inv neighbors source target false tree nodes
                         d0 d1 Hinv).
      assert (Hseen' := sp_round_seen neighbors false tree nodes Hseen).
      assert (Hfound := sp_round_found neighbors false tree nodes).
      fold modus in Hm, Hinv', Hseen'. cbv zeta in Hinv', Hseen'.
      set (st := sp_round neighbors false tree nodes) in *.
      destruct (depth_bound V d0 d1 modus) as [B0' B1']; auto.
      { destruct modus; simpl; lia. }
      simpl orb in Hfound.
      destruct (sp_out st) as [|y ys] eqn:Eout.
      * simpl in Hfound. rewrite Hfound. simpl yield_then.
        apply (IH _ _ _ _ Hinv' Hseen' B0' B1').
        pose proof (depth_sum d0 d1 modus). lia.
      * simpl in Hfound. rewrite Hfound.
        destruct f as [|f']; [lia|]. rewrite sp_loop_S. simpl negb. cbn [andb].
        left. exists modus, d0, d1. simpl. rewrite app_nil_r.
        split; [exact Hm|]. split; [discriminate | reflexivity].
    + right. split; reflexivity.
    + right. split; reflexivity.
Qed.

Lemma sp_loop_multi_any (fuel : nat) :
  forall tree d0 d1,
    sp_inv tree d0 d1 ->
    d0 <= length V -> d1 <= length V ->
    2 * length V + 2 <= fuel + d0 + d1 ->
    (exists modus e0 e1,
        (forall q, In q (yielded (sp_loop_multi fuel false tree)) <->
                   meeting modus e0 e1 q) /\
        yielded (sp_loop_multi fuel false tree) <> [] /\
        ending (sp_loop_multi fuel false tree) = Return tt) \/
    (yielded (sp_loop_multi fuel false tree) = [] /\
     ending (sp_loop_multi fuel false tree) =
     Raise (NetworkXNoPath source target)).
Proof.
  induction fuel as [|f IH]; intros tree d0 d1 Hinv H0 H1 Hf.
  - lia.
  - rewrite sp_loop_multi_S. simpl negb. cbn [andb].
    destruct (truthy (sel tree false)) eqn:E0;
      [destruct (truthy (sel tree true)) eqn:E1|]; cbn [andb].
    + assert (B0 := sp_inv_bound neighbors source target V closed source_in
                      target_in tree d0 d1 false Hinv E0).
      assert (B1 := sp_inv_bound neighbors source target V closed source_in
                      target_in tree d0 d1 true Hinv E1).
      simpl in B0, B1.
      set (modus := length (sel tree true) <? length (sel tree false)).
      assert (Hm := fun q => sp_round_multi_meets neighbors source target false
                              tree d0 d1 q Hinv).
      assert (Hinv' := sp_round_multi_inv neighbors source target false tree
                         d0 d1 Hinv).
      assert (Hfound := sp_round_multi_found neighbors false tree).
      fold modus in Hm, Hinv'. cbv zeta in Hinv'.
      set (st := sp_round_multi neighbors false tree) in *.
      destruct (depth_bound V d0 d1 modus) as [B0' B1']; auto.
      { destruct modus; simpl; lia. }
      simpl orb in Hfound.
      destruct (sp_out st) as [|y ys] eqn:Eout.
      * simpl in Hfound. rewrite Hfound. simpl yield_then.
        apply (IH _ _ _ Hinv' B0' B1').
        pose proof (depth_sum d0 d1 modus). lia.
      * simpl in Hfound. rewrite Hfound.
        destruct f as [|f']; [lia|]. rewrite sp_loop_multi_S.
        simpl negb. cbn [andb].
        left. exists modus, d0, d1. simpl. rewrite app_nil_r.
        split; [exact Hm|]. split; [discriminate | reflexivity].
    + right. split; reflexivity.
    + right. split; reflexivity.
Qed.

End ShortestAnyKind.

(** ** X6: all shortest paths on a graph of any kind *)

(** X6: on every graph, directed multigraphs included, and for every two
    nodes of it, equal or not, the generator of
    [bidirectional_all_shortest_paths] ends within the fuel bound, and either
    yields at least one path and stops normally, or yields nothing and raises
    NetworkXNoPath. Every yielded path starts at source, ends at target and
    repeats no node, and all yielded paths have the same length. *)
Theorem shortest_paths_on_any_graph (fuel : nat) (G : Graph)
    (source target : node) :
  wf_graph G ->
  contains G source = true -> contains G target = true ->
  enough_fuel G fuel ->
  exists g,
    bidirectional_all_shortest_paths fuel G source target = Return g /\
    ((yielded g <> [] /\ ending g = Return tt) \/
     (yielded g = [] /\ ending g = Raise (NetworkXNoPath source target))) /\
    (forall p, In p (yielded g) ->
               hd_error p = Some source /\ last_node p = target /\ NoDup p) /\
    (forall p q, In p (yielded g) -> In q (yielded g) -> length p = length q).
Proof.
  intros Hwf Hs Ht Hf.
  assert (Hs' := proj1 (contains_In G source) Hs).
  assert (Ht' := proj1 (contains_In G target) Ht).
  unfold enough_fuel, len in Hf.
  assert (Hall : exists g,
             bidirectional_all_shortest_paths fuel G source target = Return g /\
             ((exists modus e0 e1,
                  (forall q, In q (yielded g) <->
                             meeting (neighbors_of G) source target
                                     modus e0 e1 q) /\
                  yielded g <> [] /\ ending g = Return tt) \/
              (yielded g = [] /\
               ending g = Raise (NetworkXNoPath source target)))).
  { unfold bidirectional_all_shortest_paths. rewrite Hs, Ht. simpl.
    destruct (is_multigraph G) eqn:E.
    - eexists. split; [reflexivity|].
      unfold _bidirectional_all_shortest_paths_multi.
      rewrite <- (neighbors_of_multi G E).
      apply (sp_loop_multi_any (neighbors_of G) source target (node_list G)
               (wf_closed Hwf) Hs' Ht' fuel _ 0 0);
        [apply sp_inv_init | lia | lia | lia].
    - eexists. split; [reflexivity|].
      unfold _bidirectional_all_shortest_paths.
      rewrite <- (neighbors_of_simple G E).
      apply (sp_loop_any (neighbors_of G) source target (node_list G)
               (wf_closed Hwf) Hs' Ht' fuel _ _ 0 0);
        [apply sp_inv_init | apply leaves_seen_init | lia | lia | lia]. }
  destruct Hall as [g [Hg [[modus [e0 [e1 [Hy [Hne He]]]]]|[Hy He]]]];
    exists g; (split; [exact Hg|]).
  - split; [left; auto|].
    assert (Hshape : forall p, In p (yielded g) ->
                               shape source target (e0 + e1 + 1) p).
    { intros p Hp. apply Hy in Hp.
      exact (meeting_shape (neighbors_of G) source target modus e0 e1 p Hp). }
    split.
    + intros p Hp. destruct (Hshape p Hp) as [H1 [H2 [H3 _]]]. auto.
    + intros p q Hp Hq.
      destruct (Hshape p Hp) as [_ [_ [_ ->]]].
      destruct (Hshape q Hq) as [_ [_ [_ ->]]]. reflexivity.
  - split; [right; auto|]. rewrite Hy. split; [intros p []|intros p q []].
Qed.

Lemma shortest_paths_on_any_graph_witness :
  exists g,
    bidirectional_all_shortest_paths 20 multi_fork 0 2 = Return g /\
    ((yielded g <> [] /\ ending g = Return tt) \/
     (yielded g = [] /\ ending g = Raise (NetworkXNoPath 0 2))) /\
    (forall p, In p (yielded g) ->
               hd_error p = Some 0 /\ last_node p = 2 /\ NoDup p) /\
    (forall p q, In p (yielded g) -> In q (yielded g) -> length p = length q).
Proof.
  apply (shortest_paths_on_any_graph 20 multi_fork 0 2).
  - exact multi_fork_wf.
  - reflexivity.
  - reflexivity.
  - unfold enough_fuel. vm_compute. lia.
Defined.

(** ** The reachability engine on a graph of any kind *)

Section HasPathAnyKind.

Variable neighbors : bool -> node -> list node.
Variables source target : node.
Variable V : list node.

Hypothesis closed : forall modus u v, In v (neighbors modus u) -> In v V.
Hypothesis source_in : In source V.
Hypothesis target_in : In target V.

Local Abbreviation hp_weak := (hp_weak neighbors source target V).

Lemma hw_init : hp_weak ([source], [target]) ([source], [target]).
Proof.
  split.
  - intros side x Hx. exact Hx.
  - intros [|] x [<-|[]]; assumption.
  - intros [|]; simpl; (constructor; [simpl; tauto | constructor]).
  - intros [|] x [<-|[]]; simpl; eexists [_]; repeat split.
Qed.

Lemma hw_step (leaves nodes : list node * list node) (modus : bool)
    (temp : list node) :
  hp_weak leaves nodes ->
  scan_leaves neighbors modus (sel nodes modus) (sel leaves (negb modus))
              (sel leaves modus) [] = Some temp ->
  hp_weak (upd leaves modus temp)
          (upd nodes modus (update (sel nodes modus) temp)).
Proof.
  intros Hinv Hscan. apply scan_leaves_Some in Hscan.
  destruct Hscan as [Htemp [_ Hnd]].
  assert (Htemp' : forall x, In x temp <->
            exists leave, In leave (sel leaves modus) /\
                          In x (neighbors modus leave) /\
                          ~ In x (sel nodes modus)).
  { intro x. rewrite Htemp. split; [intros [[]|H]; exact H | auto]. }
  clear Htemp. split.
  - intro side. destruct (side_cases side modus) as [-> | ->].
    + rewrite !sel_upd_same. intros x Hx. apply update_In. now right.
    + rewrite !sel_upd_other. apply (hw_leaves Hinv).
  - intro side. destruct (side_cases side modus) as [-> | ->].
    + rewrite sel_upd_same. intros x Hx. apply update_In in Hx.
      destruct Hx as [Hx|Hx]; [now apply (hw_nodes Hinv modus)|].
      apply Htemp' in Hx. destruct Hx as [l [_ [Hx _]]].
      exact (closed modus l x Hx).
    + rewrite sel_upd_other. apply (hw_nodes Hinv).
  - intro side. destruct (side_cases side modus) as [-> | ->].
    + rewrite sel_upd_same. apply update_NoDup; [apply (hw_nodup Hinv)|].
      apply Hnd. constructor.
    + rewrite sel_upd_other. apply (hw_nodup Hinv).
  - intros side x. destruct (side_cases side modus) as [-> | ->].
    + rewrite sel_upd_same. intro Hx. apply update_In in Hx.
      destruct Hx as [Hx|Hx]; [now apply (hw_conn Hinv)|].
      apply Htemp' in Hx. destruct Hx as [l [Hl [Hx _]]].
      apply walk_to_snoc with (x := l); [|assumption].
      apply (hw_conn Hinv). now apply (hw_leaves Hinv).
    + rewrite sel_upd_other. apply (hw_conn Hinv).
Qed.

Lemma hw_grow (leaves nodes : list node * list node) (modus : bool)
    (temp : list node) (x : node) :
  hp_weak leaves nodes ->
  scan_leaves neighbors modus (sel nodes modus) (sel leaves (negb modus))
              (sel leaves modus) [] = Some temp ->
  In x temp ->
  length (sel nodes modus) < length (update (sel nodes modus) temp).
Proof.
  intros Hinv Hscan Hx. assert (Hinv' := hw_step _ _ _ _ Hinv Hscan).
  apply scan_leaves_Some in Hscan. destruct Hscan as [Htemp _].
  apply Htemp in Hx. destruct Hx as [[]|[l [Hl [Hxl Hn]]]].
  assert (Hnd := hw_nodup Hinv' modus). rewrite sel_upd_same in Hnd.
  apply (NoDup_incl_length (l := x :: sel nodes modus)).
  - constructor; [assumption | apply (hw_nodup Hinv)].
  - intros y [<-|Hy]; apply update_In.
    + right. apply Htemp. right. exists l. auto.
    + now left.
Qed.

Lemma hw_size (leaves nodes : list node * list node) (side : bool) :
  hp_weak leaves nodes -> length (sel nodes side) <= length V.
Proof.
  intro Hinv. apply NoDup_incl_length;
    [apply (hw_nodup Hinv) | apply (hw_nodes Hinv)].
Qed.

Lemma has_path_loop_any (fuel : nat) :
  forall leaves nodes,
    hp_weak leaves nodes ->
    2 * length V + 2 <= fuel + length (fst nodes) + length (snd nodes) ->
    exists b, has_path_loop neighbors fuel leaves nodes = Return b /\
              (b = true ->
               exists x, walk_to (neighbors false) source x /\
                         walk_to (neighbors true) target x).
Proof.
  induction fuel as [|f IH]; intros leaves nodes Hinv Hf.
  - pose proof (hw_size leaves nodes false Hinv).
    pose proof (hw_size leaves nodes true Hinv). simpl in *. lia.
  - rewrite has_path_loop_S.
    destruct (truthy (sel leaves false) && truthy (sel leaves true)) eqn:E;
      [|exists false; split; [reflexivity | discriminate]].
    set (modus := length (sel leaves true) <? length (sel leaves false)).
    clearbody modus.
    destruct (scan_leaves neighbors modus (sel nodes modus)
                (sel leaves (negb modus)) (sel leaves modus) [])
      as [temp|] eqn:Hscan.
    + assert (Hinv' := hw_step leaves nodes modus temp Hinv Hscan).
      destruct temp as [|x temp'].
      * destruct f as [|f'].
        { pose proof (hw_size leaves nodes false Hinv).
          pose proof (hw_size leaves nodes true Hinv). simpl in *. lia. }
        rewrite has_path_loop_S.
        assert (C : truthy (sel (upd leaves modus []) false) &&
                    truthy (sel (upd leaves modus []) true) = false).
        { destruct modus; simpl; [apply andb_false_r | reflexivity]. }
        rewrite C. exists false. split; [reflexivity | discriminate].
      * apply IH; [exact Hinv'|].
        pose proof (hw_grow leaves nodes modus (x :: temp') x Hinv Hscan
                      (or_introl eq_refl)).
        destruct modus; simpl in *; lia.
    + apply scan_leaves_None in Hscan.
      destruct Hscan as [leave [s [Hl [Hs [_ Ht]]]]].
      exists true. split; [reflexivity|]. intros _. exists s.
      assert (W1 : walk_to (neighbors modus) (anchor source target modus) s).
      { apply walk_to_snoc with (x := leave); [|assumption].
        apply (hw_conn Hinv). now apply (hw_leaves Hinv). }
      assert (W2 := hw_conn Hinv (negb modus) s
                      (hw_leaves Hinv (negb modus) s Ht)).
      destruct modus; simpl in *; auto.
Qed.

End HasPathAnyKind.

(** ** X7: reachability on a graph of any kind *)

(** X7: on every graph, directed multigraphs included, and for every two
    nodes of it, equal or not, [bidirectional_has_path] returns a boolean
    within the fuel bound; it returns [True] only if some node is reached
    both from the source along the neighbour lists the source side reads and
    from the target along those the target side reads. *)
Theorem has_path_on_any_graph (fuel : nat) (G : Graph) (source target : node) :
  wf_graph G ->
  contains G source = true -> contains G target = true ->
  enough_fuel G fuel ->
  exists b,
    bidirectional_has_path fuel G source target = Return b /\
    (b = true ->
     exists x, walk_to (neighbors_of G false) source x /\
               walk_to (neighbors_of G true) target x).
Proof.
  intros Hwf Hs Ht Hf. rewrite has_path_dispatch by assumption.
  assert (Hs' := proj1 (contains_In G source) Hs).
  assert (Ht' := proj1 (contains_In G target) Ht).
  unfold enough_fuel, len in Hf. unfold has_path_engine.
  apply (has_path_loop_any (neighbors_of G) source target (node_list G)
           (wf_closed Hwf) fuel).
  - now apply hw_init.
  - simpl. lia.
Qed.

Lemma has_path_on_any_graph_witness :
  exists b,
    bidirectional_has_path 20 multi_fork 0 1 = Return b /\
    (b = true ->
     exists x, walk_to (neighbors_of multi_fork false) 0 x /\
               walk_to (neighbors_of multi_fork true) 1 x).
Proof.
  apply (has_path_on_any_graph 20 multi_fork 0 1).
  - exact multi_fork_wf.
  - reflexivity.
  - reflexivity.
  - unfold enough_fuel. vm_compute. lia.
Defined.

(** ** The three searches side by side *)

Lemma undirected_neighbors (G : Graph) :
  is_directed G = false ->
  forall u, neighbors_of G true u = neighbors_of G false u.
Proof.
  intros E u. unfold neighbors_of, neighbors_multi, neighbors_simple.
  rewrite E. destruct (is_multigraph G); reflexivity.
Qed.

Lemma walk_to_ext (nbrs nbrs' : node -> list node) (a x : node) :
  (forall u, nbrs u = nbrs' u) -> walk_to nbrs a x -> walk_to nbrs' a x.
Proof.
  intros E [p [Hh [Hl Hc]]]. exists p. split; [exact Hh|]. split; [exact Hl|].
  revert Hc. apply chain_impl. unfold steps. intros u v. now rewrite E.
Qed.

Lemma undirected_kind (G : Graph) :
  is_directed G = false -> is_multigraph G && is_directed G = false.
Proof. intros ->. apply andb_false_r. Qed.

Lemma undirected_edge (G : Graph) (u v : node) :
  wf_graph G -> is_directed G = false -> edge G u v -> edge G v u.
Proof.
  intros Hwf E H. unfold edge in *.
  apply (wf_backward Hwf (undirected_kind G E)) in H.
  now rewrite (undirected_neighbors G E) in H.
Qed.

Lemma spath_rev (G : Graph) (s t : node) (L : nat) (p : path) :
  wf_graph G -> is_directed G = false ->
  spath (neighbors_of G) s t L p -> spath (neighbors_of G) t s L (rev p).
Proof.
  intros Hwf E [[Hh [Hl [Hnd Hlen]]] Hc].
  assert (Hp : p <> []) by (eapply hd_error_nonempty; eassumption).
  split; [split; [|split; [|split]]|].
  - rewrite hd_error_rev by assumption. now f_equal.
  - rewrite last_node_rev. now apply hd_error_hd.
  - now apply NoDup_rev.
  - now rewrite length_rev.
  - rewrite chain_rev. revert Hc. apply chain_impl. unfold steps.
    intros u v. apply (undirected_edge G u v Hwf E).
Qed.

Lemma spath_rev_iff (G : Graph) (s t : node) (L : nat) (p : path) :
  wf_graph G -> is_directed G = false ->
  spath (neighbors_of G) s t L p <-> spath (neighbors_of G) t s L (rev p).
Proof.
  intros Hwf E. split; [now apply spath_rev|].
  intro H. rewrite <- (rev_involutive p). now apply spath_rev.
Qed.

Lemma spath_reachable (G : Graph) (s t : node) (L : nat) (p : path) :
  spath (neighbors_of G) s t L p -> reachable G s t.
Proof.
  intro H. assert (Hp : simple_path G s t p)
    by (apply simple_path_spath; eauto).
  exists p. apply Hp.
Qed.

Lemma spath_level_bound (G : Graph) (s t : node) (L : nat) (p : path) :
  wf_graph G -> contains G s = true ->
  spath (neighbors_of G) s t L p -> S L <= len G.
Proof.
  intros Hwf Hs H. assert (Hlen : length p = S L) by apply H.
  rewrite <- Hlen. apply (simple_path_bound G s t p Hwf Hs).
  apply simple_path_spath. eauto.
Qed.

Lemma has_path_reachable (fuel : nat) (G : Graph) (source target : node) :
  wf_graph G -> is_multigraph G && is_directed G = false ->
  contains G source = true -> contains G target = true ->
  source <> target -> enough_fuel G fuel ->
  exists b, bidirectional_has_path fuel G source target = Return b /\
            (b = true <-> reachable G source target).
Proof.
  intros Hwf Hk Hs Ht Hne Hf. rewrite has_path_dispatch by assumption.
  assert (Hs' := proj1 (contains_In G source) Hs).
  assert (Ht' := proj1 (contains_In G target) Ht).
  unfold enough_fuel, len in Hf. unfold has_path_engine.
  destruct (has_path_loop_spec (neighbors_of G) source target (node_list G)
              (wf_closed Hwf) (wf_backward Hwf Hk) fuel
              ([source], [target]) ([source], [target])) as [b [Hb Hiff]].
  - now apply hp_init.
  - simpl. lia.
  - exists b. split; [exact Hb|]. now rewrite reachable_walk_to.
Qed.

(** ** X8: reachability is symmetric on an undirected graph *)

(** X8: on an undirected graph, simple or multi, [bidirectional_has_path]
    gives the same answer when source and target are exchanged. *)
Theorem has_path_symmetric (fuel : nat) (G : Graph) (source target : node) :
  wf_graph G -> is_directed G = false ->
  contains G source = true -> contains G target = true ->
  enough_fuel G fuel ->
  bidirectional_has_path fuel G source target =
  bidirectional_has_path fuel G target source.
Proof.
  intros Hwf E Hs Ht Hf.
  destruct (Nat.eq_dec source target) as [->|Hne]; [reflexivity|].
  destruct (has_path_reachable fuel G source target Hwf (undirected_kind G E)
              Hs Ht Hne Hf) as [b [Hb Hiff]].
  destruct (has_path_reachable fuel G target source Hwf (undirected_kind G E)
              Ht Hs (not_eq_sym Hne) Hf) as [b' [Hb' Hiff']].
  rewrite Hb, Hb'. f_equal.
  assert (Hsym : reachable G source target <-> reachable G target source).
  { rewrite !reachable_walk_to.
    split; intro W;
      apply (walk_to_rev (neighbors_of G)
               (wf_backward Hwf (undirected_kind G E)) false) in W;
      simpl in W; revert W; apply walk_to_ext; intros u;
      apply (undirected_neighbors G E). }
  destruct b, b'; try reflexivity.
  - symmetry. apply Hiff'. apply Hsym. now apply Hiff.
  - apply Hiff. apply Hsym. now apply Hiff'.
Qed.

Lemma has_path_symmetric_witness :
  bidirectional_has_path 20 K4 0 3 = bidirectional_has_path 20 K4 3 0.
Proof.
  apply (has_path_symmetric 20 K4 0 3).
  - exact K4_wf.
  - reflexivity.
  - reflexivity.
  - reflexivity.
  - unfold enough_fuel. vm_compute. lia.
Defined.

(** ** X9: the three searches agree on whether a path exists *)

(** X9: on a graph that is not a directed multigraph and for two different
    nodes of it, [bidirectional_has_path] returns [True] exactly when
    [bidirectional_all_shortest_paths] yields a path, and exactly when
    [bidirectional_all_simple_paths] with the default cutoff yields a path;
    it returns [False] exactly when the shortest-paths generator raises
    NetworkXNoPath. *)
Theorem searches_agree_on_existence (fuel : nat) (G : Graph)
    (source target : node) :
  wf_graph G -> is_multigraph G && is_directed G = false ->
  contains G source = true -> contains G target = true ->
  source <> target -> enough_fuel G fuel ->
  exists b g1 g2,
    bidirectional_has_path fuel G source target = Return b /\
    bidirectional_all_shortest_paths fuel G source target = Return g1 /\
    bidirectional_all_simple_paths G source target None = Return g2 /\
    (b = true <-> yielded g1 <> []) /\
    (b = true <-> yielded g2 <> []) /\
    (b = false <-> ending g1 = Raise (NetworkXNoPath source target)).
Proof.
  intros Hwf Hk Hs Ht Hne Hf.
  destruct (has_path_reachable fuel G source target Hwf Hk Hs Ht Hne Hf)
    as [b [Hb Hiff]].
  destruct (shortest_paths_levels G source target Hwf Hs Ht Hk fuel Hf)
    as [g1 [Hg1 Hres]].
  exists b, g1. eexists. split; [exact Hb|]. split; [exact Hg1|].
  split; [apply simple_paths_dispatch; assumption|].
  set (g2 := simple_paths_engine _ _ _ _).
  assert (Hg2 : forall p, In p (yielded g2) <->
                          exists L, 0 < L /\ spath (neighbors_of G) source target L p).
  { intro p. unfold g2.
    rewrite (simple_engine_In (neighbors_of G) source target
               (wf_backward Hwf Hk)).
    split; intros [L H]; exists L; [tauto|].
    destruct H as [H1 H2].
    pose proof (spath_level_bound G source target L p Hwf Hs H2).
    split; [assumption|]. split; [lia | assumption]. }
  clearbody g2.
  destruct Hres as [[L [HL [Hmin [Hy [Hne1 He]]]]]|[Hnone [Hy He]]].
  - assert (Hq : exists q, In q (yielded g1)).
    { destruct (yielded g1) as [|q l]; [contradiction|]. exists q. now left. }
    destruct Hq as [q Hq]. assert (Hsp := proj1 (Hy q) Hq).
    assert (Hr : b = true)
      by (apply Hiff; exact (spath_reachable G source target L q Hsp)).
    split; [tauto|]. split; [|split].
    + split; [|intros _; exact Hr]. intros _ E.
      assert (Hin : In q (yielded g2)) by (apply Hg2; eauto).
      rewrite E in Hin. destruct Hin.
    + rewrite Hr. discriminate.
    + rewrite He. discriminate.
  - assert (Hr : b = false).
    { destruct b; [|reflexivity]. exfalso.
      apply (proj1 (no_level_unreachable G source target Hne) Hnone).
      now apply Hiff. }
    split; [|split; [|split]].
    + rewrite Hr. split; [discriminate | intro H; contradiction].
    + rewrite Hr. split; [discriminate|]. intro H. exfalso.
      destruct (yielded g2) as [|q l]; [contradiction|].
      assert (Hin : In q (q :: l)) by now left.
      apply Hg2 in Hin. destruct Hin as [L [HL Hsp]].
      exact (Hnone L q HL Hsp).
    + intros _. exact He.
    + intros _. exact Hr.
Qed.

Lemma searches_agree_on_existence_witness :
  exists b g1 g2,
    bidirectional_has_path 20 K4 0 3 = Return b /\
    bidirectional_all_shortest_paths 20 K4 0 3 = Return g1 /\
    bidirectional_all_simple_paths K4 0 3 None = Return g2 /\
    (b = true <-> yielded g1 <> []) /\
    (b = true <-> yielded g2 <> []) /\
    (b = false <-> ending g1 = Raise (NetworkXNoPath 0 3)).
Proof.
  apply (searches_agree_on_existence 20 K4 0 3).
  - exact K4_wf.
  - reflexivity.
  - reflexivity.
  - reflexivity.
  - discriminate.
  - unfold enough_fuel. vm_compute. lia.
Defined.

(** ** X10: the shortest paths are the shortest of the simple paths *)

(** X10: on a graph that is not a directed multigraph,
    [bidirectional_all_shortest_paths] yields exactly those paths yielded by
    [bidirectional_all_simple_paths] with the default cutoff that are no
    longer than any other path it yields. *)
Theorem shortest_paths_are_shortest_simple_paths (fuel : nat) (G : Graph)
    (source target : node) :
  wf_graph G -> is_multigraph G && is_directed G = false ->
  contains G source = true -> contains G target = true ->
  enough_fuel G fuel ->
  exists g1 g2,
    bidirectional_all_shortest_paths fuel G source target = Return g1 /\
    bidirectional_all_simple_paths G source target None = Return g2 /\
    forall p,
      In p (yielded g1) <->
      In p (yielded g2) /\
      forall q, In q (yielded g2) -> length p <= length q.
Proof.
  intros Hwf Hk Hs Ht Hf.
  destruct (shortest_paths_levels G source target Hwf Hs Ht Hk fuel Hf)
    as [g1 [Hg1 Hres]].
  exists g1. eexists. split; [exact Hg1|].
  split; [apply simple_paths_dispatch; assumption|].
  set (g2 := simple_paths_engine _ _ _ _).
  assert (Hg2 : forall p, In p (yielded g2) <->
                          exists L, 0 < L /\ spath (neighbors_of G) source target L p).
  { intro p. unfold g2.
    rewrite (simple_engine_In (neighbors_of G) source target
               (wf_backward Hwf Hk)).
    split; intros [L H]; exists L; [tauto|].
    destruct H as [H1 H2].
    pose proof (spath_level_bound G source target L p Hwf Hs H2).
    split; [assumption|]. split; [lia | assumption]. }
  clearbody g2. intro p.
  destruct Hres as [[L [HL [Hmin [Hy [Hne1 He]]]]]|[Hnone [Hy He]]].
  - rewrite Hy. split.
    + intro Hp. split; [apply Hg2; eauto|].
      intros q Hq. apply Hg2 in Hq. destruct Hq as [L' [HL' Hq]].
      assert (E1 : length p = S L) by apply Hp.
      assert (E2 : length q = S L') by apply Hq.
      destruct (Nat.lt_ge_cases L' L) as [Hlt|Hge].
      * exfalso. exact (Hmin L' q HL' Hlt Hq).
      * unfold node in *. lia.
    + intros [Hp Hle]. apply Hg2 in Hp. destruct Hp as [L' [HL' Hp]].
      destruct (yielded g1) as [|q0 l] eqn:E; [contradiction|].
      assert (Hq0 : spath (neighbors_of G) source target L q0)
        by (apply Hy; now left).
      assert (Hq0' : In q0 (yielded g2)) by (apply Hg2; eauto).
      apply Hle in Hq0'.
      assert (E1 : length p = S L') by apply Hp.
      assert (E2 : length q0 = S L) by apply Hq0.
      destruct (Nat.lt_ge_cases L' L) as [Hlt|Hge].
      * exfalso. exact (Hmin L' p HL' Hlt Hp).
      * assert (L' = L) by (unfold node in *; lia). now subst L'.
  - rewrite Hy. split; [intros []|]. intros [Hp _]. apply Hg2 in Hp.
    destruct Hp as [L [HL Hp]]. exact (Hnone L p HL Hp).
Qed.

Lemma shortest_paths_are_shortest_simple_paths_witness :
  exists g1 g2,
    bidirectional_all_shortest_paths 20 K4 0 3 = Return g1 /\
    bidirectional_all_simple_paths K4 0 3 None = Return g2 /\
    forall p,
      In p (yielded g1) <->
      In p (yielded g2) /\
      forall q, In q (yielded g2) -> length p <= length q.
Proof.
  apply (shortest_paths_are_shortest_simple_paths 20 K4 0 3).
  - exact K4_wf.
  - reflexivity.
  - reflexivity.
  - reflexivity.
  - unfold enough_fuel. vm_compute. lia.
Defined.

(** ** X11: simple paths read backwards on an undirected graph *)

(** X11: on an undirected graph, simple or multi, a path is yielded by
    [bidirectional_all_simple_paths] from source to target exactly when its
    reverse is yielded from target to source, with the same cutoff. *)
Theorem simple_paths_reverse (G : Graph) (source target : node)
    (cutoff : option Z) :
  wf_graph G -> is_directed G = false ->
  contains G source = true -> contains G target = true ->
  exists g g',
    bidirectional_all_simple_paths G source target cutoff = Return g /\
    bidirectional_all_simple_paths G target source cutoff = Return g' /\
    forall p, In p (yielded g) <-> In (rev p) (yielded g').
Proof.
  intros Hwf E Hs Ht. rewrite !simple_paths_dispatch by assumption.
  do 2 eexists. split; [reflexivity|]. split; [reflexivity|].
  intro p.
  rewrite !(simple_engine_In (neighbors_of G) _ _
              (wf_backward Hwf (undirected_kind G E))).
  split; intros [L [H1 [H2 H3]]]; exists L; (split; [exact H1|]);
    (split; [exact H2|]); now apply (spath_rev_iff G source target L p Hwf E).
Qed.

Lemma simple_paths_reverse_witness :
  exists g g',
    bidirectional_all_simple_paths K4 0 3 None = Return g /\
    bidirectional_all_simple_paths K4 3 0 None = Return g' /\
    forall p, In p (yielded g) <-> In (rev p) (yielded g').
Proof.
  apply (simple_paths_reverse K4 0 3 None).
  - exact K4_wf.
  - reflexivity.
  - reflexivity.
  - reflexivity.
Defined.

(** ** X12: shortest paths read backwards on an undirected graph *)

(** X12: on an undirected graph, simple or multi, a path is yielded by
    [bidirectional_all_shortest_paths] from source to target exactly when its
    reverse is yielded from target to source, and one generator raises
    NetworkXNoPath exactly when the other does. *)
Theorem shortest_paths_reverse (fuel : nat) (G : Graph)
    (source target : node) :
  wf_graph G -> is_directed G = false ->
  contains G source = true -> contains G target = true ->
  enough_fuel G fuel ->
  exists g g',
    bidirectional_all_shortest_paths fuel G source target = Return g /\
    bidirectional_all_shortest_paths fuel G target source = Return g' /\
    (forall p, In p (yielded g) <-> In (rev p) (yielded g')) /\
    (ending g = Raise (NetworkXNoPath source target) <->
     ending g' = Raise (NetworkXNoPath target source)).
Proof.
  intros Hwf E Hs Ht Hf. assert (Hk := undirected_kind G E).
  destruct (shortest_paths_levels G source target Hwf Hs Ht Hk fuel Hf)
    as [g [Hg Hres]].
  destruct (shortest_paths_levels G target source Hwf Ht Hs Hk fuel Hf)
    as [g' [Hg' Hres']].
  exists g, g'. split; [exact Hg|]. split; [exact Hg'|].
  assert (Hrev := fun L p => spath_rev_iff G source target L p Hwf E).
  destruct Hres as [[L [HL [Hmin [Hy [Hne He]]]]]|[Hnone [Hy He]]];
    destruct Hres' as [[L' [HL' [Hmin' [Hy' [Hne' He']]]]]|[Hnone' [Hy' He']]].
  - assert (HLL : L = L').
    { destruct (yielded g) as [|q l] eqn:Eq; [contradiction|].
      destruct (yielded g') as [|q' l'] eqn:Eq'; [contradiction|].
      assert (Hq : spath (neighbors_of G) source target L q)
        by (apply Hy; now left).
      assert (Hq' : spath (neighbors_of G) target source L' q')
        by (apply Hy'; now left).
      apply Hrev in Hq.
      rewrite <- (rev_involutive q') in Hq'. apply Hrev in Hq'.
      destruct (Nat.lt_trichotomy L L') as [Hlt|[Heq|Hgt]]; [|exact Heq|].
      - exfalso. exact (Hmin' L (rev q) HL Hlt Hq).
      - exfalso. exact (Hmin L' (rev q') HL' Hgt Hq'). }
    subst L'. split.
    + intro p. rewrite Hy, Hy'. apply Hrev.
    + rewrite He, He'. split; discriminate.
  - exfalso. destruct (yielded g) as [|q l] eqn:Eq; [contradiction|].
    assert (Hq : spath (neighbors_of G) source target L q)
      by (apply Hy; now left).
    apply Hrev in Hq. exact (Hnone' L (rev q) HL Hq).
  - exfalso. destruct (yielded g') as [|q' l'] eqn:Eq'; [contradiction|].
    assert (Hq' : spath (neighbors_of G) target source L' q')
      by (apply Hy'; now left).
    rewrite <- (rev_involutive q') in Hq'. apply Hrev in Hq'.
    exact (Hnone L' (rev q') HL' Hq').
  - split.
    + intro p. rewrite Hy, Hy'. tauto.
    + rewrite He, He'. tauto.
Qed.

Lemma shortest_paths_reverse_witness :
  exists g g',
    bidirectional_all_shortest_paths 20 K4 0 3 = Return g /\
    bidirectional_all_shortest_paths 20 K4 3 0 = Return g' /\
    (forall p, In p (yielded g) <-> In (rev p) (yielded g')) /\
    (ending g = Raise (NetworkXNoPath 0 3) <->
     ending g' = Raise (NetworkXNoPath 3 0)).
Proof.
  apply (shortest_paths_reverse 20 K4 0 3).
  - exact K4_wf.
  - reflexivity.
  - reflexivity.
  - reflexivity.
  - unfold enough_fuel. vm_compute. lia.
Defined.

(** ** X13: what the two frontiers hold *)

Lemma sp_after_inv (neighbors : bool -> node -> list node)
    (source target : node) (k : nat) :
  forall tree nodes d0 d1,
    sp_inv neighbors source target tree d0 d1 ->
    exists e0 e1,
      e0 + e1 = d0 + d1 + k /\
      sp_inv neighbors source target
             (fst (sp_after neighbors k tree nodes)) e0 e1.
Proof.
  induction k as [|k IH]; intros tree nodes d0 d1 Hinv.
  - exists d0, d1. split; [lia | exact Hinv].
  - cbn [sp_after]. cbv zeta.
    assert (Hinv' := sp_round_inv neighbors source target false tree nodes
                       d0 d1 Hinv). cbv zeta in Hinv'.
    set (modus := length (sel tree true) <? length (sel tree false)) in *.
    destruct (IH _ (upd nodes modus
                      (sp_nodes_source (sp_round neighbors false tree nodes)))
                 _ _ Hinv') as [e0 [e1 [He H]]].
    exists e0, e1. split; [|exact H].
    pose proof (depth_sum d0 d1 modus). lia.
Qed.

Lemma sp_after_multi_inv (neighbors : bool -> node -> list node)
    (source target : node) (k : nat) :
  forall tree d0 d1,
    sp_inv neighbors source target tree d0 d1 ->
    exists e0 e1,
      e0 + e1 = d0 + d1 + k /\
      sp_inv neighbors source target (sp_after_multi neighbors k tree) e0 e1.
Proof.
  induction k as [|k IH]; intros tree d0 d1 Hinv.
  - exists d0, d1. split; [lia | exact Hinv].
  - cbn [sp_after_multi]. cbv zeta.
    assert (Hinv' := sp_round_multi_inv neighbors source target false tree
                       d0 d1 Hinv). cbv zeta in Hinv'.
    set (modus := length (sel tree true) <? length (sel tree false)) in *.
    destruct (IH _ _ _ Hinv') as [e0 [e1 [He H]]].
    exists e0, e1. split; [|exact H].
    pose proof (depth_sum d0 d1 modus). lia.
Qed.

(** X13: after [k] rounds of [bidirectional_all_shortest_paths], on every
    graph, the two sides are [d0] and [d1] steps deep with [d0 + d1 = k],
    and the frontier of each side holds exactly the sequences of distinct
    nodes that start at the side's anchor and follow the side's neighbour
    lists for the side's number of steps: no partial path is dropped because
    its last node was seen before. *)
Theorem shortest_frontiers_hold_all_walks (G : Graph) (source target : node)
    (k : nat) :
  exists d0 d1,
    d0 + d1 = k /\
    forall side p,
      In p (sel (frontiers_after G source target k) side) <->
      hd_error p = Some (anchor source target side) /\
      chain (steps (neighbors_of G side)) p /\ NoDup p /\
      length p = S (sel (d0, d1) side).
Proof.
  unfold frontiers_after, neighbors_of.
  destruct (is_multigraph G).
  - destruct (sp_after_multi_inv (neighbors_multi G) source target k _ 0 0
                (sp_inv_init (neighbors_multi G) source target))
      as [d0 [d1 [Hd Hinv]]].
    exists d0, d1. split; [lia|]. exact Hinv.
  - destruct (sp_after_inv (neighbors_simple G) source target k _
                ([source], [target]) 0 0
                (sp_inv_init (neighbors_simple G) source target))
      as [d0 [d1 [Hd Hinv]]].
    exists d0, d1. split; [lia|]. exact Hinv.
Qed.

(** ** X14: a source without neighbours *)

Lemma scan_neighbors_self (nodes_s leaves_t ss temp : list node) :
  (forall v, In v ss -> In v nodes_s) ->
  scan_neighbors nodes_s leaves_t ss temp = Some temp.
Proof.
  induction ss as [|s ss IH]; simpl; intro H; [reflexivity|].
  rewrite (proj2 (mem_In s nodes_s) (H s (or_introl eq_refl))). simpl.
  apply IH. auto.
Qed.

Lemma simple_rounds_empty_side (neighbors : bool -> node -> list node)
    (rounds : nat) (Tt : dict) :
  simple_rounds neighbors rounds ([], Tt) = [].
Proof.
  induction rounds as [|n IH]; [reflexivity|].
  cbn [simple_rounds]. cbv zeta. unfold simple_round.
  replace (length (sel ([], Tt) true) <? length (sel ([], Tt) false))
    with false by (simpl; symmetry; apply Nat.ltb_ge; lia).
  simpl. exact IH.
Qed.

(** X14: on every graph, when the neighbour list of the source holds no node
    but the source itself, one round settles each search, whatever the
    target, the source itself included: [bidirectional_has_path] returns
    [False], [bidirectional_all_shortest_paths] yields nothing and raises
    NetworkXNoPath, and [bidirectional_all_simple_paths] yields nothing. *)
Theorem source_without_neighbors (fuel : nat) (G : Graph)
    (source target : node) :
  contains G source = true -> contains G target = true ->
  (forall v, In v (neighbors_of G false source) -> v = source) ->
  2 <= fuel ->
  bidirectional_has_path fuel G source target = Return false /\
  (exists g,
      bidirectional_all_shortest_paths fuel G source target = Return g /\
      yielded g = [] /\
      ending g = Raise (NetworkXNoPath source target)) /\
  (forall cutoff, exists g,
      bidirectional_all_simple_paths G source target cutoff = Return g /\
      yielded g = []).
Proof.
  intros Hs Ht Hnb Hf.
  destruct fuel as [|[|fuel]]; [lia | lia |]. clear Hf.
  split; [|split].
  - rewrite has_path_dispatch by assumption. unfold has_path_engine.
    rewrite has_path_loop_S. cbn [sel fst snd truthy andb length].
    change (1 <? 1) with false. cbn [sel negb fst snd scan_leaves].
    rewrite scan_neighbors_self; [reflexivity|].
    intros v Hv. left. symmetry. now apply Hnb.
  - unfold bidirectional_all_shortest_paths. rewrite Hs, Ht. simpl negb.
    cbv iota.
    assert (Hvisit : forall nbrs tt nt st,
               (forall v, In v nbrs -> v = source) ->
               fold_left (sp_visit_neighbor false tt nt [source]) nbrs st = st).
    { intros nbrs tt nt. induction nbrs as [|v l IH]; intros st H;
        [reflexivity|].
      simpl. rewrite IH by (intros w Hw; apply H; now right). unfold sp_visit_neighbor.
      rewrite (H v (or_introl eq_refl)).
        now rewrite (proj2 (mem_In source [source]) (or_introl eq_refl)). }
    assert (Hvisit' : forall nbrs tt st,
               (forall v, In v nbrs -> v = source) ->
               fold_left (sp_visit_neighbor_multi false tt [source]) nbrs st
               = st).
    { intros nbrs tt. induction nbrs as [|v l IH]; intros st H;
        [reflexivity|].
      simpl. rewrite IH by (intros w Hw; apply H; now right). unfold sp_visit_neighbor_multi.
      rewrite (H v (or_introl eq_refl)).
        now rewrite (proj2 (mem_In source [source]) (or_introl eq_refl)). }
    unfold neighbors_of in Hnb.
    destruct (is_multigraph G); eexists; (split; [reflexivity|]).
    + unfold _bidirectional_all_shortest_paths_multi.
      rewrite sp_loop_multi_S. simpl negb. cbn [andb sel truthy fst snd].
      unfold sp_round_multi. cbn [sel fst snd length Nat.ltb Nat.leb].
      cbn [fold_left]. unfold sp_visit_path_multi.
      cbn [last_node last]. rewrite Hvisit' by exact Hnb.
      cbn [sp_out sp_found sp_temp_tree upd yield_then].
      rewrite sp_loop_multi_S. cbn. split; reflexivity.
    + unfold _bidirectional_all_shortest_paths.
      rewrite sp_loop_S. simpl negb. cbn [andb sel truthy fst snd].
      unfold sp_round. cbn [sel fst snd length Nat.ltb Nat.leb].
      cbn [fold_left]. unfold sp_visit_path.
      cbn [last_node last]. rewrite Hvisit by exact Hnb.
      cbn [sp_out sp_found sp_temp_tree sp_nodes_source upd yield_then].
      rewrite sp_loop_S. cbn. split; reflexivity.
  - intro cutoff. rewrite simple_paths_dispatch by assumption.
    eexists. split; [reflexivity|]. unfold simple_paths_engine.
    destruct (_ <? 1)%Z; [reflexivity|]. simpl yielded.
    destruct (Z.to_nat _) as [|n]; [reflexivity|].
    cbn [simple_rounds]. cbv zeta.
    assert (Hround : simple_round (neighbors_of G)
                       ([(source, [[source]])], [(target, [[target]])]) =
                     ([], ([], [(target, [[target]])]))).
    { unfold simple_round. cbn [sel fst snd length Nat.ltb Nat.leb].
      cbn [fold_left]. unfold visit_leaf. cbn [fst snd].
      assert (Hvisit : forall nbrs st,
                 (forall v, In v nbrs -> v = source) ->
                 fold_left (visit_neighbor false [(target, [[target]])]
                              [[source]]) nbrs st = st).
      { induction nbrs as [|v l IH]; intros st H; [reflexivity|].
        simpl. rewrite IH by (intros w Hw; apply H; now right). unfold visit_path.
        rewrite (H v (or_introl eq_refl)).
        now rewrite (proj2 (mem_In source [source]) (or_introl eq_refl)). }
      rewrite Hvisit by exact Hnb. reflexivity. }
    rewrite Hround. simpl. apply simple_rounds_empty_side.
Qed.

Lemma source_without_neighbors_witness :
  bidirectional_has_path 2 lonely_and_edge 0 0 = Return false /\
  (exists g,
      bidirectional_all_shortest_paths 2 lonely_and_edge 0 0 = Return g /\
      yielded g = [] /\
      ending g = Raise (NetworkXNoPath 0 0)) /\
  (forall cutoff, exists g,
      bidirectional_all_simple_paths lonely_and_edge 0 0 cutoff = Return g /\
      yielded g = []).
Proof.
  apply (source_without_neighbors 2 lonely_and_edge 0 0).
  - reflexivity.
  - reflexivity.
  - intros v H. vm_compute in H. destruct H.
  - lia.
Defined.
